(** * md-wrap: a shallow embedding of [cmd/md-wrap/main.go]

    The reflow engine reads a markdown document line by line and re-wraps
    prose at a column width, keeping quote prefixes, list prefixes and fenced
    code blocks.  Go strings are byte sequences; the engine decodes them to
    runes for classification and width counting, and slices them by byte
    offsets.  The embedding keeps both views: a string is a [list byte], and
    [chunks] is its UTF-8 decoding as Go performs it. *)

From Stdlib Require Import Strings.String Strings.Byte.
From Stdlib Require Import ZArith List Bool Lia.
Import ListNotations.
Local Open Scope Z_scope.

(** ** Go strings, bytes and runes *)

Definition gostring := list byte.
(** Go's [rune] ([int32]); decoded code points stay within [0 .. 0x10FFFF]. *)
Abbreviation rune := Z (only parsing).

(** A string literal of the source, as its bytes. *)
Definition str (s : string) : gostring := list_byte_of_string s.
Arguments str s%_string.

Definition bz (b : byte) : Z := Z.of_N (Byte.to_N b).

Fixpoint bytes_eqb (a b : gostring) : bool :=
  match a, b with
  | [], [] => true
  | x :: a', y :: b' => Byte.eqb x y && bytes_eqb a' b'
  | _, _ => false
  end.

(** [s[n:]]: Go panics when [n] is outside [0 .. len(s)]; [None] is the panic. *)
Definition sliceFrom (s : gostring) (n : Z) : option gostring :=
  if (0 <=? n) && (n <=? Z.of_nat (length s))
  then Some (skipn (Z.to_nat n) s) else None.

Notation "x <- a ;; b" :=
  (match a with Some x => b | None => None end)
  (at level 61, a at next level, right associativity).

(** ** Package [unicode/utf8] *)

Module utf8.

Definition RuneError : rune := 0xFFFD.

(** What the first byte of a sequence announces: one ASCII byte, an invalid
    lead, or a sequence of [sz] bytes whose second byte lies in [lo..hi]. *)
Variant lead := Ascii | Invalid | Lead (sz : nat) (lo hi : Z).

Definition first (p0 : Z) : lead :=
  if p0 <? 0x80 then Ascii
  else if p0 <? 0xC2 then Invalid
  else if p0 <=? 0xDF then Lead 2 0x80 0xBF
  else if p0 =? 0xE0 then Lead 3 0xA0 0xBF
  else if p0 =? 0xED then Lead 3 0x80 0x9F
  else if p0 <=? 0xEF then Lead 3 0x80 0xBF
  else if p0 =? 0xF0 then Lead 4 0x90 0xBF
  else if p0 <=? 0xF3 then Lead 4 0x80 0xBF
  else if p0 =? 0xF4 then Lead 4 0x80 0x8F
  else Invalid.

(** Continuation bytes [locb..hicb]. *)
Definition isCont (b : Z) : bool := (0x80 <=? b) && (b <=? 0xBF).

Definition maskx := 0x3F.
Definition mask2 := 0x1F.
Definition mask3 := 0x0F.
Definition mask4 := 0x07.

(** [utf8.DecodeRune]: the rune at the head of [p] and its width in bytes.
    Every malformed or truncated sequence decodes to [(RuneError, 1)]. *)
Definition DecodeRune (p : gostring) : rune * nat :=
  match p with
  | [] => (RuneError, 0%nat)
  | p0 :: p1 =>
    match first (bz p0) with
    | Ascii => (bz p0, 1%nat)
    | Invalid => (RuneError, 1%nat)
    | Lead sz lo hi =>
      match p1 with
      | [] => (RuneError, 1%nat)
      | b1 :: p2 =>
        if (bz b1 <? lo) || (hi <? bz b1) then (RuneError, 1%nat)
        else if (sz <=? 2)%nat then
          (Z.lor (Z.shiftl (Z.land (bz p0) mask2) 6) (Z.land (bz b1) maskx),
           2%nat)
        else
          match p2 with
          | [] => (RuneError, 1%nat)
          | b2 :: p3 =>
            if negb (isCont (bz b2)) then (RuneError, 1%nat)
            else if (sz <=? 3)%nat then
              (Z.lor (Z.lor (Z.shiftl (Z.land (bz p0) mask3) 12)
                            (Z.shiftl (Z.land (bz b1) maskx) 6))
                     (Z.land (bz b2) maskx), 3%nat)
            else
              match p3 with
              | [] => (RuneError, 1%nat)
              | b3 :: _ =>
                if negb (isCont (bz b3)) then (RuneError, 1%nat)
                else
                  (Z.lor (Z.lor (Z.lor (Z.shiftl (Z.land (bz p0) mask4) 18)
                                       (Z.shiftl (Z.land (bz b1) maskx) 12))
                                (Z.shiftl (Z.land (bz b2) maskx) 6))
                         (Z.land (bz b3) maskx), 4%nat)
              end
          end
      end
    end
  end.

(** [utf8.RuneLen]. *)
Definition RuneLen (r : rune) : Z :=
  if r <? 0 then -1
  else if r <=? 0x7F then 1
  else if r <=? 0x7FF then 2
  else if (0xD800 <=? r) && (r <=? 0xDFFF) then -1
  else if r <=? 0xFFFF then 3
  else if r <=? 0x10FFFF then 4
  else -1.

End utf8.

(** A decoded rune together with the bytes it was decoded from. *)
Definition chunk := (rune * gostring)%type.

(** The decoding of a whole string, rune by rune, as [for range] and the
    conversion [[]rune(s)] do it.  The fuel is the byte length: every step
    consumes at least one byte. *)
Fixpoint chunksN (n : nat) (s : gostring) : list chunk :=
  match n with
  | O => []
  | S n' =>
    match s with
    | [] => []
    | _ :: _ =>
      let '(r, k) := utf8.DecodeRune s in
      (r, firstn k s) :: chunksN n' (skipn k s)
    end
  end.

Definition chunks (s : gostring) : list chunk := chunksN (length s) s.

Definition bytesOf (cs : list chunk) : gostring := concat (map snd cs).

(** [[]rune(s)] *)
Definition runes (s : gostring) : list rune := map fst (chunks s).

(** [len([]rune(s))] *)
Definition runeCount (s : gostring) : Z := Z.of_nat (length (runes s)).

(** ** Package [unicode] *)

(** [unicode.IsSpace]: the Latin-1 switch, then the White_Space table. *)
Definition IsSpace (r : rune) : bool :=
  if r <=? 0xFF then
    ((0x09 <=? r) && (r <=? 0x0D)) || (r =? 0x20) || (r =? 0x85) || (r =? 0xA0)
  else
    (r =? 0x1680) || ((0x2000 <=? r) && (r <=? 0x200A)) || (r =? 0x2028)
    || (r =? 0x2029) || (r =? 0x202F) || (r =? 0x205F) || (r =? 0x3000).

(** ** Package [strings] *)

(** [strings.HasPrefix] *)
Definition HasPrefix (s prefix : gostring) : bool :=
  (length prefix <=? length s)%nat && bytes_eqb (firstn (length prefix) s) prefix.

(** [strings.HasSuffix] *)
Definition HasSuffix (s suffix : gostring) : bool :=
  (length suffix <=? length s)%nat
  && bytes_eqb (skipn (length s - length suffix) s) suffix.

(** [strings.Repeat]; the count is never negative in this program. *)
Definition Repeat (s : gostring) (count : Z) : gostring :=
  concat (repeat s (Z.to_nat count)).

Fixpoint dropWhileChunk (f : rune -> bool) (cs : list chunk) : list chunk :=
  match cs with
  | [] => []
  | c :: cs' => if f (fst c) then dropWhileChunk f cs' else cs
  end.

(** [strings.TrimLeftFunc]: drop the leading runes that satisfy [f]. *)
Definition TrimLeftFunc (s : gostring) (f : rune -> bool) : gostring :=
  bytesOf (dropWhileChunk f (chunks s)).

(** [strings.TrimRightFunc]: drop the trailing runes that satisfy [f].  Go
    walks backwards with [DecodeLastRune], which finds the same rune
    boundaries as the forward decoding. *)
Definition TrimRightFunc (s : gostring) (f : rune -> bool) : gostring :=
  bytesOf (rev (dropWhileChunk f (rev (chunks s)))).

(** [strings.TrimSpace] *)
Definition TrimSpace (s : gostring) : gostring :=
  TrimRightFunc (TrimLeftFunc s IsSpace) IsSpace.

(** ** Package [bufio] *)

(** [bufio.isSpace], the word scanner's own table. *)
Definition isSpace (r : rune) : bool :=
  if r <=? 0xFF then
    (r =? 0x20) || (r =? 0x09) || (r =? 0x0A) || (r =? 0x0B) || (r =? 0x0C)
    || (r =? 0x0D) || (r =? 0x85) || (r =? 0xA0)
  else if (0x2000 <=? r) && (r <=? 0x200A) then true
  else
    (r =? 0x1680) || (r =? 0x2028) || (r =? 0x2029) || (r =? 0x202F)
    || (r =? 0x205F) || (r =? 0x3000).

(** The words of a decoded line: maximal runs of non-space runes.  [cur] is
    the word being read, if any. *)
Fixpoint splitWords (cs : list chunk) (cur : option gostring) : list gostring :=
  match cs with
  | [] => match cur with Some w => [w] | None => [] end
  | c :: cs' =>
    if isSpace (fst c) then
      match cur with
      | Some w => w :: splitWords cs' None
      | None => splitWords cs' None
      end
    else
      splitWords cs' (Some (match cur with Some w => w ++ snd c | None => snd c end))
  end.

(** The tokens of a [bufio.Scanner] with [Split(bufio.ScanWords)] over a
    string.  (A line is itself a scanner token, so no word exceeds the
    scanner's token limit.) *)
Definition ScanWords (s : gostring) : list gostring := splitWords (chunks s) None.

(** ** Input and output streams *)

Variant ioError :=
| ErrRead      (* a failed read of the input stream *)
| ErrTooLong   (* [bufio.ErrTooLong]: a token that does not fit the buffer *)
| ErrWrite     (* a failed write, other than to a broken pipe *)
| EPIPE.       (* [syscall.EPIPE]: a write to a pipe or socket closed at the
                  other end *)

(** An input stream.  [input] is what the stream yields until it ends or
    fails, cut at its line feeds: one element per line, without the line
    feed but with the carriage return before it, if there is one; the last
    line may be unterminated.  [readErr] is the read failure that ends the
    stream ([None]: the end of the file). *)
Record Reader := mkReader {
  input : list gostring;
  readErr : option ioError
}.

(** [bufio.MaxScanTokenSize], the limit of a scanner's buffer when no call
    of [Buffer] sets another. *)
Definition MaxScanTokenSize : Z := 64 * 1024.

(** [bufio.dropCR]: a terminal carriage return is dropped from the data. *)
Definition dropCR (data : gostring) : gostring :=
  if HasSuffix data [x0d] then firstn (length data - 1) data else data.

(** A [bufio.Scanner] with its default split function [bufio.ScanLines] and
    its default buffer, run to the end: the tokens [Scan] delivers and the
    error [Err] holds afterwards.  A line is delivered, without its terminal
    carriage return, when it and the byte that ends it fit the buffer, that
    is, when it has fewer than [MaxScanTokenSize] bytes, the carriage return
    counted.  At the first line that has more, [Scan] returns false with
    [ErrTooLong]: neither that line nor any line after it is delivered.  A
    read failure acts like the end of the file: what was read before it is
    delivered. *)
Fixpoint scanLines (input : list gostring) : list gostring * option ioError :=
  match input with
  | [] => ([], None)
  | line :: rest =>
    if MaxScanTokenSize <=? Z.of_nat (length line) then ([], Some ErrTooLong)
    else let '(ts, e) := scanLines rest in (dropCR line :: ts, e)
  end.

(** The values of [s.Text()] over the calls of [s.Scan()] that return true. *)
Definition tokens (r : Reader) : list gostring := fst (scanLines (input r)).

(** [s.Err()] once [s.Scan()] has returned false. *)
Definition scanErr (r : Reader) : option ioError :=
  match snd (scanLines (input r)) with
  | Some e => Some e
  | None => readErr r
  end.

(** An [io.Writer].  [wlog] records the payload of every write call in order;
    [wfail = Some (k, e)] is a stream on which every call from the [k]-th on
    (counting from 0) fails with the error [e]. *)
Record Writer := mkWriter {
  wlog : list gostring;
  wfail : option (nat * ioError)
}.

(** [fmt.Fprintln(w, s)]: one write call of [s] and a line break.  The log
    keeps [s]; the line break is implied by the entry's end. *)
Definition Fprintln (w : Writer) (s : gostring) : Writer * option ioError :=
  (mkWriter (wlog w ++ [s]) (wfail w),
   match wfail w with
   | Some (k, e) => if (k <=? length (wlog w))%nat then Some e else None
   | None => None
   end).

(** The payloads of the write calls that succeeded. *)
Definition delivered (w : Writer) : list gostring :=
  match wfail w with
  | Some (k, _) => firstn k (wlog w)
  | None => wlog w
  end.

(** ** [cmd/md-wrap/main.go] *)

Section MdWrap.

(** [unicode.Digit] above Latin-1: the Nd range table of the toolchain's
    Unicode version. *)
Variable digitTable : rune -> bool.

(** [unicode.IsDigit] *)
Definition IsDigit (r : rune) : bool :=
  if r <=? 0xFF then (0x30 <=? r) && (r <=? 0x39) else digitTable r.

(** The loop of [countQuoteDepth] over the remaining runes. *)
Fixpoint quoteLoop (rs : list rune) (bytes : Z) (consumedSpaceAfter : bool)
    (depth len : Z) : Z * Z :=
  match rs with
  | [] => (depth, len)
  | r :: rs' =>
    if IsSpace r then
      let bytes := bytes + utf8.RuneLen r in
      if negb consumedSpaceAfter
      then quoteLoop rs' bytes true depth bytes
      else quoteLoop rs' bytes consumedSpaceAfter depth len
    else if r =? 0x3E (* '>' *) then
      let bytes := bytes + 1 in
      quoteLoop rs' bytes false (depth + 1) bytes
    else (depth, len)
  end.

Definition countQuoteDepth (line : gostring) : Z * Z :=
  quoteLoop (runes line) 0 true 0 0.

Variant listType := noList | numList | bulletList.

Definition listType_eqb (a b : listType) : bool :=
  match a, b with
  | noList, noList | numList, numList | bulletList, bulletList => true
  | _, _ => false
  end.

Definition symbol (t : listType) : gostring :=
  match t with
  | numList => str "1."
  | bulletList => str "*"
  | noList => str ""
  end.

Definition lrunes (t : listType) : Z :=
  match t with
  | numList => 2
  | bulletList => 1
  | noList => 0
  end.

Record listState := mkListState {
  typ : listType;
  indent : Z;
  indentBytes : Z
}.

(** [listState{}] *)
Definition zeroListState : listState := mkListState noList 0 0.

(** The loop of [countListIndent]: [i] is the index of the head of [rest] in
    [runes]. *)
Fixpoint listLoop (runes : list rune) (i : nat) (rest : list rune)
    (l : listState) : listState :=
  match rest with
  | [] => l
  | r :: rest' =>
    if IsSpace r then
      listLoop runes (S i) rest'
        (mkListState (typ l) (indent l + 1) (indentBytes l + utf8.RuneLen r))
    else if IsDigit r then
      if (length runes <=? i + 2)%nat then l
      else if (nth (i + 1) runes 0 =? 0x2E (* '.' *))
              && IsSpace (nth (i + 2) runes 0)
      then mkListState numList (indent l) (indentBytes l)
      else l
    else if r =? 0x2A (* '*' *) then
      mkListState bulletList (indent l) (indentBytes l)
    else l
  end.

Definition countListIndent (line : gostring) : listState :=
  listLoop (runes line) 0 (runes line) zeroListState.

Definition endsSentence (word : gostring) : bool :=
  (HasSuffix word (str ".")
   || HasSuffix word [x2e; x22] (* period, double quote *)
   || HasSuffix word (str ".'"))
  && negb (HasSuffix word (str "e.g."))
  && negb (HasSuffix word (str "vs."))
  && negb (HasSuffix word (str "i.e.")).

Record fmtState := mkFmtState {
  charsPerLine : Z;
  newLine : gostring;
  newLineRunes : Z;
  inCode : bool;
  list_ : listState;  (* the field [list] *)
  appliedFirstList : bool;
  listPrefixFirst : gostring;
  listPrefixRest : gostring;
  out : Writer
}.

Definition newFmtState (charsPerLine : Z) (out : Writer) : fmtState :=
  mkFmtState charsPerLine [] 0 false zeroListState false [] [] out.

(** [setListState] updates the current running list state. *)
Definition setListState (f : fmtState) (l : listState) : fmtState :=
  if negb (listType_eqb (typ l) noList) then
    mkFmtState (charsPerLine f) (newLine f) (newLineRunes f) (inCode f)
      l false
      (Repeat (str " ") (indent l) ++ symbol (typ l) ++ str " ")
      (Repeat (str " ") (indent l + lrunes (typ l) + 1))
      (out f)
  else
    mkFmtState (charsPerLine f) (newLine f) (newLineRunes f) (inCode f)
      l (appliedFirstList f) [] [] (out f).

Definition writeToLine (f : fmtState) (s : gostring) : fmtState :=
  mkFmtState (charsPerLine f) (newLine f ++ s) (newLineRunes f + runeCount s)
    (inCode f) (list_ f) (appliedFirstList f) (listPrefixFirst f)
    (listPrefixRest f) (out f).

(** [flushLine]; the error [Fprintln] returns is dropped, as in the source. *)
Definition flushLine (f : fmtState) : fmtState :=
  let '(w, _) := Fprintln (out f) (TrimRightFunc (newLine f) IsSpace) in
  mkFmtState (charsPerLine f) [] 0 (inCode f) (list_ f) (appliedFirstList f)
    (listPrefixFirst f) (listPrefixRest f) w.

(** The recurring [if f.newLineRunes != 0 { f.flushLine() }]. *)
Definition flushPending (f : fmtState) : fmtState :=
  if negb (newLineRunes f =? 0) then flushLine f else f.

Definition setInCode (f : fmtState) (b : bool) : fmtState :=
  mkFmtState (charsPerLine f) (newLine f) (newLineRunes f) b (list_ f)
    (appliedFirstList f) (listPrefixFirst f) (listPrefixRest f) (out f).

Definition setAppliedFirstList (f : fmtState) (b : bool) : fmtState :=
  mkFmtState (charsPerLine f) (newLine f) (newLineRunes f) (inCode f) (list_ f)
    b (listPrefixFirst f) (listPrefixRest f) (out f).

(** One iteration of the word loop of [process]; the local [listPrefix] is
    threaded with the state. *)
Definition processWord (f : fmtState) (quotePrefix listPrefix word : gostring)
    : fmtState * gostring :=
  let f1 :=
    if negb (newLineRunes f =? 0)
       && (newLineRunes f + runeCount word >? charsPerLine f)
    then flushLine f else f in
  let '(f2, listPrefix') :=
    if newLineRunes f1 =? 0 then
      let f' := writeToLine (writeToLine f1 quotePrefix) listPrefix in
      if negb (appliedFirstList f')
      then (setAppliedFirstList f' true, listPrefixRest f')
      else (f', listPrefix)
    else (f1, listPrefix) in
  let f3 := writeToLine f2 word in
  (if endsSentence word then flushLine f3 else writeToLine f3 (str " "),
   listPrefix').

Fixpoint wordLoop (f : fmtState) (quotePrefix listPrefix : gostring)
    (words : list gostring) : fmtState :=
  match words with
  | [] => f
  | word :: words' =>
    let '(f', listPrefix') := processWord f quotePrefix listPrefix word in
    wordLoop f' quotePrefix listPrefix' words'
  end.

(** The list classification of a prose line (lines 190-201 of the source). *)
Definition updateList (f : fmtState) (newList : listState) : fmtState :=
  if negb (listType_eqb (typ newList) noList) then
    setListState (flushPending f) newList
  else if negb (listType_eqb (typ (list_ f)) noList)
          && negb (indent newList =? indent (list_ f) + lrunes (typ (list_ f)) + 1)
  then setListState (flushPending f) zeroListState
  else f.

(** A prose line (lines 186-233 of the source): quote prefix, list
    classification, then the word loop.  [None] is a slice panic. *)
Definition reflowLine (f : fmtState) (line : gostring) : option fmtState :=
  let '(quoteDepth, quoteLen) := countQuoteDepth line in
  let quotePrefix := Repeat (str "> ") quoteDepth in
  line <- sliceFrom line quoteLen ;;
  let newList := countListIndent line in
  let f := updateList f newList in
  let listPrefix :=
    if negb (listType_eqb (typ (list_ f)) noList) then
      if negb (listType_eqb (typ newList) noList)
      then listPrefixFirst f else listPrefixRest f
    else [] in
  line <- sliceFrom line
            (indentBytes (list_ f) + Z.of_nat (length (symbol (typ (list_ f))))) ;;
  Some (wordLoop f quotePrefix listPrefix (ScanWords line)).

(** The body of the line loop of [process]. *)
Definition processLine (f : fmtState) (line : gostring) : option fmtState :=
  let trimmedLine := TrimSpace line in
  if HasPrefix trimmedLine (str "```") then
    (* Check if we're entering or exiting a code block. *)
    let f := if negb (inCode f)
             then setListState (flushPending f) zeroListState else f in
    let f := setInCode f (negb (inCode f)) in
    Some (flushLine (writeToLine f trimmedLine))
  else if (length trimmedLine =? 0)%nat then
    Some (flushLine (setListState (flushPending f) zeroListState))
  else if inCode f then
    (* Leave code lines alone. *)
    Some (flushLine (writeToLine f line))
  else reflowLine f line.

Fixpoint lineLoop (f : fmtState) (lines : list gostring) : option fmtState :=
  match lines with
  | [] => Some f
  | line :: lines' =>
    f' <- processLine f line ;;
    lineLoop f' lines'
  end.

(** [process]: the source scans [os.Stdin] whatever [in] is, never consults
    the scanner's [Err], and returns nothing. *)
Definition process (f : fmtState) (_in stdin : Reader) : option fmtState :=
  f' <- lineLoop f (tokens stdin) ;;
  Some (flushPending f').

(** The lines handed to the output stream so far. *)
Definition emitted (f : fmtState) : list gostring := wlog (out f).

(** A document on a healthy stream, from the initial state: [lines] is the
    input, cut at its line feeds. *)
Definition run (width : Z) (lines : list gostring) : option (list gostring) :=
  f <- process (newFmtState width (mkWriter [] None))
         (mkReader lines None) (mkReader lines None) ;;
  Some (emitted f).

(** ** The process *)

(** The state in which the line loop stops: the state after the last line,
    or, when a line panics, the state in which the panic is raised.  The
    one slice that can fail is the second of a prose line (line 210 of the
    source), which comes after the list update of lines 190-201 and before
    the word loop. *)
Fixpoint stopState (f : fmtState) (lines : list gostring) : fmtState :=
  match lines with
  | [] => f
  | line :: lines' =>
    match processLine f line with
    | Some f' => stopState f' lines'
    | None =>
      let '(_, quoteLen) := countQuoteDepth line in
      updateList f (countListIndent (skipn (Z.to_nat quoteLen) line))
    end
  end.

(** How a run of the program ends, each with the output stream as the run
    leaves it: [main] returns and the process exits with a status; a
    run-time panic ends it; or it is killed by [SIGPIPE]. *)
Variant outcome :=
| Exit (status : Z) (stdout : Writer)
| Panic (stdout : Writer)
| Sigpipe (stdout : Writer).

(** The first write call of a run that fails with [EPIPE], if any, for a
    run that found [before] calls in the log and left the stream [w]. *)
Definition fatalCall (before : nat) (w : Writer) : option nat :=
  match wfail w with
  | Some (k, EPIPE) =>
    let i := Nat.max k before in
    if (i <? length (wlog w))%nat then Some i else None
  | _ => None
  end.

(** [main].  The engine writes to [os.Stdout], and the program does not
    catch signals: a write to standard output that fails with [EPIPE] makes
    the Go run time raise [SIGPIPE], which kills the process in that call.
    Any other failed write only returns its error to [flushLine], which
    drops it.  The engine never looks at the result of a write, so what it
    would do on a stream that never kills decides what it does before the
    fatal call: the run is killed at the first call that fails with [EPIPE],
    if it makes one; otherwise it panics or returns as [process] does, and
    the exit status is 0 when [main] returns. *)
Definition main (stdin : Reader) (stdout : Writer) : outcome :=
  let fs := newFmtState 80 stdout in
  let r := process fs stdin stdin in
  let w := match r with
           | Some f => out f
           | None => out (stopState fs (tokens stdin))
           end in
  match fatalCall (length (wlog stdout)) w with
  | Some k => Sigpipe (mkWriter (firstn (S k) (wlog w)) (wfail w))
  | None => match r with Some _ => Exit 0 w | None => Panic w end
  end.

(** * Properties *)

(** ** UTF-8 decoding *)

Lemma bz_range (b : byte) : 0 <= bz b < 256.
Proof.
  unfold bz. pose proof (Byte.to_N_bounded b). lia.
Qed.

Lemma first_Lead_inv (x : Z) (sz : nat) (lo hi : Z) :
  utf8.first x = utf8.Lead sz lo hi ->
  0x80 <= lo /\ hi <= 0xBF /\ (2 <= sz <= 4)%nat /\ 0xC2 <= x.
Proof.
  unfold utf8.first.
  repeat match goal with
         | |- context [if ?c then _ else _] => destruct c eqn:?
         end; intros H; inversion H; subst; lia.
Qed.

(** The first byte of [t], if any, is not a continuation byte. *)
Definition startsClean (t : gostring) : Prop :=
  match t with
  | [] => True
  | c :: _ => utf8.isCont (bz c) = false
  end.

Ltac decode_cases :=
  repeat match goal with
         | |- context [match ?l with [] => _ | _ :: _ => _ end] =>
           is_var l; destruct l
         | |- context [if ?c then _ else _] => destruct c eqn:?
         end.

Lemma DecodeRune_width (s : gostring) :
  s <> [] ->
  (1 <= snd (utf8.DecodeRune s) <= length s)%nat.
Proof.
  destruct s as [|p0 s]; [congruence|]. intros _.
  unfold utf8.DecodeRune.
  destruct (utf8.first (bz p0)) as [| |sz lo hi]; simpl; try lia.
  decode_cases; simpl; lia.
Qed.

Lemma chunksN_enough (n : nat) : forall s,
  (length s <= n)%nat -> chunksN n s = chunks s.
Proof.
  unfold chunks.
  induction n as [n IH] using lt_wf_ind. intros s Hn.
  destruct s as [|b s]; [destruct n; reflexivity|].
  destruct n as [|n]; [simpl in Hn; lia|].
  change (length (b :: s)) with (S (length s)).
  cbn [chunksN].
  pose proof (DecodeRune_width (b :: s) ltac:(congruence)) as Hw.
  destruct (utf8.DecodeRune (b :: s)) as [r k]. cbn [snd] in Hw.
  f_equal.
  assert (Hl : (length (skipn k (b :: s)) <= length s)%nat).
  { rewrite length_skipn. cbn [length] in *. lia. }
  cbn [length] in Hn.
  rewrite (IH n) by lia.
  rewrite (IH (length s)) by lia.
  reflexivity.
Qed.

Lemma chunks_nil : chunks [] = [].
Proof. reflexivity. Qed.

(** The unfolding equation of the decoding. *)
Lemma chunks_step (s : gostring) :
  s <> [] ->
  chunks s =
  (fst (utf8.DecodeRune s), firstn (snd (utf8.DecodeRune s)) s)
    :: chunks (skipn (snd (utf8.DecodeRune s)) s).
Proof.
  intros Hs. destruct s as [|b s]; [congruence|].
  unfold chunks at 1. change (length (b :: s)) with (S (length s)).
  cbn [chunksN].
  pose proof (DecodeRune_width (b :: s) Hs) as Hw.
  destruct (utf8.DecodeRune (b :: s)) as [r k]. cbn [fst snd] in *.
  f_equal. apply chunksN_enough. rewrite length_skipn. cbn [length] in *. lia.
Qed.

(** Induction on a string along its decoding. *)
Lemma chunks_ind (P : gostring -> Prop) :
  P [] ->
  (forall s, s <> [] -> P (skipn (snd (utf8.DecodeRune s)) s) -> P s) ->
  forall s, P s.
Proof.
  intros Hnil Hstep s.
  remember (length s) as n eqn:Hn. revert s Hn.
  induction n as [n IH] using lt_wf_ind. intros s Hn.
  destruct s as [|b s]; [exact Hnil|].
  apply Hstep; [congruence|].
  pose proof (DecodeRune_width (b :: s) ltac:(congruence)) as Hw.
  eapply IH; [|reflexivity]. rewrite length_skipn. cbn [length] in *. lia.
Qed.

Lemma bytesOf_app (a b : list chunk) : bytesOf (a ++ b) = bytesOf a ++ bytesOf b.
Proof. unfold bytesOf. rewrite map_app, concat_app. reflexivity. Qed.

Lemma bytesOf_chunks (s : gostring) : bytesOf (chunks s) = s.
Proof.
  induction s as [|s Hs IH] using chunks_ind; [reflexivity|].
  rewrite (chunks_step s Hs). unfold bytesOf in *. cbn [map concat snd].
  rewrite IH. apply firstn_skipn.
Qed.

Lemma chunks_eq_nil (s : gostring) : chunks s = [] -> s = [].
Proof.
  intros H. rewrite <- (bytesOf_chunks s), H. reflexivity.
Qed.

Lemma chunk_nonempty (s : gostring) (c : chunk) :
  In c (chunks s) -> snd c <> [].
Proof.
  induction s as [|s Hs IH] using chunks_ind; [contradiction|].
  rewrite (chunks_step s Hs). intros [<-|Hin]; [|auto].
  cbn [snd]. pose proof (DecodeRune_width s Hs) as Hw.
  destruct s; [congruence|].
  destruct (snd (utf8.DecodeRune (b :: s))); [lia|]. simpl. congruence.
Qed.

Lemma runeCount_nonneg (s : gostring) : 0 <= runeCount s.
Proof. unfold runeCount. lia. Qed.

Lemma runeCount_zero (s : gostring) : runeCount s = 0 <-> s = [].
Proof.
  unfold runeCount, runes. rewrite length_map. split.
  - intros H. apply chunks_eq_nil.
    destruct (chunks s); [reflexivity|simpl in H; lia].
  - intros ->. reflexivity.
Qed.

(** Decoding the head of a string does not look past a byte that cannot
    continue a sequence. *)
Lemma DecodeRune_app (s t : gostring) :
  s <> [] -> startsClean t ->
  utf8.DecodeRune (s ++ t) = utf8.DecodeRune s.
Proof.
  intros Hs Ht. destruct s as [|p0 s]; [congruence|].
  cbn [app utf8.DecodeRune].
  destruct (utf8.first (bz p0)) as [| |sz lo hi] eqn:Hf; try reflexivity.
  apply first_Lead_inv in Hf. destruct Hf as (Hlo & Hhi & Hsz & _).
  assert (Hrej : forall c, utf8.isCont (bz c) = false ->
                           (bz c <? lo) || (hi <? bz c) = true).
  { intros c Hc. unfold utf8.isCont in Hc.
    apply andb_false_iff in Hc. apply orb_true_iff.
    destruct Hc as [Hc|Hc]; [left|right]; lia. }
  destruct s as [|b1 s]; cbn [app].
  { destruct t as [|c t]; [reflexivity|]. rewrite (Hrej c Ht). reflexivity. }
  destruct ((bz b1 <? lo) || (hi <? bz b1)); [reflexivity|].
  destruct (sz <=? 2)%nat; [reflexivity|].
  destruct s as [|b2 s]; cbn [app].
  { destruct t as [|c t]; [reflexivity|]. cbn in Ht. rewrite Ht. reflexivity. }
  destruct (negb (utf8.isCont (bz b2))); [reflexivity|].
  destruct (sz <=? 3)%nat; [reflexivity|].
  destruct s as [|b3 s]; cbn [app].
  { destruct t as [|c t]; [reflexivity|]. cbn in Ht. rewrite Ht. reflexivity. }
  reflexivity.
Qed.

(** Decoding is compositional at such a byte. *)
Lemma chunks_app (s t : gostring) :
  startsClean t -> chunks (s ++ t) = chunks s ++ chunks t.
Proof.
  intros Ht. induction s as [|s Hs IH] using chunks_ind; [reflexivity|].
  assert (Hst : s ++ t <> []) by (destruct s; [congruence|discriminate]).
  rewrite (chunks_step (s ++ t) Hst), (chunks_step s Hs).
  rewrite (DecodeRune_app s t Hs Ht).
  pose proof (DecodeRune_width s Hs) as Hw.
  set (k := snd (utf8.DecodeRune s)) in *.
  rewrite firstn_app, skipn_app.
  replace (k - length s)%nat with 0%nat by lia.
  cbn [firstn skipn]. rewrite app_nil_r, IH. reflexivity.
Qed.

(** *** The values of decoded runes *)

Lemma lor_mul_add (q b n : Z) :
  0 <= n -> 0 <= b < 2 ^ n -> Z.lor (q * 2 ^ n) b = q * 2 ^ n + b.
Proof.
  intros Hn Hb.
  assert (Hl : Z.land (q * 2 ^ n) b = 0).
  { apply Z.bits_inj'. intros m Hm. rewrite Z.land_spec, Z.bits_0.
    destruct (Z.ltb_spec m n).
    - rewrite Z.mul_pow2_bits_low by lia. reflexivity.
    - destruct (Z.eq_dec b 0) as [->|Hb0]; [rewrite Z.bits_0; apply andb_false_r|].
      rewrite (Z.bits_above_log2 b m), andb_false_r; try lia.
      assert (Z.log2 b < n) by (apply Z.log2_lt_pow2; lia). lia. }
  rewrite <- Z.lxor_lor by exact Hl. symmetry. apply Z.add_nocarry_lxor. exact Hl.
Qed.

Lemma land_maskx (x : Z) : Z.land x utf8.maskx = x mod 64.
Proof. change utf8.maskx with (Z.ones 6). apply Z.land_ones. lia. Qed.

Lemma land_mask2 (x : Z) : Z.land x utf8.mask2 = x mod 32.
Proof. change utf8.mask2 with (Z.ones 5). apply Z.land_ones. lia. Qed.

Lemma land_mask3 (x : Z) : Z.land x utf8.mask3 = x mod 16.
Proof. change utf8.mask3 with (Z.ones 4). apply Z.land_ones. lia. Qed.

Lemma land_mask4 (x : Z) : Z.land x utf8.mask4 = x mod 8.
Proof. change utf8.mask4 with (Z.ones 3). apply Z.land_ones. lia. Qed.

Lemma value2 (a b : Z) :
  Z.lor (Z.shiftl (Z.land a utf8.mask2) 6) (Z.land b utf8.maskx)
  = (a mod 32) * 64 + b mod 64.
Proof.
  rewrite land_mask2, land_maskx, Z.shiftl_mul_pow2 by lia.
  rewrite lor_mul_add; [reflexivity|lia|]. apply Z.mod_pos_bound. lia.
Qed.

Lemma value3 (a b c : Z) :
  Z.lor (Z.lor (Z.shiftl (Z.land a utf8.mask3) 12)
               (Z.shiftl (Z.land b utf8.maskx) 6))
        (Z.land c utf8.maskx)
  = (a mod 16) * 4096 + (b mod 64) * 64 + c mod 64.
Proof.
  rewrite land_mask3, !land_maskx, !Z.shiftl_mul_pow2 by lia.
  pose proof (Z.mod_pos_bound b 64 ltac:(lia)).
  pose proof (Z.mod_pos_bound c 64 ltac:(lia)).
  rewrite (lor_mul_add (a mod 16) (b mod 64 * 2 ^ 6) 12) by lia.
  replace (a mod 16 * 2 ^ 12 + b mod 64 * 2 ^ 6)
    with ((a mod 16 * 64 + b mod 64) * 2 ^ 6) by lia.
  rewrite lor_mul_add by lia. lia.
Qed.

Lemma value4 (a b c d : Z) :
  Z.lor (Z.lor (Z.lor (Z.shiftl (Z.land a utf8.mask4) 18)
                      (Z.shiftl (Z.land b utf8.maskx) 12))
               (Z.shiftl (Z.land c utf8.maskx) 6))
        (Z.land d utf8.maskx)
  = (a mod 8) * 262144 + (b mod 64) * 4096 + (c mod 64) * 64 + d mod 64.
Proof.
  rewrite land_mask4, !land_maskx, !Z.shiftl_mul_pow2 by lia.
  pose proof (Z.mod_pos_bound b 64 ltac:(lia)).
  pose proof (Z.mod_pos_bound c 64 ltac:(lia)).
  pose proof (Z.mod_pos_bound d 64 ltac:(lia)).
  rewrite (lor_mul_add (a mod 8) (b mod 64 * 2 ^ 12) 18) by lia.
  replace (a mod 8 * 2 ^ 18 + b mod 64 * 2 ^ 12)
    with ((a mod 8 * 64 + b mod 64) * 2 ^ 12) by lia.
  rewrite (lor_mul_add _ (c mod 64 * 2 ^ 6) 12) by lia.
  replace ((a mod 8 * 64 + b mod 64) * 2 ^ 12 + c mod 64 * 2 ^ 6)
    with (((a mod 8 * 64 + b mod 64) * 64 + c mod 64) * 2 ^ 6) by lia.
  rewrite lor_mul_add by lia. lia.
Qed.

(** A decoded rune is [RuneError] with width 1, or lies in the range of
    code points that its width encodes. *)
Definition widthRange (r : rune) (k : nat) : Prop :=
  (r = utf8.RuneError /\ k = 1%nat)
  \/ (k = 1%nat /\ 0 <= r < 0x80)
  \/ (k = 2%nat /\ 0x80 <= r <= 0x7FF)
  \/ (k = 3%nat /\ 0x800 <= r <= 0xFFFF)
  \/ (k = 4%nat /\ 0x10000 <= r).

Lemma first_Lead_cases (x : Z) (sz : nat) (lo hi : Z) :
  utf8.first x = utf8.Lead sz lo hi ->
  (sz = 2%nat /\ 0xC2 <= x <= 0xDF /\ lo = 0x80 /\ hi = 0xBF)
  \/ (sz = 3%nat /\ 0xE0 <= x <= 0xEF /\ hi <= 0xBF
      /\ 0x80 <= lo /\ (x = 0xE0 -> 0xA0 <= lo))
  \/ (sz = 4%nat /\ 0xF0 <= x <= 0xF4 /\ hi <= 0xBF
      /\ 0x80 <= lo /\ (x = 0xF0 -> 0x90 <= lo)).
Proof.
  unfold utf8.first.
  repeat match goal with
         | |- context [if ?c then _ else _] => destruct c eqn:?
         end; intros H; inversion H; subst; lia.
Qed.

Lemma DecodeRune_range (s : gostring) :
  s <> [] ->
  widthRange (fst (utf8.DecodeRune s)) (snd (utf8.DecodeRune s)).
Proof.
  destruct s as [|p0 s]; [congruence|]. intros _.
  pose proof (bz_range p0) as H0.
  unfold utf8.DecodeRune, widthRange.
  destruct (utf8.first (bz p0)) as [| |sz lo hi] eqn:Hf; cbn [fst snd].
  - unfold utf8.first in Hf. destruct (bz p0 <? 0x80) eqn:E.
    + right; left. lia.
    + repeat match type of Hf with
             | (if ?c then _ else _) = _ => destruct c; try discriminate
             end.
  - left. auto.
  - destruct s as [|b1 s]; [left; auto|].
    pose proof (bz_range b1) as H1.
    destruct ((bz b1 <? lo) || (hi <? bz b1)) eqn:E1; [left; auto|].
    apply orb_false_iff in E1. destruct E1 as [E1 E1'].
    apply first_Lead_cases in Hf.
    destruct Hf as [(-> & Hx & -> & ->)|[(-> & Hx & Hhi & Hlo & Hlo')
                                        |(-> & Hx & Hhi & Hlo & Hlo')]];
      cbn [Nat.leb].
    + rewrite value2. right; right; left. cbn [fst snd].
      split; [reflexivity|]. Z.div_mod_to_equations. lia.
    + destruct s as [|b2 s]; [left; auto|].
      pose proof (bz_range b2) as H2.
      destruct (utf8.isCont (bz b2)) eqn:E2; cbn [negb]; [|left; auto].
      unfold utf8.isCont in E2. apply andb_true_iff in E2.
      rewrite value3. right; right; right; left. cbn [fst snd].
      split; [reflexivity|]. Z.div_mod_to_equations. lia.
    + destruct s as [|b2 s]; [left; auto|].
      pose proof (bz_range b2) as H2.
      destruct (utf8.isCont (bz b2)) eqn:E2; cbn [negb]; [|left; auto].
      unfold utf8.isCont in E2. apply andb_true_iff in E2.
      destruct s as [|b3 s]; [left; auto|].
      pose proof (bz_range b3) as H3.
      destruct (utf8.isCont (bz b3)) eqn:E3; cbn [negb]; [|left; auto].
      unfold utf8.isCont in E3. apply andb_true_iff in E3.
      rewrite value4. right; right; right; right. cbn [fst snd].
      split; [reflexivity|]. Z.div_mod_to_equations. lia.
Qed.

(** *** Spaces *)

Lemma isSpace_IsSpace (r : rune) : isSpace r = IsSpace r.
Proof.
  unfold isSpace, IsSpace.
  destruct (r <=? 0xFF) eqn:E; [lia|].
  destruct ((0x2000 <=? r) && (r <=? 0x200A)) eqn:E'; lia.
Qed.

Lemma IsSpace_not_error (r : rune) : IsSpace r = true -> r <> utf8.RuneError.
Proof. intros H ->. discriminate H. Qed.

(** On a decoded space, [RuneLen] is the number of bytes it was decoded
    from. *)
Lemma space_RuneLen (r : rune) (k : nat) :
  widthRange r k -> IsSpace r = true -> utf8.RuneLen r = Z.of_nat k.
Proof.
  intros Hw Hs. pose proof (IsSpace_not_error r Hs) as Hne.
  unfold IsSpace in Hs. unfold utf8.RuneLen.
  destruct Hw as [[-> _]|[[-> Hr]|[[-> Hr]|[[-> Hr]|[-> Hr]]]]];
    [congruence| | | |];
    destruct (r <=? 0xFF) eqn:E;
    repeat match goal with
           | |- context [if ?c then _ else _] => destruct c eqn:?
           end; lia.
Qed.

(** *** Well-formed chunks *)

Record goodChunk (c : chunk) : Prop := {
  good_nonempty : snd c <> [];
  good_range : widthRange (fst c) (length (snd c));
  good_clean : fst c <> utf8.RuneError -> startsClean (snd c)
}.

Lemma DecodeRune_clean (s : gostring) :
  fst (utf8.DecodeRune s) <> utf8.RuneError -> startsClean s.
Proof.
  destruct s as [|p0 s]; [exact (fun _ => I)|].
  cbn [startsClean utf8.DecodeRune]. intros H.
  destruct (utf8.isCont (bz p0)) eqn:Ec; [|reflexivity].
  exfalso. apply H.
  assert (Hf : utf8.first (bz p0) = utf8.Invalid).
  { unfold utf8.isCont in Ec. unfold utf8.first.
    destruct (bz p0 <? 0x80) eqn:E1; [lia|].
    destruct (bz p0 <? 0xC2) eqn:E2; [reflexivity|lia]. }
  rewrite Hf. reflexivity.
Qed.

Lemma chunks_good (s : gostring) : Forall goodChunk (chunks s).
Proof.
  induction s as [|s Hs IH] using chunks_ind; [constructor|].
  rewrite (chunks_step s Hs). constructor; [|exact IH].
  pose proof (DecodeRune_width s Hs) as Hw.
  pose proof (DecodeRune_range s Hs) as Hr.
  pose proof (DecodeRune_clean s) as Hc.
  destruct (utf8.DecodeRune s) as [r k]. cbn [fst snd] in *.
  assert (Hlen : length (firstn k s) = k) by (rewrite length_firstn; lia).
  split; cbn [fst snd].
  - intros E. rewrite E in Hlen. simpl in Hlen. lia.
  - rewrite Hlen. exact Hr.
  - intros Hne. specialize (Hc Hne).
    destruct s as [|b s]; [congruence|].
    destruct k; [lia|exact Hc].
Qed.

Lemma chunk_space_clean (c : chunk) :
  goodChunk c -> IsSpace (fst c) = true -> startsClean (snd c).
Proof.
  intros Hg Hs. apply (good_clean c Hg). apply IsSpace_not_error, Hs.
Qed.

(** An ASCII byte decodes to itself. *)
Lemma chunks_ascii (b : byte) (t : gostring) :
  bz b < 0x80 -> chunks (b :: t) = (bz b, [b]) :: chunks t.
Proof.
  intros Hb. rewrite chunks_step by discriminate.
  cbn [utf8.DecodeRune]. unfold utf8.first.
  destruct (bz b <? 0x80) eqn:E; [reflexivity|lia].
Qed.

Lemma ascii_clean (b : byte) (t : gostring) : bz b < 0x80 -> startsClean (b :: t).
Proof. intros H. cbn. unfold utf8.isCont. lia. Qed.

(** *** Re-decoding a part of a decoded string *)

Lemma chunks_suffix (a b : list chunk) : forall s,
  chunks s = a ++ b -> chunks (bytesOf b) = b.
Proof.
  induction a as [|c a IH]; intros s H.
  - cbn in H. rewrite <- H, bytesOf_chunks. reflexivity.
  - destruct s as [|x s]; [discriminate H|].
    rewrite chunks_step in H by discriminate.
    injection H as _ H. exact (IH _ H).
Qed.

Lemma startsClean_bytesOf (c : chunk) (b : list chunk) :
  goodChunk c -> fst c <> utf8.RuneError -> startsClean (bytesOf (c :: b)).
Proof.
  intros Hg Hne. pose proof (good_clean c Hg Hne) as Hc.
  pose proof (good_nonempty c Hg) as Hn.
  unfold bytesOf. cbn [map concat].
  destruct (snd c); [congruence|exact Hc].
Qed.

(** The chunks before a validly decoded rune re-decode to themselves. *)
Lemma chunks_prefix (a b : list chunk) (s : gostring) :
  chunks s = a ++ b ->
  match b with [] => True | c :: _ => fst c <> utf8.RuneError end ->
  chunks (bytesOf a) = a.
Proof.
  intros H Hb.
  pose proof (chunks_suffix a b s H) as Hsuf.
  assert (Hclean : startsClean (bytesOf b)).
  { destruct b as [|c b]; [exact I|].
    apply startsClean_bytesOf; [|exact Hb].
    pose proof (chunks_good s) as Hg. rewrite H in Hg.
    apply Forall_app in Hg. destruct Hg as [_ Hg].
    inversion Hg; assumption. }
  pose proof (chunks_app (bytesOf a) (bytesOf b) Hclean) as Happ.
  rewrite <- bytesOf_app, <- H, bytesOf_chunks, Hsuf, H in Happ.
  apply app_inv_tail in Happ. symmetry. exact Happ.
Qed.

(** *** ASCII text *)

Definition isAscii (s : gostring) : Prop := Forall (fun b => bz b < 0x80) s.

Lemma chunks_ascii_app (a b : gostring) :
  isAscii a -> chunks (a ++ b) = map (fun x => (bz x, [x])) a ++ chunks b.
Proof.
  induction 1 as [|x a Hx Ha IH]; [reflexivity|].
  cbn [app map]. rewrite chunks_ascii by exact Hx. rewrite IH. reflexivity.
Qed.

Lemma chunks_app_ascii (a b : gostring) :
  isAscii a -> chunks (a ++ b) = chunks a ++ chunks b.
Proof.
  intros Ha. rewrite (chunks_ascii_app a b Ha).
  rewrite <- (app_nil_r a) at 2. rewrite (chunks_ascii_app a [] Ha).
  rewrite chunks_nil, app_nil_r. reflexivity.
Qed.

(** The string is empty or its last byte is ASCII. *)
Definition endsAscii (s : gostring) : Prop :=
  s = [] \/ exists s' x, s = s' ++ [x] /\ bz x < 0x80.

Lemma chunks_app_endsAscii (a b : gostring) :
  endsAscii a -> chunks (a ++ b) = chunks a ++ chunks b.
Proof.
  intros [->|(a' & x & -> & Hx)]; [reflexivity|].
  rewrite <- app_assoc. cbn [app].
  rewrite (chunks_app a' (x :: b)) by (apply ascii_clean; exact Hx).
  rewrite (chunks_app a' [x]) by (apply ascii_clean; exact Hx).
  rewrite !chunks_ascii by exact Hx. rewrite chunks_nil, <- app_assoc.
  reflexivity.
Qed.

Lemma endsAscii_app (a b : gostring) :
  endsAscii b -> b <> [] -> endsAscii (a ++ b).
Proof.
  intros [->|(b' & x & -> & Hx)] Hb; [congruence|].
  right. exists (a ++ b'), x. rewrite app_assoc. auto.
Qed.

Lemma isAscii_endsAscii (a : gostring) : isAscii a -> endsAscii a.
Proof.
  intros Ha. induction a as [|x a _] using rev_ind; [left; reflexivity|].
  right. exists a, x. split; [reflexivity|].
  apply Forall_app in Ha. destruct Ha as [_ Ha]. inversion Ha; assumption.
Qed.

Lemma isAscii_app (a b : gostring) : isAscii a -> isAscii b -> isAscii (a ++ b).
Proof. intros. apply Forall_app. split; assumption. Qed.

Lemma isAscii_Repeat (s : gostring) (n : Z) : isAscii s -> isAscii (Repeat s n).
Proof.
  intros Hs. unfold Repeat. induction (Z.to_nat n) as [|k IH]; [constructor|].
  cbn [repeat concat]. apply isAscii_app; assumption.
Qed.

Lemma isAscii_literal (s : gostring) :
  forallb (fun b => bz b <? 0x80) s = true -> isAscii s.
Proof.
  intros H. apply Forall_forall. intros b Hb.
  rewrite forallb_forall in H. specialize (H b Hb). apply Z.ltb_lt in H. exact H.
Qed.

(** *** Rune counts of concatenations *)

Lemma runeCount_app_chunks (a b : gostring) :
  chunks (a ++ b) = chunks a ++ chunks b ->
  runeCount (a ++ b) = runeCount a + runeCount b.
Proof.
  intros H. unfold runeCount, runes. rewrite H, map_app, length_app.
  apply Nat2Z.inj_add.
Qed.

(** *** Trimming *)

Lemma dropWhileChunk_split (f : rune -> bool) (l : list chunk) :
  exists d, l = d ++ dropWhileChunk f l
            /\ Forall (fun c => f (fst c) = true) d
            /\ match dropWhileChunk f l with
               | [] => True
               | c :: _ => f (fst c) = false
               end.
Proof.
  induction l as [|c l IH]; [exists []; cbn; auto|].
  cbn [dropWhileChunk]. destruct (f (fst c)) eqn:E.
  - destruct IH as (d & Hd & Hall & Hk). exists (c :: d).
    split; [cbn; f_equal; exact Hd|]. split; [constructor; assumption|exact Hk].
  - exists []. cbn. auto.
Qed.

Lemma dropWhileChunk_stop (f : rune -> bool) (x y : list chunk) (c : chunk) :
  f (fst c) = false ->
  dropWhileChunk f (x ++ c :: y) = dropWhileChunk f x ++ c :: y.
Proof.
  intros Hc. induction x as [|a x IH]; cbn [app dropWhileChunk].
  - rewrite Hc. reflexivity.
  - destruct (f (fst a)); [exact IH|reflexivity].
Qed.

Lemma dropWhileChunk_length (f : rune -> bool) (x : list chunk) :
  (length (dropWhileChunk f x) <= length x)%nat.
Proof.
  induction x as [|c x IH]; [reflexivity|].
  cbn [dropWhileChunk]. destruct (f (fst c)); cbn [length]; lia.
Qed.

(** The runes of a right-trimmed string are the runes that were kept. *)
Lemma TrimRight_chunks (s : gostring) :
  chunks (TrimRightFunc s IsSpace)
  = rev (dropWhileChunk IsSpace (rev (chunks s))).
Proof.
  unfold TrimRightFunc.
  destruct (dropWhileChunk_split IsSpace (rev (chunks s))) as (d & Hd & Hall & _).
  set (k := dropWhileChunk IsSpace (rev (chunks s))) in *.
  assert (Hs : chunks s = rev k ++ rev d).
  { rewrite <- rev_app_distr, <- Hd, rev_involutive. reflexivity. }
  apply (chunks_prefix (rev k) (rev d) s Hs).
  destruct (rev d) as [|c d'] eqn:Ed; [exact I|].
  apply IsSpace_not_error.
  assert (Hin : In c d).
  { apply in_rev. rewrite Ed. left. reflexivity. }
  rewrite Forall_forall in Hall. exact (Hall c Hin).
Qed.

Lemma TrimRight_nil : TrimRightFunc [] IsSpace = [].
Proof. reflexivity. Qed.

Lemma TrimRight_runeCount (s : gostring) :
  runeCount (TrimRightFunc s IsSpace) <= runeCount s.
Proof.
  unfold runeCount, runes. rewrite TrimRight_chunks, !length_map, length_rev.
  pose proof (dropWhileChunk_length IsSpace (rev (chunks s))) as H.
  rewrite length_rev in H. apply Nat2Z.inj_le. exact H.
Qed.

(** A string whose last rune is not a space is left alone. *)
Lemma TrimRight_fixed (s : gostring) (a : list chunk) (c : chunk) :
  chunks s = a ++ [c] -> IsSpace (fst c) = false ->
  TrimRightFunc s IsSpace = s.
Proof.
  intros H Hc. unfold TrimRightFunc. rewrite H, rev_app_distr.
  cbn [rev app dropWhileChunk]. rewrite Hc.
  change (c :: rev a) with (rev [c] ++ rev a).
  rewrite <- rev_app_distr, rev_involutive, <- H. apply bytesOf_chunks.
Qed.

(** Trailing spaces do not change the result. *)
Lemma TrimRight_app_spaces (s t : gostring) :
  chunks (s ++ t) = chunks s ++ chunks t ->
  Forall (fun c => IsSpace (fst c) = true) (chunks t) ->
  TrimRightFunc (s ++ t) IsSpace = TrimRightFunc s IsSpace.
Proof.
  intros H Ht. unfold TrimRightFunc. rewrite H, rev_app_distr.
  f_equal. f_equal.
  remember (rev (chunks t)) as rt eqn:Ert.
  assert (Hall : Forall (fun c => IsSpace (fst c) = true) rt).
  { subst rt. apply Forall_rev. exact Ht. }
  clear Ert. induction Hall as [|c rt Hc _ IH]; [reflexivity|].
  cbn [app dropWhileChunk]. rewrite Hc. exact IH.
Qed.

Lemma TrimRight_idem (s : gostring) :
  TrimRightFunc (TrimRightFunc s IsSpace) IsSpace = TrimRightFunc s IsSpace.
Proof.
  pose proof (TrimRight_chunks s) as H.
  destruct (dropWhileChunk_split IsSpace (rev (chunks s))) as (d & _ & _ & Hk).
  destruct (dropWhileChunk IsSpace (rev (chunks s))) as [|c k] eqn:E.
  - cbn in H. apply chunks_eq_nil in H. rewrite H. reflexivity.
  - cbn [rev] in H. exact (TrimRight_fixed _ _ _ H Hk).
Qed.

(** *** Words *)

Definition nonSpace (c : chunk) : Prop := IsSpace (fst c) = false.

(** A word: not empty, and none of its runes is a space. *)
Definition isWord (w : gostring) : Prop :=
  w <> [] /\ Forall nonSpace (chunks w).

Lemma bytesOf_snoc (m : list chunk) (c : chunk) :
  bytesOf (m ++ [c]) = bytesOf m ++ snd c.
Proof. rewrite bytesOf_app. unfold bytesOf. cbn. rewrite app_nil_r. reflexivity. Qed.

(** Every word of [splitWords] is the bytes of a maximal run of non-space
    chunks: what follows it, if anything, is a space. *)
Lemma splitWords_segments (cs : list chunk) : forall a m cur,
  (cur = None /\ m = [])
  \/ (cur = Some (bytesOf m) /\ m <> [] /\ Forall nonSpace m) ->
  forall w, In w (splitWords cs cur) ->
  exists A M B, a ++ m ++ cs = A ++ M ++ B /\ w = bytesOf M /\ M <> []
                /\ Forall nonSpace M
                /\ match B with [] => True | c :: _ => IsSpace (fst c) = true end.
Proof.
  induction cs as [|c cs IH]; intros a m cur Hcur w Hw.
  - cbn in Hw. destruct Hcur as [[-> ->]|(-> & Hm & Hall)]; [contradiction|].
    destruct Hw as [<-|[]]. exists a, m, []. auto.
  - cbn [splitWords] in Hw. rewrite isSpace_IsSpace in Hw.
    destruct (IsSpace (fst c)) eqn:Ec.
    + assert (Hrest : In w (splitWords cs None) ->
                      exists A M B, a ++ m ++ c :: cs = A ++ M ++ B
                        /\ w = bytesOf M /\ M <> [] /\ Forall nonSpace M
                        /\ match B with
                           | [] => True
                           | c :: _ => IsSpace (fst c) = true
                           end).
      { intros Hin.
        destruct (IH (a ++ m ++ [c]) [] None (or_introl (conj eq_refl eq_refl))
                    w Hin) as (A & M & B & E & H).
        exists A, M, B. split; [|exact H].
        rewrite <- E. rewrite <- !app_assoc. reflexivity. }
      destruct Hcur as [[-> ->]|(-> & Hm & Hall)]; [exact (Hrest Hw)|].
      destruct Hw as [<-|Hw]; [|exact (Hrest Hw)].
      exists a, m, (c :: cs). auto.
    + destruct (IH a (m ++ [c])
                  (Some (match cur with Some w0 => w0 ++ snd c | None => snd c end)))
        with (w := w) as (A & M & B & E & H).
      * right. split; [|split].
        -- f_equal. rewrite bytesOf_snoc.
           destruct Hcur as [[-> ->]|(-> & _ & _)]; reflexivity.
        -- destruct m; discriminate.
        -- apply Forall_app. split.
           ++ destruct Hcur as [[_ ->]|(_ & _ & Hall)]; [constructor|exact Hall].
           ++ constructor; [exact Ec|constructor].
      * exact Hw.
      * exists A, M, B. split; [|exact H].
        rewrite <- E. rewrite <- !app_assoc. reflexivity.
Qed.

Lemma ScanWords_isWord (s w : gostring) : In w (ScanWords s) -> isWord w.
Proof.
  intros Hw.
  destruct (splitWords_segments (chunks s) [] [] None
              (or_introl (conj eq_refl eq_refl)) w Hw)
    as (A & M & B & E & -> & Hne & Hall & HB).
  cbn [app] in E.
  pose proof (chunks_suffix A (M ++ B) s E) as Hsuf.
  assert (HM : chunks (bytesOf M) = M).
  { apply (chunks_prefix M B _ Hsuf).
    destruct B as [|c B]; [exact I|]. apply IsSpace_not_error, HB. }
  split.
  - intros Hnil. rewrite Hnil, chunks_nil in HM. congruence.
  - rewrite HM. exact Hall.
Qed.

Lemma isWord_chunks (w : gostring) :
  isWord w -> exists c cs, chunks w = c :: cs /\ Forall nonSpace (c :: cs).
Proof.
  intros [Hne Hall]. destruct (chunks w) as [|c cs] eqn:E.
  - apply chunks_eq_nil in E. congruence.
  - exists c, cs. auto.
Qed.

Lemma isWord_last (w : gostring) :
  isWord w -> exists cs c, chunks w = cs ++ [c] /\ nonSpace c.
Proof.
  intros [Hne Hall].
  destruct (chunks w) as [|c0 cs0] eqn:E using rev_ind.
  - apply chunks_eq_nil in E. congruence.
  - exists cs0, c0. split; [reflexivity|].
    apply Forall_app in Hall. destruct Hall as [_ Hall].
    inversion Hall; assumption.
Qed.

(** A line that ends with a word is not changed by the trim. *)
Lemma TrimRight_word (a w : gostring) :
  chunks (a ++ w) = chunks a ++ chunks w -> isWord w ->
  TrimRightFunc (a ++ w) IsSpace = a ++ w.
Proof.
  intros H Hw. destruct (isWord_last w Hw) as (cs & c & Ec & Hc).
  apply (TrimRight_fixed (a ++ w) (chunks a ++ cs) c); [|exact Hc].
  rewrite H, Ec, app_assoc. reflexivity.
Qed.

(** The chunk of the separator the engine writes after a word. *)
Lemma chunks_space : chunks (str " ") = [(0x20, str " ")].
Proof. reflexivity. Qed.

Lemma space_clean : startsClean (str " ").
Proof. reflexivity. Qed.

Lemma TrimRight_app_space (s : gostring) :
  TrimRightFunc (s ++ str " ") IsSpace = TrimRightFunc s IsSpace.
Proof.
  apply TrimRight_app_spaces.
  - apply chunks_app. exact space_clean.
  - rewrite chunks_space. constructor; [reflexivity|constructor].
Qed.

(** *** Lines that begin with a given prefix *)

(** [l] is [p] followed by a rune that is not a space. *)
Definition prefixedBy (p l : gostring) : Prop :=
  exists c rest, chunks l = chunks p ++ c :: rest /\ nonSpace c.

Lemma prefixedBy_bytes (p l : gostring) :
  prefixedBy p l -> exists t, l = p ++ t /\ t <> [].
Proof.
  intros (c & rest & H & Hc).
  exists (bytesOf (c :: rest)). split.
  - rewrite <- (bytesOf_chunks l), H, bytesOf_app, bytesOf_chunks. reflexivity.
  - assert (Hin : In c (chunks l)) by (rewrite H; apply in_elt).
    pose proof (chunk_nonempty l c Hin) as Hn.
    unfold bytesOf. cbn [map concat]. destruct (snd c); [congruence|discriminate].
Qed.

Lemma prefixedBy_runes (p l : gostring) :
  prefixedBy p l ->
  exists r rs, runes l = runes p ++ r :: rs /\ IsSpace r = false.
Proof.
  intros (c & rest & H & Hc). exists (fst c), (map fst rest).
  unfold runes. rewrite H, map_app. auto.
Qed.

Lemma prefixedBy_start (p w : gostring) :
  isAscii p -> isWord w -> prefixedBy p (p ++ w).
Proof.
  intros Hp Hw. destruct (isWord_chunks w Hw) as (c & cs & E & Hall).
  exists c, cs. rewrite chunks_app_ascii by exact Hp. rewrite E.
  split; [reflexivity|]. inversion Hall; assumption.
Qed.

Lemma prefixedBy_app (p l x : gostring) :
  prefixedBy p l -> chunks (l ++ x) = chunks l ++ chunks x ->
  prefixedBy p (l ++ x).
Proof.
  intros (c & rest & H & Hc) Happ. exists c, (rest ++ chunks x).
  rewrite Happ, H, <- app_assoc. auto.
Qed.

Lemma prefixedBy_TrimRight (p l : gostring) :
  prefixedBy p l -> prefixedBy p (TrimRightFunc l IsSpace).
Proof.
  intros (c & rest & H & Hc).
  exists c, (rev (dropWhileChunk IsSpace (rev rest))).
  rewrite TrimRight_chunks, H, rev_app_distr. cbn [rev].
  rewrite <- app_assoc. cbn [app].
  rewrite dropWhileChunk_stop by exact Hc.
  rewrite rev_app_distr. cbn [rev]. rewrite rev_involutive, <- app_assoc.
  auto.
Qed.

(** ** The engine *)

(** *** One word *)

(** The width test of the word loop. *)
Definition overflows (f : fmtState) (word : gostring) : bool :=
  negb (newLineRunes f =? 0)
  && (newLineRunes f + runeCount word >? charsPerLine f).

(** The word starts an output line: the buffer was empty or has just been
    flushed for width. *)
Definition startsLine (f : fmtState) (word : gostring) : bool :=
  (newLineRunes f =? 0) || overflows f word.

(** The buffer the word is appended to. *)
Definition lineBase (f : fmtState) (quotePrefix listPrefix word : gostring)
    : gostring :=
  if startsLine f word then quotePrefix ++ listPrefix else newLine f.

Definition lineBaseRunes (f : fmtState) (quotePrefix listPrefix word : gostring)
    : Z :=
  if startsLine f word then 0 + runeCount quotePrefix + runeCount listPrefix
  else newLineRunes f.

(** What the output stream has received when the word is appended. *)
Definition logBefore (f : fmtState) (word : gostring) : list gostring :=
  emitted f
  ++ (if overflows f word then [TrimRightFunc (newLine f) IsSpace] else []).

(** [processWord] in closed form. *)
Lemma processWord_eq (f : fmtState) (qp lp w : gostring) :
  (newLineRunes f = 0 -> newLine f = []) ->
  processWord f qp lp w =
  (let base := lineBase f qp lp w in
   let appl := if startsLine f w then true else appliedFirstList f in
   if endsSentence w then
     mkFmtState (charsPerLine f) [] 0 (inCode f) (list_ f) appl
       (listPrefixFirst f) (listPrefixRest f)
       (mkWriter (logBefore f w ++ [TrimRightFunc (base ++ w) IsSpace])
          (wfail (out f)))
   else
     mkFmtState (charsPerLine f) ((base ++ w) ++ str " ")
       (lineBaseRunes f qp lp w + runeCount w + 1)
       (inCode f) (list_ f) appl (listPrefixFirst f) (listPrefixRest f)
       (mkWriter (logBefore f w) (wfail (out f))),
   if startsLine f w && negb (appliedFirstList f)
   then listPrefixRest f else lp).
Proof.
  intros H0.
  unfold processWord, lineBase, lineBaseRunes, logBefore, startsLine, emitted,
    overflows.
  destruct f as [cpl nl nr ic l af lpf lpr [lg wf]].
  unfold flushLine, writeToLine, setAppliedFirstList, Fprintln.
  cbn -[runeCount TrimRightFunc str] in *.
  destruct (nr =? 0) eqn:En.
  - apply Z.eqb_eq in En. rewrite (H0 En).
    cbn -[runeCount TrimRightFunc str]. rewrite En.
    destruct af, (endsSentence w); cbn -[runeCount TrimRightFunc str];
      rewrite ?app_nil_r; reflexivity.
  - cbn -[runeCount TrimRightFunc str].
    destruct (nr + runeCount w >? cpl);
      cbn -[runeCount TrimRightFunc str]; rewrite ?En;
      destruct af, (endsSentence w); cbn -[runeCount TrimRightFunc str];
      rewrite ?app_nil_r; reflexivity.
Qed.

(** *** The invariant of the engine's state *)

Record wf (f : fmtState) : Prop := {
  wf_count : newLineRunes f = runeCount (newLine f);
  wf_tail : endsAscii (newLine f);
  wf_code : inCode f = true -> newLine f = [] /\ typ (list_ f) = noList;
  wf_nolist :
    typ (list_ f) = noList ->
    list_ f = zeroListState /\ listPrefixFirst f = [] /\ listPrefixRest f = [];
  wf_first : isAscii (listPrefixFirst f);
  wf_rest : isAscii (listPrefixRest f)
}.

Lemma wf_empty (f : fmtState) : wf f -> newLineRunes f = 0 -> newLine f = [].
Proof. intros H E. apply runeCount_zero. rewrite <- (wf_count f H). exact E. Qed.

Lemma wf_pending (f : fmtState) : wf f -> newLine f <> [] -> newLineRunes f <> 0.
Proof. intros H Hn E. apply Hn, (wf_empty f H E). Qed.

Lemma wf_new (w : Z) (o : Writer) : wf (newFmtState w o).
Proof.
  split; cbn; try constructor; auto; try discriminate.
Qed.

Lemma listType_eqb_eq (a b : listType) : listType_eqb a b = true <-> a = b.
Proof. destruct a, b; cbn; split; congruence. Qed.

Lemma listType_neqb (a b : listType) : negb (listType_eqb a b) = true <-> a <> b.
Proof. destruct a, b; cbn; split; congruence. Qed.

Lemma isAscii_symbol (t : listType) : isAscii (symbol t).
Proof. destruct t; apply isAscii_literal; reflexivity. Qed.

Lemma isAscii_space : isAscii (str " ").
Proof. apply isAscii_literal. reflexivity. Qed.

Lemma isAscii_quotePrefix (n : Z) : isAscii (Repeat (str "> ") n).
Proof. apply isAscii_Repeat, isAscii_literal. reflexivity. Qed.

Lemma wf_flushLine (f : fmtState) : wf f -> wf (flushLine f).
Proof.
  intros [Hc Ht Hcode Hno Hf Hr]. unfold flushLine, Fprintln.
  split; cbn [newLine newLineRunes inCode list_ listPrefixFirst listPrefixRest];
    auto.
  - left. reflexivity.
  - intros H. split; [reflexivity|]. apply Hcode, H.
Qed.

Lemma wf_flushPending (f : fmtState) : wf f -> wf (flushPending f).
Proof.
  intros H. unfold flushPending.
  destruct (negb (newLineRunes f =? 0)); [apply wf_flushLine|]; exact H.
Qed.

Lemma flushPending_empty (f : fmtState) : wf f -> newLine (flushPending f) = [].
Proof.
  intros H. unfold flushPending.
  destruct (newLineRunes f =? 0) eqn:E; cbn [negb].
  - apply (wf_empty f H). lia.
  - reflexivity.
Qed.

Lemma flushPending_inCode (f : fmtState) : inCode (flushPending f) = inCode f.
Proof.
  unfold flushPending. destruct (negb (newLineRunes f =? 0)); reflexivity.
Qed.

Lemma flushPending_list (f : fmtState) : list_ (flushPending f) = list_ f.
Proof.
  unfold flushPending. destruct (negb (newLineRunes f =? 0)); reflexivity.
Qed.

(** What the pending buffer contributes to the output when it is flushed. *)
Definition pendingLine (f : fmtState) : list gostring :=
  if negb (newLineRunes f =? 0)
  then [TrimRightFunc (newLine f) IsSpace] else [].

Lemma flushPending_emitted (f : fmtState) :
  emitted (flushPending f) = emitted f ++ pendingLine f.
Proof.
  unfold flushPending, pendingLine, emitted.
  destruct (negb (newLineRunes f =? 0)); cbn; [reflexivity|].
  rewrite app_nil_r. reflexivity.
Qed.

Lemma wf_setListState_zero (f : fmtState) :
  wf f -> wf (setListState f zeroListState).
Proof.
  intros [Hc Ht Hcode Hno Hf Hr]. unfold setListState. cbn.
  split; cbn; auto; try (constructor; fail).
  intros H. split; [apply Hcode, H|reflexivity].
Qed.

Lemma wf_setListState_list (f : fmtState) (l : listState) :
  wf f -> inCode f = false -> typ l <> noList -> wf (setListState f l).
Proof.
  intros [Hc Ht Hcode Hno Hf Hr] Hic Hl. unfold setListState.
  apply listType_neqb in Hl. rewrite Hl.
  split; cbn [newLine newLineRunes inCode list_ listPrefixFirst listPrefixRest];
    auto.
  - congruence.
  - apply listType_neqb in Hl. congruence.
  - apply isAscii_app; [apply isAscii_Repeat, isAscii_space|].
    apply isAscii_app; [apply isAscii_symbol|apply isAscii_space].
  - apply isAscii_Repeat, isAscii_space.
Qed.

Lemma lineBase_endsAscii (f : fmtState) (qp lp w : gostring) :
  wf f -> isAscii qp -> isAscii lp -> endsAscii (lineBase f qp lp w).
Proof.
  intros H Hq Hl. unfold lineBase. destruct (startsLine f w).
  - apply isAscii_endsAscii, isAscii_app; assumption.
  - apply (wf_tail f H).
Qed.

Lemma lineBase_runes (f : fmtState) (qp lp w : gostring) :
  wf f -> isAscii qp -> isAscii lp ->
  lineBaseRunes f qp lp w = runeCount (lineBase f qp lp w).
Proof.
  intros H Hq Hl. unfold lineBase, lineBaseRunes. destruct (startsLine f w).
  - rewrite runeCount_app_chunks by (apply chunks_app_ascii; exact Hq). lia.
  - apply (wf_count f H).
Qed.

(** The buffer after a word that does not end a sentence. *)
Lemma runeCount_word_space (b w : gostring) :
  endsAscii b ->
  runeCount ((b ++ w) ++ str " ") = runeCount b + runeCount w + 1.
Proof.
  intros Hb.
  rewrite runeCount_app_chunks by (apply chunks_app; exact space_clean).
  rewrite runeCount_app_chunks by (apply chunks_app_endsAscii; exact Hb).
  reflexivity.
Qed.

Lemma processWord_wf (f : fmtState) (qp lp w : gostring) :
  wf f -> inCode f = false -> isAscii qp -> isAscii lp ->
  wf (fst (processWord f qp lp w))
  /\ inCode (fst (processWord f qp lp w)) = false
  /\ isAscii (snd (processWord f qp lp w))
  /\ list_ (fst (processWord f qp lp w)) = list_ f
  /\ listPrefixRest (fst (processWord f qp lp w)) = listPrefixRest f.
Proof.
  intros H Hic Hq Hl.
  rewrite (processWord_eq f qp lp w (wf_empty f H)). cbn zeta. cbn [fst snd].
  pose proof H as [Hc Ht Hcode Hno Hf Hr].
  split; [|split; [|split; [|split]]].
  - destruct (endsSentence w).
    + split; cbn [newLine newLineRunes inCode list_ listPrefixFirst
                    listPrefixRest]; auto; [left; reflexivity|congruence].
    + split; cbn [newLine newLineRunes inCode list_ listPrefixFirst
                    listPrefixRest]; auto.
      * rewrite lineBase_runes by assumption.
        symmetry. apply runeCount_word_space.
        apply lineBase_endsAscii; assumption.
      * apply endsAscii_app; [|discriminate].
        apply isAscii_endsAscii, isAscii_space.
      * congruence.
  - destruct (endsSentence w); exact Hic.
  - destruct (startsLine f w && negb (appliedFirstList f)); assumption.
  - destruct (endsSentence w); reflexivity.
  - destruct (endsSentence w); reflexivity.
Qed.

(** An invariant of the word loop is kept by the whole loop. *)
Lemma wordLoop_invariant (I : fmtState -> gostring -> Prop) (qp : gostring)
    (words : list gostring) :
  (forall f lp w, In w words -> I f lp ->
                  I (fst (processWord f qp lp w)) (snd (processWord f qp lp w))) ->
  forall f lp, I f lp -> exists lp', I (wordLoop f qp lp words) lp'.
Proof.
  induction words as [|w words IH]; intros Hstep f lp HI.
  - exists lp. exact HI.
  - cbn [wordLoop].
    pose proof (Hstep f lp w (or_introl eq_refl) HI) as H1.
    destruct (processWord f qp lp w) as [f1 lp1]. cbn [fst snd] in H1.
    apply IH; [|exact H1].
    intros f0 lp0 w0 Hin. apply Hstep. right. exact Hin.
Qed.

Lemma wordLoop_wf (f : fmtState) (qp lp : gostring) (words : list gostring) :
  wf f -> inCode f = false -> isAscii qp -> isAscii lp ->
  wf (wordLoop f qp lp words)
  /\ inCode (wordLoop f qp lp words) = false
  /\ list_ (wordLoop f qp lp words) = list_ f.
Proof.
  intros H Hic Hq Hl.
  destruct (wordLoop_invariant
              (fun g p => wf g /\ inCode g = false /\ isAscii p
                          /\ list_ g = list_ f)
              qp words) with (f := f) (lp := lp) as (lp' & H1 & H2 & _ & H3).
  - intros g p w _ (Hg & Hgc & Hp & Hgl).
    destruct (processWord_wf g qp p w Hg Hgc Hq Hp) as (A & B & C & D & _).
    split; [exact A|split; [exact B|split; [exact C|congruence]]].
  - auto.
  - auto.
Qed.

(** *** The quote scan *)

Lemma bytesOf_cons_length (c : chunk) (cs : list chunk) :
  length (bytesOf (c :: cs)) = (length (snd c) + length (bytesOf cs))%nat.
Proof. unfold bytesOf. cbn [map concat]. apply length_app. Qed.

Lemma goodChunk_width (c : chunk) : goodChunk c -> (1 <= length (snd c))%nat.
Proof.
  intros H. pose proof (good_nonempty c H). destruct (snd c); [congruence|].
  cbn [length]. lia.
Qed.

(** The consumed length never exceeds the bytes scanned so far. *)
Lemma quoteLoop_bytes (cs : list chunk) :
  Forall goodChunk cs ->
  forall bytes consumed depth len,
    0 <= depth -> 0 <= len <= bytes ->
    0 <= fst (quoteLoop (map fst cs) bytes consumed depth len)
    /\ 0 <= snd (quoteLoop (map fst cs) bytes consumed depth len)
         <= bytes + Z.of_nat (length (bytesOf cs)).
Proof.
  induction 1 as [|c cs Hc _ IH]; intros bytes consumed depth len Hd Hl.
  - cbn. lia.
  - cbn [map quoteLoop]. rewrite bytesOf_cons_length.
    pose proof (goodChunk_width c Hc) as Hw.
    destruct (IsSpace (fst c)) eqn:Es.
    + rewrite (space_RuneLen _ _ (good_range c Hc) Es).
      destruct (negb consumed).
      * specialize (IH (bytes + Z.of_nat (length (snd c))) true depth
                       (bytes + Z.of_nat (length (snd c)))).
        lia.
      * specialize (IH (bytes + Z.of_nat (length (snd c))) consumed depth len).
        lia.
    + destruct (fst c =? 0x3E).
      * specialize (IH (bytes + 1) false (depth + 1) (bytes + 1)). lia.
      * cbn [fst snd]. lia.
Qed.

(** The slice that strips the quote prefix never panics. *)
Lemma quote_slice (line : gostring) :
  sliceFrom line (snd (countQuoteDepth line))
  = Some (skipn (Z.to_nat (snd (countQuoteDepth line))) line).
Proof.
  unfold countQuoteDepth, runes.
  pose proof (quoteLoop_bytes (chunks line) (chunks_good line) 0 true 0 0) as H.
  rewrite bytesOf_chunks in H. unfold sliceFrom.
  destruct (quoteLoop (map fst (chunks line)) 0 true 0 0) as [d l].
  cbn [fst snd] in *.
  destruct ((0 <=? l) && (l <=? Z.of_nat (length line))) eqn:E;
    [reflexivity|lia].
Qed.

Lemma quoteLoop_depth_mono (rs : list Z) : forall bytes consumed depth len,
  depth <= fst (quoteLoop rs bytes consumed depth len).
Proof.
  induction rs as [|r rs IH]; intros bytes consumed depth len; cbn [quoteLoop].
  - cbn. lia.
  - destruct (IsSpace r).
    + destruct (negb consumed); apply IH.
    + destruct (r =? 0x3E); [|cbn; lia].
      specialize (IH (bytes + 1) false (depth + 1) (bytes + 1)). lia.
Qed.

(** A line without quote markers has nothing stripped. *)
Lemma quoteLoop_unquoted (rs : list Z) : forall bytes depth len,
  fst (quoteLoop rs bytes true depth len) = depth ->
  snd (quoteLoop rs bytes true depth len) = len.
Proof.
  induction rs as [|r rs IH]; intros bytes depth len; cbn [quoteLoop].
  - reflexivity.
  - destruct (IsSpace r); cbn [negb].
    + apply IH.
    + destruct (r =? 0x3E); [|reflexivity].
      pose proof (quoteLoop_depth_mono rs (bytes + 1) false (depth + 1)
                    (bytes + 1)). lia.
Qed.

Lemma countQuoteDepth_unquoted (line : gostring) :
  fst (countQuoteDepth line) = 0 -> snd (countQuoteDepth line) = 0.
Proof. apply quoteLoop_unquoted. Qed.

(** *** The list scan *)

(** [countListIndent] reads only the runes from its position on: the loop
    without the index. *)
Fixpoint listTail (rest : list Z) (l : listState) : listState :=
  match rest with
  | [] => l
  | r :: rest' =>
    if IsSpace r then
      listTail rest'
        (mkListState (typ l) (indent l + 1) (indentBytes l + utf8.RuneLen r))
    else if IsDigit r then
      match rest' with
      | r1 :: r2 :: _ =>
        if (r1 =? 0x2E) && IsSpace r2
        then mkListState numList (indent l) (indentBytes l) else l
      | _ => l
      end
    else if r =? 0x2A then mkListState bulletList (indent l) (indentBytes l)
    else l
  end.

Lemma listLoop_listTail (rest : list Z) : forall pre l,
  listLoop (pre ++ rest) (length pre) rest l = listTail rest l.
Proof.
  induction rest as [|r rest IH]; intros pre l; [reflexivity|].
  cbn [listLoop listTail].
  destruct (IsSpace r).
  - specialize (IH (pre ++ [r])). rewrite <- app_assoc in IH. cbn [app] in IH.
    rewrite length_app in IH. cbn [length] in IH.
    rewrite Nat.add_1_r in IH. apply IH.
  - destruct (IsDigit r); [|reflexivity].
    rewrite length_app.
    destruct rest as [|r1 [|r2 rest]]; cbn [length];
      match goal with
      | |- context [(?a <=? ?b)%nat] => destruct (Nat.leb_spec a b)
      end; try reflexivity; try lia.
    rewrite !app_nth2 by lia.
    replace (length pre + 1 - length pre)%nat with 1%nat by lia.
    replace (length pre + 2 - length pre)%nat with 2%nat by lia.
    reflexivity.
Qed.

Lemma countListIndent_listTail (line : gostring) :
  countListIndent line = listTail (runes line) zeroListState.
Proof. apply (listLoop_listTail (runes line) []). Qed.

(** The scan counts the leading spaces and looks at the runes after them. *)
Lemma listTail_spaces (ws rest : list Z) : forall l,
  Forall (fun r => IsSpace r = true) ws ->
  listTail (ws ++ rest) l
  = listTail rest
      (mkListState (typ l) (indent l + Z.of_nat (length ws))
         (indentBytes l + fold_right (fun r n => utf8.RuneLen r + n) 0 ws)).
Proof.
  induction ws as [|w ws IH]; intros l Hws.
  - cbn [app length fold_right]. destruct l. cbn. rewrite !Z.add_0_r. reflexivity.
  - inversion Hws as [|? ? Hw Hws']; subst.
    cbn [app listTail]. rewrite Hw. rewrite (IH _ Hws').
    cbn [typ indent indentBytes length fold_right]. f_equal. f_equal; lia.
Qed.

(** Byte accounting: the list marker lies within the line. *)
Lemma listTail_bytes (cs : list chunk) :
  Forall goodChunk cs ->
  forall l, typ l = noList -> 0 <= indentBytes l -> 0 <= indent l ->
    0 <= indentBytes (listTail (map fst cs) l)
    /\ 0 <= indent (listTail (map fst cs) l)
    /\ indentBytes (listTail (map fst cs) l)
       + Z.of_nat (length (symbol (typ (listTail (map fst cs) l))))
       <= indentBytes l + Z.of_nat (length (bytesOf cs)).
Proof.
  induction 1 as [|c cs Hc Hcs IH]; intros l Ht Hb Hi.
  - cbn. rewrite Ht. cbn. lia.
  - cbn [map listTail]. rewrite bytesOf_cons_length.
    pose proof (goodChunk_width c Hc) as Hw.
    destruct (IsSpace (fst c)) eqn:Es.
    + rewrite (space_RuneLen _ _ (good_range c Hc) Es).
      specialize (IH (mkListState (typ l) (indent l + 1)
                        (indentBytes l + Z.of_nat (length (snd c))))
                     Ht ltac:(cbn; lia) ltac:(cbn; lia)).
      cbn [typ indent indentBytes] in IH. lia.
    + destruct (IsDigit (fst c)).
      * destruct cs as [|c1 [|c2 cs]]; cbn [map]; try (rewrite Ht; cbn; lia).
        destruct ((fst c1 =? 0x2E) && IsSpace (fst c2));
          [|rewrite Ht; cbn; lia].
        cbn [typ indent indentBytes symbol].
        inversion Hcs as [|? ? Hc1 Hcs']; subst.
        pose proof (goodChunk_width c1 Hc1).
        rewrite bytesOf_cons_length. change (length (str "1.")) with 2%nat. lia.
      * destruct (fst c =? 0x2A).
        -- cbn [typ indent indentBytes symbol].
           change (length (str "*")) with 1%nat. lia.
        -- rewrite Ht. cbn. lia.
Qed.

Lemma countListIndent_bytes (line : gostring) :
  0 <= indentBytes (countListIndent line)
  /\ 0 <= indent (countListIndent line)
  /\ indentBytes (countListIndent line)
     + Z.of_nat (length (symbol (typ (countListIndent line))))
     <= Z.of_nat (length line).
Proof.
  rewrite countListIndent_listTail. unfold runes.
  pose proof (listTail_bytes (chunks line) (chunks_good line) zeroListState
                eq_refl ltac:(cbn; lia) ltac:(cbn; lia)) as H.
  rewrite bytesOf_chunks in H. cbn [indentBytes zeroListState] in H.
  exact H.
Qed.

(** *** One line *)

(** The classification of a line by the head of the loop body. *)
Definition isFence (line : gostring) : bool :=
  HasPrefix (TrimSpace line) (str "```").

Definition isBlank (line : gostring) : bool :=
  (length (TrimSpace line) =? 0)%nat.

Lemma TrimRight_TrimSpace (line : gostring) :
  TrimRightFunc (TrimSpace line) IsSpace = TrimSpace line.
Proof. apply TrimRight_idem. Qed.

Lemma flushLine_writeToLine (f : fmtState) (s : gostring) :
  flushLine (writeToLine f s)
  = mkFmtState (charsPerLine f) [] 0 (inCode f) (list_ f) (appliedFirstList f)
      (listPrefixFirst f) (listPrefixRest f)
      (mkWriter (emitted f ++ [TrimRightFunc (newLine f ++ s) IsSpace])
         (wfail (out f))).
Proof. reflexivity. Qed.

Lemma setListState_zero_eq (f : fmtState) :
  setListState f zeroListState
  = mkFmtState (charsPerLine f) (newLine f) (newLineRunes f) (inCode f)
      zeroListState (appliedFirstList f) [] [] (out f).
Proof. reflexivity. Qed.

Lemma setListState_list_eq (f : fmtState) (l : listState) :
  typ l <> noList ->
  setListState f l
  = mkFmtState (charsPerLine f) (newLine f) (newLineRunes f) (inCode f)
      l false
      (Repeat (str " ") (indent l) ++ symbol (typ l) ++ str " ")
      (Repeat (str " ") (indent l + lrunes (typ l) + 1))
      (out f).
Proof.
  intros H. unfold setListState. apply listType_neqb in H. rewrite H.
  reflexivity.
Qed.

(** The list classification changes the list state: a marker starts an
    item, or an active list ends at a line with another indent. *)
Definition listStarts (newList : listState) : bool :=
  negb (listType_eqb (typ newList) noList).

Definition listEnds (f : fmtState) (newList : listState) : bool :=
  listType_eqb (typ newList) noList
  && negb (listType_eqb (typ (list_ f)) noList)
  && negb (indent newList =? indent (list_ f) + lrunes (typ (list_ f)) + 1).

Lemma updateList_start (f : fmtState) (newList : listState) :
  listStarts newList = true ->
  updateList f newList = setListState (flushPending f) newList.
Proof. unfold updateList, listStarts. intros ->. reflexivity. Qed.

Lemma updateList_end (f : fmtState) (newList : listState) :
  listEnds f newList = true ->
  updateList f newList = setListState (flushPending f) zeroListState.
Proof.
  unfold updateList, listEnds. intros H.
  apply andb_true_iff in H. destruct H as [H H3].
  apply andb_true_iff in H. destruct H as [H1 H2].
  rewrite H1, H2, H3. reflexivity.
Qed.

Lemma updateList_keep (f : fmtState) (newList : listState) :
  listStarts newList = false -> listEnds f newList = false ->
  updateList f newList = f.
Proof.
  unfold updateList, listStarts, listEnds. intros H1 H2. rewrite H1.
  apply negb_false_iff in H1. rewrite H1 in H2. cbn [andb] in H2.
  rewrite H2. reflexivity.
Qed.

Lemma updateList_wf (f : fmtState) (newList : listState) :
  wf f -> inCode f = false ->
  wf (updateList f newList) /\ inCode (updateList f newList) = false.
Proof.
  intros H Hic.
  destruct (listStarts newList) eqn:Es.
  - rewrite (updateList_start f newList Es).
    assert (Ht : typ newList <> noList) by (apply listType_neqb; exact Es).
    split.
    + apply wf_setListState_list; [apply wf_flushPending, H| |exact Ht].
      rewrite flushPending_inCode. exact Hic.
    + rewrite setListState_list_eq by exact Ht. cbn [inCode].
      rewrite flushPending_inCode. exact Hic.
  - destruct (listEnds f newList) eqn:Ee.
    + rewrite (updateList_end f newList Ee). split.
      * apply wf_setListState_zero, wf_flushPending, H.
      * rewrite setListState_zero_eq. cbn [inCode].
        rewrite flushPending_inCode. exact Hic.
    + rewrite (updateList_keep f newList Es Ee). auto.
Qed.

(** The list prefix chosen for the words of a line. *)
Definition chosenPrefix (f : fmtState) (newList : listState) : gostring :=
  if negb (listType_eqb (typ (list_ f)) noList) then
    if negb (listType_eqb (typ newList) noList)
    then listPrefixFirst f else listPrefixRest f
  else [].

Lemma chosenPrefix_ascii (f : fmtState) (newList : listState) :
  wf f -> isAscii (chosenPrefix f newList).
Proof.
  intros H. unfold chosenPrefix.
  destruct (negb (listType_eqb (typ (list_ f)) noList)); [|constructor].
  destruct (negb (listType_eqb (typ newList) noList));
    [apply (wf_first f H)|apply (wf_rest f H)].
Qed.

(** [reflowLine] with its intermediate values named. *)
Lemma reflowLine_eq (f : fmtState) (line : gostring) :
  reflowLine f line =
  (rest <- sliceFrom line (snd (countQuoteDepth line)) ;;
   let f1 := updateList f (countListIndent rest) in
   content <- sliceFrom rest
                (indentBytes (list_ f1)
                 + Z.of_nat (length (symbol (typ (list_ f1))))) ;;
   Some (wordLoop f1 (Repeat (str "> ") (fst (countQuoteDepth line)))
           (chosenPrefix f1 (countListIndent rest)) (ScanWords content))).
Proof.
  unfold reflowLine, chosenPrefix.
  destruct (countQuoteDepth line) as [d l]. reflexivity.
Qed.

Lemma reflowLine_wf (f f' : fmtState) (line : gostring) :
  wf f -> inCode f = false -> reflowLine f line = Some f' ->
  wf f' /\ inCode f' = false.
Proof.
  intros H Hic. rewrite reflowLine_eq.
  destruct (sliceFrom line (snd (countQuoteDepth line))) as [rest|];
    [|discriminate].
  cbn zeta.
  destruct (updateList_wf f (countListIndent rest) H Hic) as [H1 Hic1].
  set (f1 := updateList f (countListIndent rest)) in *.
  destruct (sliceFrom rest _) as [content|]; [|discriminate].
  intros E. injection E as <-.
  destruct (wordLoop_wf f1 (Repeat (str "> ") (fst (countQuoteDepth line)))
              (chosenPrefix f1 (countListIndent rest)) (ScanWords content)
              H1 Hic1 (isAscii_quotePrefix _) (chosenPrefix_ascii _ _ H1))
    as (A & B & _).
  auto.
Qed.

Lemma processLine_wf (f f' : fmtState) (line : gostring) :
  wf f -> processLine f line = Some f' -> wf f'.
Proof.
  intros H. unfold processLine.
  destruct (HasPrefix (TrimSpace line) (str "```")).
  { intros E. injection E as <-. rewrite flushLine_writeToLine.
    destruct (inCode f) eqn:Hic; cbn [negb].
    - destruct H as [Hc Ht Hcode Hno Hf Hr].
      split; cbn; auto; try (left; reflexivity).
      rewrite Hic. discriminate.
    - rewrite setListState_zero_eq. cbn.
      pose proof (wf_flushPending f H) as [Hc Ht Hcode Hno Hf Hr].
      split; cbn; auto; try (left; reflexivity); try (constructor; fail). }
  destruct (length (TrimSpace line) =? 0)%nat.
  { intros E. injection E as <-.
    apply wf_flushLine, wf_setListState_zero, wf_flushPending, H. }
  destruct (inCode f) eqn:Hic.
  { intros E. injection E as <-. rewrite flushLine_writeToLine.
    destruct H as [Hc Ht Hcode Hno Hf Hr].
    split; cbn; auto; try (left; reflexivity).
    intros _. split; [reflexivity|]. apply Hcode, Hic. }
  intros E. apply (reflowLine_wf f f' line H Hic E).
Qed.

Lemma lineLoop_wf (lines : list gostring) : forall f f',
  wf f -> lineLoop f lines = Some f' -> wf f'.
Proof.
  induction lines as [|line lines IH]; intros f f' H; cbn [lineLoop].
  - intros E. injection E as <-. exact H.
  - destruct (processLine f line) as [f1|] eqn:E1; [|discriminate].
    apply IH. exact (processLine_wf f f1 line H E1).
Qed.

(** The states the engine goes through: those the line loop reaches from
    the initial state, each between two input lines. *)
Definition reachable (f : fmtState) : Prop :=
  exists width o lines, lineLoop (newFmtState width o) lines = Some f.

Lemma reachable_wf (f : fmtState) : reachable f -> wf f.
Proof.
  intros (width & o & lines & H).
  exact (lineLoop_wf lines _ _ (wf_new width o) H).
Qed.

Lemma lineLoop_app (a b : list gostring) (f : fmtState) :
  lineLoop f (a ++ b) = (f' <- lineLoop f a ;; lineLoop f' b).
Proof.
  revert f. induction a as [|x a IH]; intros f; cbn [app lineLoop].
  - reflexivity.
  - destruct (processLine f x); [apply IH|reflexivity].
Qed.

Lemma reachable_step (f f' : fmtState) (line : gostring) :
  reachable f -> processLine f line = Some f' -> reachable f'.
Proof.
  intros (width & o & lines & H) E.
  exists width, o, (lines ++ [line]).
  rewrite lineLoop_app, H. cbn [lineLoop]. rewrite E. reflexivity.
Qed.

(** ** Sentence ends *)

Lemma bytes_eqb_eq (a b : gostring) : bytes_eqb a b = true <-> a = b.
Proof.
  revert b. induction a as [|x a IH]; intros [|y b]; cbn [bytes_eqb];
    try (split; [discriminate|congruence]); try tauto.
  rewrite andb_true_iff, IH. split.
  - intros [H ->]. apply Byte.byte_dec_bl in H. congruence.
  - intros H. injection H as -> ->. split; [apply Byte.byte_dec_lb|]; reflexivity.
Qed.

(** [s] ends with [suffix], byte for byte. *)
Definition endsWith (s suffix : gostring) : Prop := exists p, s = p ++ suffix.

Lemma HasSuffix_endsWith (s suffix : gostring) :
  HasSuffix s suffix = true <-> endsWith s suffix.
Proof.
  unfold HasSuffix, endsWith. rewrite andb_true_iff, bytes_eqb_eq, Nat.leb_le.
  split.
  - intros [Hl H]. exists (firstn (length s - length suffix) s).
    pose proof (firstn_skipn (length s - length suffix) s) as E.
    rewrite H in E. symmetry. exact E.
  - intros [p ->]. rewrite length_app. split; [lia|].
    replace (length p + length suffix - length suffix)%nat
      with (length p + 0)%nat by lia.
    rewrite skipn_app, Nat.add_0_r, skipn_all.
    replace (length p - length p)%nat with 0%nat by lia. reflexivity.
Qed.

Lemma HasSuffix_false (s suffix : gostring) :
  HasSuffix s suffix = false <-> ~ endsWith s suffix.
Proof.
  rewrite <- HasSuffix_endsWith. destruct (HasSuffix s suffix); split;
    congruence.
Qed.

(** C3: a word ends a sentence exactly when it ends with a period, a period
    and a double quote, or a period and a single quote, and does not end
    with one of the abbreviations e.g., vs., i.e. (compared byte for byte,
    so in this case only); the abbreviations win over the period. *)
Theorem endsSentence_spec :
  (forall word : gostring,
     endsSentence word = true <->
     (endsWith word (str ".") \/ endsWith word [x2e; x22]
      \/ endsWith word (str ".'"))
     /\ ~ endsWith word (str "e.g.")
     /\ ~ endsWith word (str "vs.")
     /\ ~ endsWith word (str "i.e."))
  /\ (forall p : gostring,
        endsSentence (p ++ str "e.g.") = false
        /\ endsSentence (p ++ str "vs.") = false
        /\ endsSentence (p ++ str "i.e.") = false)
  /\ endsSentence (str "E.g.") = true
  /\ endsSentence (str "Vs.") = true
  /\ endsSentence (str "I.E.") = true.
Proof.
  assert (Hiff : forall word : gostring,
     endsSentence word = true <->
     (endsWith word (str ".") \/ endsWith word [x2e; x22]
      \/ endsWith word (str ".'"))
     /\ ~ endsWith word (str "e.g.")
     /\ ~ endsWith word (str "vs.")
     /\ ~ endsWith word (str "i.e.")).
  { intros word. unfold endsSentence.
    rewrite !andb_true_iff, !orb_true_iff, !negb_true_iff.
    rewrite !HasSuffix_endsWith, !HasSuffix_false. tauto. }
  split; [exact Hiff|]. split; [|repeat split; reflexivity].
  intros p.
  assert (Hno : forall a, endsWith (p ++ a) a) by (intros a; exists p; reflexivity).
  repeat split;
    match goal with
    | |- endsSentence ?w = false =>
      destruct (endsSentence w) eqn:E; [|reflexivity];
      apply Hiff in E; destruct E as (_ & H1 & H2 & H3)
    end.
  - destruct (H1 (Hno _)).
  - destruct (H2 (Hno _)).
  - destruct (H3 (Hno _)).
Qed.

(** ** Numbered list markers *)

(** The two runes after the digit are a period and a space. *)
Definition markerFollows (rest : list Z) : bool :=
  match rest with
  | r1 :: r2 :: _ => (r1 =? 0x2E) && IsSpace r2
  | _ => false
  end.

(** The sum of [RuneLen] over the leading spaces. *)
Definition runeBytes (rs : list Z) : Z :=
  fold_right (fun r n => utf8.RuneLen r + n) 0 rs.

(** C10: on a line whose first non-space rune is a digit, the list scan
    reports a numbered list only when that single digit is directly
    followed by a period and a space; otherwise no list; in both cases the
    indent is the number of leading spaces (and their bytes).  A marker of
    two digits is no list. *)
Theorem countListIndent_digit :
  (forall (line : gostring) (ws : list Z) (d : Z) (rest : list Z),
     runes line = ws ++ d :: rest ->
     Forall (fun r => IsSpace r = true) ws ->
     IsSpace d = false ->
     IsDigit d = true ->
     countListIndent line
     = mkListState (if markerFollows rest then numList else noList)
         (Z.of_nat (length ws)) (runeBytes ws)
     /\ (typ (countListIndent line) = numList <->
         exists s tail, rest = 0x2E :: s :: tail /\ IsSpace s = true))
  /\ countListIndent (str "12. item") = mkListState noList 0 0
  /\ countListIndent (str "  12. item") = mkListState noList 2 2
  /\ countListIndent (str "  1. item") = mkListState numList 2 2.
Proof.
  split; [|repeat split; reflexivity].
  intros line ws d rest Hr Hws Hd Hdig.
  assert (E : countListIndent line
              = mkListState (if markerFollows rest then numList else noList)
                  (Z.of_nat (length ws)) (runeBytes ws)).
  { rewrite countListIndent_listTail, Hr, (listTail_spaces ws _ _ Hws).
    cbn [listTail typ indent indentBytes zeroListState]. rewrite Hd, Hdig.
    unfold markerFollows, runeBytes.
    destruct rest as [|r1 [|r2 rest]]; try reflexivity.
    destruct ((r1 =? 0x2E) && IsSpace r2); reflexivity. }
  split; [exact E|]. rewrite E. cbn [typ]. unfold markerFollows. split.
  - destruct rest as [|r1 [|r2 rest]]; try discriminate.
    destruct ((r1 =? 0x2E) && IsSpace r2) eqn:Em; [|discriminate].
    apply andb_true_iff in Em. destruct Em as [E1 E2].
    apply Z.eqb_eq in E1. subst r1. intros _. exists r2, rest. auto.
  - intros (s & tail & -> & Hs). rewrite Hs. reflexivity.
Qed.

(** ** Code fences and code lines *)

Lemma reachable_codeEmpty (f : fmtState) :
  reachable f -> inCode f = true -> newLine f = [] /\ typ (list_ f) = noList.
Proof. intros H. apply (wf_code f (reachable_wf f H)). Qed.

Lemma pendingLine_pending (f : fmtState) :
  wf f -> newLine f <> [] ->
  pendingLine f = [TrimRightFunc (newLine f) IsSpace].
Proof.
  intros H Hn. unfold pendingLine.
  destruct (newLineRunes f =? 0) eqn:E; [|reflexivity].
  apply Z.eqb_eq in E. destruct (wf_pending f H Hn E).
Qed.

Lemma pendingLine_empty (f : fmtState) :
  wf f -> newLine f = [] -> pendingLine f = [].
Proof.
  intros H Hn. unfold pendingLine.
  rewrite (wf_count f H), Hn. reflexivity.
Qed.

(** What [processLine] does on a fence line. *)
Lemma fence_step (f : fmtState) (line : gostring) :
  wf f -> isFence line = true ->
  exists f',
    processLine f line = Some f'
    /\ inCode f' = negb (inCode f)
    /\ newLine f' = []
    /\ emitted f'
       = emitted f ++ (if inCode f then [] else pendingLine f)
           ++ [TrimSpace line]
    /\ (inCode f = false ->
        list_ f' = zeroListState
        /\ listPrefixFirst f' = [] /\ listPrefixRest f' = []).
Proof.
  intros H Hfence. unfold isFence in Hfence. unfold processLine.
  rewrite Hfence. eexists. split; [reflexivity|].
  rewrite flushLine_writeToLine.
  destruct (inCode f) eqn:Hic; cbn [negb].
  - destruct (wf_code f H Hic) as [Hn _].
    cbn [inCode newLine emitted out wlog setInCode]. rewrite Hic, Hn.
    cbn [app negb]. rewrite TrimRight_TrimSpace.
    repeat split; try reflexivity; discriminate.
  - rewrite setListState_zero_eq. unfold setInCode, emitted.
    cbn [inCode newLine out wlog list_ listPrefixFirst listPrefixRest].
    rewrite flushPending_inCode, Hic, (flushPending_empty f H).
    cbn [app negb]. rewrite TrimRight_TrimSpace.
    fold (emitted (flushPending f)). rewrite flushPending_emitted.
    repeat split; try reflexivity. rewrite <- app_assoc. reflexivity.
Qed.

(** C5 (as amended): on a line whose trimmed content starts with three
    backticks the code flag is toggled; when the flag was off, the pending
    buffer is flushed first and the list state is reset; in both directions
    the fence is written as a line of its own, and what is written is the
    line with its leading and trailing whitespace removed. *)
Theorem fence_toggles (f : fmtState) (line : gostring) :
  reachable f -> isFence line = true ->
  exists f',
    processLine f line = Some f'
    /\ inCode f' = negb (inCode f)
    /\ newLine f' = []
    /\ (inCode f = false ->
        emitted f' = emitted f ++ pendingLine f ++ [TrimSpace line]
        /\ (newLine f <> [] ->
            pendingLine f = [TrimRightFunc (newLine f) IsSpace])
        /\ list_ f' = zeroListState
        /\ listPrefixFirst f' = [] /\ listPrefixRest f' = [])
    /\ (inCode f = true ->
        emitted f' = emitted f ++ [TrimSpace line]).
Proof.
  intros Hr Hfence. pose proof (reachable_wf f Hr) as H.
  destruct (fence_step f line H Hfence) as (f' & E & Hic & Hn & Hem & Hl).
  exists f'. split; [exact E|]. split; [exact Hic|]. split; [exact Hn|].
  split; intros Hc; rewrite Hc in Hem.
  - split; [exact Hem|]. split; [apply (pendingLine_pending f H)|].
    exact (Hl Hc).
  - exact Hem.
Qed.

(** What the right trim removes is a run of spaces at the end. *)
Lemma TrimRight_split (s : gostring) :
  exists t, s = TrimRightFunc s IsSpace ++ t
            /\ Forall (fun r => IsSpace r = true) (runes t).
Proof.
  destruct (dropWhileChunk_split IsSpace (rev (chunks s))) as (d & Hd & Hall & _).
  assert (Hs : chunks s = rev (dropWhileChunk IsSpace (rev (chunks s))) ++ rev d).
  { rewrite <- rev_app_distr, <- Hd, rev_involutive. reflexivity. }
  exists (bytesOf (rev d)). split.
  - unfold TrimRightFunc. rewrite <- bytesOf_app, <- Hs, bytesOf_chunks.
    reflexivity.
  - unfold runes. rewrite (chunks_suffix _ _ s Hs).
    apply Forall_map, Forall_rev. exact Hall.
Qed.

(** What the code branch does: inside a code block, a line that is neither
    a fence nor blank is written as a line of its own, without its trailing
    whitespace; nothing is reflowed and the quote and list state are left as
    they were. *)
Lemma code_line_written (f : fmtState) (line : gostring) :
  reachable f -> inCode f = true ->
  isFence line = false -> isBlank line = false ->
  exists f',
    processLine f line = Some f'
    /\ emitted f' = emitted f ++ [TrimRightFunc line IsSpace]
    /\ (exists t, line = TrimRightFunc line IsSpace ++ t
                  /\ Forall (fun r => IsSpace r = true) (runes t))
    /\ newLine f' = [] /\ newLine f = []
    /\ inCode f' = true
    /\ list_ f' = list_ f
    /\ appliedFirstList f' = appliedFirstList f
    /\ listPrefixFirst f' = listPrefixFirst f
    /\ listPrefixRest f' = listPrefixRest f.
Proof.
  intros Hr Hic Hf Hb.
  destruct (reachable_codeEmpty f Hr Hic) as [Hn _].
  unfold isFence in Hf. unfold isBlank in Hb. unfold processLine.
  rewrite Hf, Hb, Hic. eexists. split; [reflexivity|].
  rewrite flushLine_writeToLine. cbn. rewrite Hn. cbn [app].
  repeat split; try reflexivity; try assumption.
  apply TrimRight_split.
Qed.

(** ** Prefixes of the lines of one input line *)

(** The first line begins with [first], every later line with [later]. *)
Definition prefixShape (first later : gostring) (ls : list gostring) : Prop :=
  match ls with
  | [] => True
  | l :: ls' => prefixedBy first l /\ Forall (prefixedBy later) ls'
  end.

Lemma prefixShape_snoc (first later : gostring) (ls : list gostring)
    (x : gostring) :
  prefixShape first later ls ->
  prefixedBy (match ls with [] => first | _ => later end) x ->
  prefixShape first later (ls ++ [x]).
Proof.
  destruct ls as [|l ls]; cbn [app prefixShape].
  - intros _ Hx. split; [exact Hx|constructor].
  - intros [Hl Hls] Hx. split; [exact Hl|].
    apply Forall_app. split; [exact Hls|]. constructor; [exact Hx|constructor].
Qed.

Section WordLoopPrefix.

Variables (f0 : fmtState) (qp lp0 : gostring).
Hypothesis wf0 : wf f0.
Hypothesis prose0 : inCode f0 = false.
Hypothesis empty0 : newLine f0 = [].
Hypothesis ascii_qp : isAscii qp.
Hypothesis ascii_lp0 : isAscii lp0.

(** The list prefix of the output lines after the first. *)
Definition laterPrefix : gostring :=
  if appliedFirstList f0 then lp0 else listPrefixRest f0.

Definition nextPrefix (done : list gostring) : gostring :=
  qp ++ match done with [] => lp0 | _ => laterPrefix end.

Lemma nextPrefix_match (done : list gostring) :
  match done with [] => qp ++ lp0 | _ => qp ++ laterPrefix end
  = nextPrefix done.
Proof. destruct done; reflexivity. Qed.

(** The state of the word loop: [done] are the lines written so far for
    this input line; [started] tells whether a word has been appended. *)
Definition loopInv (started : bool) (g : fmtState) (p : gostring) : Prop :=
  wf g /\ inCode g = false /\ listPrefixRest g = listPrefixRest f0
  /\ exists done,
       emitted g = emitted f0 ++ done
       /\ prefixShape (qp ++ lp0) (qp ++ laterPrefix) done
       /\ ((started = false /\ done = [] /\ newLine g = [] /\ p = lp0
            /\ appliedFirstList g = appliedFirstList f0)
           \/ (p = laterPrefix /\ appliedFirstList g = true
               /\ (newLine g = [] -> done <> [])
               /\ (newLine g <> [] -> prefixedBy (nextPrefix done) (newLine g)))).

Lemma laterPrefix_ascii : isAscii laterPrefix.
Proof.
  unfold laterPrefix. destruct (appliedFirstList f0);
    [exact ascii_lp0|exact (wf_rest f0 wf0)].
Qed.

Lemma loopInv_start : loopInv false f0 lp0.
Proof.
  split; [exact wf0|]. split; [exact prose0|]. split; [reflexivity|].
  exists []. rewrite app_nil_r. split; [reflexivity|]. split; [exact I|].
  left. auto.
Qed.

Lemma overflows_pending (g : fmtState) (w : gostring) :
  wf g -> overflows g w = true -> newLine g <> [].
Proof.
  intros Hg Ho Hn. unfold overflows in Ho.
  rewrite (wf_count g Hg), Hn in Ho. discriminate Ho.
Qed.

Lemma startsLine_false (g : fmtState) (w : gostring) :
  wf g -> startsLine g w = false ->
  newLine g <> [] /\ overflows g w = false.
Proof.
  intros Hg Hs. unfold startsLine in Hs. apply orb_false_iff in Hs.
  destruct Hs as [Hn Ho]. split; [|exact Ho].
  intros E. rewrite (wf_count g Hg), E in Hn. discriminate Hn.
Qed.

Lemma startsLine_true (g : fmtState) (w : gostring) :
  wf g -> startsLine g w = true ->
  (newLine g = [] /\ overflows g w = false) \/ overflows g w = true.
Proof.
  intros Hg Hs. unfold startsLine in Hs.
  destruct (overflows g w) eqn:Ho; [right; reflexivity|left].
  rewrite orb_false_r in Hs. apply Z.eqb_eq in Hs.
  split; [exact (wf_empty g Hg Hs)|reflexivity].
Qed.

Lemma loopInv_step (st : bool) (g : fmtState) (p w : gostring) :
  isWord w -> loopInv st g p ->
  loopInv true (fst (processWord g qp p w)) (snd (processWord g qp p w)).
Proof.
  intros Hw (Hg & Hic & Hrest & done & Hem & Hshape & Hcase).
  assert (Hp : isAscii p).
  { destruct Hcase as [(_ & _ & _ & -> & _)|(-> & _)];
      [exact ascii_lp0|exact laterPrefix_ascii]. }
  destruct (processWord_wf g qp p w Hg Hic ascii_qp Hp)
    as (Hg' & Hic' & _ & _ & Hrest').
  split; [exact Hg'|]. split; [exact Hic'|].
  split; [congruence|].
  clear Hg' Hic' Hrest'.
  rewrite (processWord_eq g qp p w (wf_empty g Hg)). cbn zeta. cbn [fst snd].
  (* the lines written before the word is appended *)
  set (done1 := done ++ (if overflows g w
                         then [TrimRightFunc (newLine g) IsSpace] else [])).
  assert (Hlog : logBefore g w = emitted f0 ++ done1).
  { unfold logBefore, done1. rewrite Hem, app_assoc. reflexivity. }
  assert (Hshape1 : prefixShape (qp ++ lp0) (qp ++ laterPrefix) done1).
  { unfold done1. destruct (overflows g w) eqn:Ho; [|rewrite app_nil_r; exact Hshape].
    pose proof (overflows_pending g w Hg Ho) as Hn.
    apply prefixShape_snoc; [exact Hshape|].
    rewrite nextPrefix_match. apply prefixedBy_TrimRight.
    destruct Hcase as [(_ & _ & E & _)|(_ & _ & _ & Hb)];
      [congruence|exact (Hb Hn)]. }
  (* the line the word is appended to *)
  assert (Hline : prefixedBy (nextPrefix done1) (lineBase g qp p w ++ w)
                  /\ (startsLine g w = false -> appliedFirstList g = true)
                  /\ (if startsLine g w && negb (appliedFirstList g)
                      then listPrefixRest g else p) = laterPrefix).
  { unfold lineBase. destruct (startsLine g w) eqn:Hs.
    - assert (Hpre : qp ++ p = nextPrefix done1
                     /\ (if negb (appliedFirstList g) then listPrefixRest g else p)
                        = laterPrefix).
      { destruct Hcase as [(_ & -> & Hn & -> & Ha)|(-> & Ha & Hd & _)].
        - assert (Ho : overflows g w = false).
          { destruct (overflows g w) eqn:Ho; [|reflexivity].
            destruct (overflows_pending g w Hg Ho Hn). }
          unfold done1. rewrite Ho. cbn [app nextPrefix]. split; [reflexivity|].
          rewrite Ha, Hrest. unfold laterPrefix.
          destruct (appliedFirstList f0); reflexivity.
        - rewrite Ha. cbn [negb]. split; [|reflexivity].
          unfold done1.
          destruct (startsLine_true g w Hg Hs) as [[Hn Ho]|Ho]; rewrite Ho.
          + rewrite app_nil_r. specialize (Hd Hn).
            destruct done; [congruence|reflexivity].
          + destruct done; reflexivity. }
      destruct Hpre as [Hpre Hnext]. cbn [andb]. split; [|split].
      + rewrite <- Hpre. apply prefixedBy_start; [|exact Hw].
        apply isAscii_app; assumption.
      + discriminate.
      + exact Hnext.
    - destruct (startsLine_false g w Hg Hs) as [Hn Ho].
      cbn [andb].
      destruct Hcase as [(_ & _ & E & _)|(-> & Ha & _ & Hb)]; [congruence|].
      split; [|split; [intros _; exact Ha|reflexivity]].
      unfold done1. rewrite Ho, app_nil_r.
      apply prefixedBy_app; [exact (Hb Hn)|].
      apply chunks_app_endsAscii, (wf_tail g Hg). }
  destruct Hline as (Hline & Happl & Hnext).
  assert (Ha' : (if startsLine g w then true else appliedFirstList g) = true).
  { destruct (startsLine g w); [reflexivity|apply Happl; reflexivity]. }
  destruct (endsSentence w).
  - exists (done1 ++ [TrimRightFunc (lineBase g qp p w ++ w) IsSpace]).
    cbn [emitted out wlog newLine appliedFirstList].
    split; [rewrite Hlog, app_assoc; reflexivity|].
    split.
    + apply prefixShape_snoc; [exact Hshape1|].
      rewrite nextPrefix_match. apply prefixedBy_TrimRight, Hline.
    + right. split; [exact Hnext|]. split; [exact Ha'|].
      split; [intros _ E; destruct done1; discriminate E|congruence].
  - exists done1.
    cbn [emitted out wlog newLine appliedFirstList].
    split; [exact Hlog|]. split; [exact Hshape1|].
    right. split; [exact Hnext|]. split; [exact Ha'|].
    split; [intros E; destruct (lineBase g qp p w ++ w); discriminate E|].
    intros _. apply prefixedBy_app; [exact Hline|].
    apply chunks_app, space_clean.
Qed.

Lemma loopInv_lines (st : bool) (g : fmtState) (p : gostring) :
  loopInv st g p ->
  exists ls,
    emitted g ++ pendingLine g = emitted f0 ++ ls
    /\ prefixShape (qp ++ lp0) (qp ++ laterPrefix) ls
    /\ (st = true -> ls <> []).
Proof.
  intros (Hg & _ & _ & done & Hem & Hshape & Hcase).
  destruct (newLine g) as [|b0 bs] eqn:En.
  - exists done. rewrite (pendingLine_empty g Hg En), app_nil_r.
    split; [exact Hem|]. split; [exact Hshape|].
    intros ->. destruct Hcase as [(E & _)|(_ & _ & Hd & _)]; [discriminate E|].
    apply Hd. reflexivity.
  - exists (done ++ [TrimRightFunc (newLine g) IsSpace]).
    rewrite (pendingLine_pending g Hg) by (rewrite En; discriminate).
    rewrite Hem, app_assoc. split; [reflexivity|]. split.
    + apply prefixShape_snoc; [exact Hshape|].
      rewrite nextPrefix_match. apply prefixedBy_TrimRight.
      destruct Hcase as [(_ & _ & E & _)|(_ & _ & _ & Hb)]; [congruence|].
      rewrite En. apply Hb. discriminate.
    + intros _ E. destruct done; discriminate E.
Qed.

(** The lines written for the words of one input line, the pending buffer
    included: the first carries the quote prefix and the list prefix chosen
    for the line, the later ones the quote prefix and the continuation
    prefix. *)
Lemma wordLoop_prefixes (words : list gostring) :
  Forall isWord words ->
  exists ls,
    emitted (wordLoop f0 qp lp0 words) ++ pendingLine (wordLoop f0 qp lp0 words)
    = emitted f0 ++ ls
    /\ prefixShape (qp ++ lp0) (qp ++ laterPrefix) ls
    /\ (words <> [] -> ls <> []).
Proof.
  intros Hwords. destruct words as [|w words].
  - destruct (loopInv_lines false f0 lp0 loopInv_start) as (ls & H1 & H2 & _).
    exists ls. split; [exact H1|]. split; [exact H2|]. congruence.
  - inversion Hwords as [|? ? Hw Hws]; subst. cbn [wordLoop].
    pose proof (loopInv_step false f0 lp0 w Hw loopInv_start) as H1.
    destruct (processWord f0 qp lp0 w) as [f1 lp1]. cbn [fst snd] in H1.
    destruct (wordLoop_invariant (loopInv true) qp words)
      with (f := f1) (lp := lp1) as (p & Hinv).
    + intros g p0 w0 Hin. apply loopInv_step.
      rewrite Forall_forall in Hws. exact (Hws w0 Hin).
    + exact H1.
    + destruct (loopInv_lines true _ p Hinv) as (ls & H2 & H3 & H4).
      exists ls. split; [exact H2|]. split; [exact H3|]. intros _. auto.
Qed.

End WordLoopPrefix.

(** The word loop only adds to the output. *)
Lemma wordLoop_emitted (words : list gostring) : forall f qp lp,
  exists more, emitted (wordLoop f qp lp words) = emitted f ++ more.
Proof.
  induction words as [|w words IH]; intros f qp lp; cbn [wordLoop].
  - exists []. rewrite app_nil_r. reflexivity.
  - destruct (processWord f qp lp w) as [f1 lp1] eqn:E.
    destruct (IH f1 qp lp1) as (more & Hm). rewrite Hm.
    assert (H1 : exists m1, emitted f1 = emitted f ++ m1).
    { unfold processWord in E.
      repeat match type of E with
             | context [if ?c then _ else _] => destruct c
             end; injection E as <- _;
        unfold flushLine, writeToLine, setAppliedFirstList, Fprintln, emitted;
        cbn [out wlog]; rewrite <- ?app_assoc; eexists; try reflexivity;
        rewrite app_nil_r; reflexivity. }
    destruct H1 as (m1 & ->). exists (m1 ++ more). rewrite app_assoc.
    reflexivity.
Qed.

(** ** Prose lines *)

Lemma sliceFrom_ok (s : gostring) (n : Z) :
  0 <= n <= Z.of_nat (length s) ->
  sliceFrom s n = Some (skipn (Z.to_nat n) s).
Proof.
  intros H. unfold sliceFrom.
  destruct ((0 <=? n) && (n <=? Z.of_nat (length s))) eqn:E; [reflexivity|lia].
Qed.

(** The line after its quote prefix, and the list classification read
    there. *)
Definition afterQuote (line : gostring) : gostring :=
  skipn (Z.to_nat (snd (countQuoteDepth line))) line.

Definition lineList (line : gostring) : listState :=
  countListIndent (afterQuote line).

(** A prose line at which the list state changes: the pending buffer is
    flushed before the words of the line are read, and the slices do not
    panic. *)
Lemma reflow_change (f : fmtState) (line : gostring) :
  wf f -> inCode f = false ->
  listStarts (lineList line) || listEnds f (lineList line) = true ->
  exists f' more,
    reflowLine f line = Some f'
    /\ emitted f' = emitted f ++ pendingLine f ++ more
    /\ list_ f'
       = (if listStarts (lineList line) then lineList line else zeroListState).
Proof.
  intros H Hic Hch. rewrite reflowLine_eq, quote_slice.
  fold (afterQuote line). fold (lineList line). cbn zeta.
  set (nl := lineList line) in *.
  assert (Hf1 : exists f1,
             updateList f nl = f1
             /\ emitted f1 = emitted f ++ pendingLine f
             /\ list_ f1 = (if listStarts nl then nl else zeroListState)
             /\ wf f1 /\ inCode f1 = false).
  { exists (updateList f nl). split; [reflexivity|].
    destruct (updateList_wf f nl H Hic) as [Hw1 Hic1].
    split; [|split; [|auto]].
    - destruct (listStarts nl) eqn:Es.
      + rewrite (updateList_start f nl Es).
        rewrite setListState_list_eq by (apply listType_neqb; exact Es).
        apply flushPending_emitted.
      + cbn [orb] in Hch. rewrite (updateList_end f nl Hch).
        apply flushPending_emitted.
    - destruct (listStarts nl) eqn:Es.
      + rewrite (updateList_start f nl Es).
        rewrite setListState_list_eq by (apply listType_neqb; exact Es).
        reflexivity.
      + cbn [orb] in Hch. rewrite (updateList_end f nl Hch). reflexivity. }
  destruct Hf1 as (f1 & -> & Hem & Hl & Hw1 & Hic1).
  assert (Hslice : 0 <= indentBytes (list_ f1)
                        + Z.of_nat (length (symbol (typ (list_ f1))))
                   <= Z.of_nat (length (afterQuote line))).
  { rewrite Hl. destruct (listStarts nl).
    - pose proof (countListIndent_bytes (afterQuote line)) as Hb.
      fold (lineList line) in Hb. fold nl in Hb. lia.
    - cbn. lia. }
  rewrite (sliceFrom_ok _ _ Hslice).
  match goal with
  | |- context [wordLoop f1 ?qp ?lp ?ws] =>
    destruct (wordLoop_emitted ws f1 qp lp) as (more & Hmore);
    destruct (wordLoop_wf f1 qp lp ws Hw1 Hic1 (isAscii_quotePrefix _)
                (chosenPrefix_ascii _ _ Hw1)) as (_ & _ & Hlist);
    exists (wordLoop f1 qp lp ws), more
  end.
  split; [reflexivity|]. split.
  - rewrite Hmore, Hem, <- app_assoc. reflexivity.
  - rewrite Hlist. exact Hl.
Qed.

(** ** Flushing at structural boundaries *)

(** The boundaries the line classifier detects: a code fence, a blank line,
    the start of a list item, the end of the active list. *)
Definition boundary (f : fmtState) (line : gostring) : bool :=
  isFence line || isBlank line
  || listStarts (lineList line) || listEnds f (lineList line).

(** C1 (as amended): whenever the classifier detects a code fence, a blank
    line, the start of a list item or the end of the active list while the
    buffer holds content, that content is written out, on a line of its
    own, before anything of the current line is appended.  (A change of
    quote depth is not such a boundary.) *)
Theorem flush_before_boundary (f : fmtState) (line : gostring) :
  reachable f -> newLine f <> [] -> boundary f line = true ->
  exists f' more,
    processLine f line = Some f'
    /\ emitted f' = emitted f ++ TrimRightFunc (newLine f) IsSpace :: more.
Proof.
  intros Hr Hn Hb. pose proof (reachable_wf f Hr) as H.
  assert (Hic : inCode f = false).
  { destruct (inCode f) eqn:E; [|reflexivity].
    destruct (wf_code f H E) as [E' _]. congruence. }
  pose proof (pendingLine_pending f H Hn) as Hp.
  unfold boundary in Hb.
  destruct (isFence line) eqn:Ef.
  { destruct (fence_step f line H Ef) as (f' & E & _ & _ & Hem & _).
    rewrite Hic, Hp in Hem. exists f', [TrimSpace line].
    split; [exact E|exact Hem]. }
  destruct (isBlank line) eqn:Eb.
  { unfold processLine. unfold isFence in Ef. unfold isBlank in Eb.
    rewrite Ef, Eb. eexists. exists [TrimRightFunc [] IsSpace].
    split; [reflexivity|].
    rewrite setListState_zero_eq. unfold flushLine, Fprintln, emitted.
    cbn [out wlog newLine]. fold (emitted (flushPending f)).
    rewrite flushPending_emitted, Hp, (flushPending_empty f H), <- app_assoc.
    reflexivity. }
  cbn [orb] in Hb.
  destruct (reflow_change f line H Hic Hb) as (f' & more & E & Hem & _).
  exists f', more. unfold processLine. unfold isFence in Ef.
  unfold isBlank in Eb. rewrite Ef, Eb, Hic. split; [exact E|].
  rewrite Hem, Hp. reflexivity.
Qed.

(** ** Numbered list items *)

Lemma TrimRight_head (s : gostring) (c : chunk) (cs : list chunk) :
  chunks s = c :: cs -> nonSpace c ->
  exists cs', chunks (TrimRightFunc s IsSpace) = c :: cs'.
Proof.
  intros H Hc. rewrite TrimRight_chunks, H. cbn [rev].
  rewrite dropWhileChunk_stop by exact Hc.
  rewrite rev_app_distr. cbn [rev app]. eexists. reflexivity.
Qed.



(** ** Width *)

(** A line without code fence, quote marker or list marker. *)
Definition plainProse (line : gostring) : Prop :=
  isFence line = false
  /\ fst (countQuoteDepth line) = 0
  /\ typ (countListIndent line) = noList.

(** Outside lists and code, such a line is blank or goes to the word loop
    whole, with empty prefixes. *)
Lemma processLine_plain (f : fmtState) (line : gostring) :
  wf f -> inCode f = false -> typ (list_ f) = noList -> plainProse line ->
  processLine f line
  = Some (if isBlank line
          then flushLine (setListState (flushPending f) zeroListState)
          else wordLoop f [] [] (ScanWords line)).
Proof.
  intros H Hic Hno (Hf & Hq & Hl).
  unfold processLine. unfold isFence in Hf. rewrite Hf. unfold isBlank.
  destruct (length (TrimSpace line) =? 0)%nat; [reflexivity|].
  rewrite Hic, reflowLine_eq, quote_slice.
  rewrite (countQuoteDepth_unquoted line Hq), Hq. cbn [Z.to_nat skipn].
  cbn zeta.
  assert (Hkeep : updateList f (countListIndent line) = f).
  { apply updateList_keep.
    - unfold listStarts. rewrite Hl. reflexivity.
    - unfold listEnds. rewrite Hno. cbn [listType_eqb negb].
      rewrite andb_false_r. reflexivity. }
  rewrite Hkeep.
  destruct (wf_nolist f H Hno) as (Hz & _ & _).
  unfold chosenPrefix. rewrite Hz.
  rewrite sliceFrom_ok by (cbn; lia). reflexivity.
Qed.

Lemma TrimRight_lone_word (w : gostring) :
  isWord w -> TrimRightFunc w IsSpace = w.
Proof. intros Hw. exact (TrimRight_word [] w eq_refl Hw). Qed.

Lemma overflows_iff (f : fmtState) (w : gostring) :
  wf f ->
  overflows f w = true
  <-> newLine f <> [] /\ newLineRunes f + runeCount w > charsPerLine f.
Proof.
  intros H. unfold overflows. rewrite andb_true_iff, negb_true_iff, Z.eqb_neq.
  split.
  - intros [Hn Hgt]. split; [|lia].
    intros E. apply Hn. rewrite (wf_count f H), E. reflexivity.
  - intros [Hn Hgt]. split; [exact (wf_pending f H Hn)|lia].
Qed.

(** ** The line scanner *)

(** A line the scanner can deliver: it and the byte that ends it fit the
    scanner's buffer. *)
Definition scannable (line : gostring) : Prop :=
  Z.of_nat (length line) < MaxScanTokenSize.

(** The lines the engine is given when the input is [lines]. *)
Definition scanned (lines : list gostring) : list gostring :=
  fst (scanLines lines).

Lemma scanned_nil : scanned [] = [].
Proof. reflexivity. Qed.

Lemma scanned_cons (line : gostring) (lines : list gostring) :
  scanned (line :: lines)
  = if MaxScanTokenSize <=? Z.of_nat (length line) then []
    else dropCR line :: scanned lines.
Proof.
  unfold scanned. cbn [scanLines].
  destruct (MaxScanTokenSize <=? Z.of_nat (length line)); [reflexivity|].
  destruct (scanLines lines). reflexivity.
Qed.

Lemma scanned_scannable (line : gostring) (lines : list gostring) :
  scannable line -> scanned (line :: lines) = dropCR line :: scanned lines.
Proof.
  intros H. rewrite scanned_cons. unfold scannable in H.
  destruct (MaxScanTokenSize <=? Z.of_nat (length line)) eqn:E; [lia|].
  reflexivity.
Qed.

Lemma scanned_map (lines : list gostring) :
  Forall scannable lines -> scanned lines = map dropCR lines.
Proof.
  induction 1 as [|line lines H _ IH]; [reflexivity|].
  rewrite (scanned_scannable line lines H), IH. reflexivity.
Qed.

(** The scanner delivers a prefix of the input. *)
Lemma scanned_prefix (lines : list gostring) :
  exists k, scanned lines = map dropCR (firstn k lines)
            /\ Forall scannable (firstn k lines).
Proof.
  induction lines as [|line lines (k & IH & Hk)].
  - exists 0%nat. split; [reflexivity|constructor].
  - rewrite scanned_cons.
    destruct (MaxScanTokenSize <=? Z.of_nat (length line)) eqn:E.
    + exists 0%nat. split; [reflexivity|constructor].
    + exists (S k). cbn [firstn map]. rewrite IH.
      split; [reflexivity|]. constructor; [unfold scannable; lia|exact Hk].
Qed.

Lemma scanned_Forall (P Q : gostring -> Prop) (lines : list gostring) :
  (forall l, P l -> Q (dropCR l)) -> Forall P lines -> Forall Q (scanned lines).
Proof.
  intros HPQ H. induction H as [|line lines Hl _ IH]; [constructor|].
  rewrite scanned_cons.
  destruct (MaxScanTokenSize <=? Z.of_nat (length line)); [constructor|].
  constructor; [exact (HPQ line Hl)|exact IH].
Qed.

Lemma dropCR_cases (l : gostring) : dropCR l = l \/ l = dropCR l ++ [x0d].
Proof.
  unfold dropCR. destruct (HasSuffix l [x0d]) eqn:E; [right|left; reflexivity].
  apply HasSuffix_endsWith in E. destruct E as [p ->].
  rewrite length_app. cbn [length].
  replace (length p + 1 - 1)%nat with (length p + 0)%nat by lia.
  rewrite firstn_app_2. cbn [firstn]. rewrite app_nil_r. reflexivity.
Qed.

Lemma cr_clean (t : gostring) : startsClean (x0d :: t).
Proof. apply ascii_clean. reflexivity. Qed.

Lemma chunks_cr (s : gostring) : chunks (s ++ [x0d]) = chunks s ++ [(0x0D, [x0d])].
Proof. rewrite (chunks_app s [x0d] (cr_clean [])). reflexivity. Qed.

Lemma TrimRight_cr (s : gostring) :
  TrimRightFunc (s ++ [x0d]) IsSpace = TrimRightFunc s IsSpace.
Proof.
  apply TrimRight_app_spaces; [exact (chunks_app s [x0d] (cr_clean []))|].
  constructor; [reflexivity|constructor].
Qed.

Lemma dropWhileChunk_snoc (f : Z -> bool) (c : chunk) (cs : list chunk) :
  f (fst c) = true ->
  dropWhileChunk f (cs ++ [c])
  = match dropWhileChunk f cs with [] => [] | d => d ++ [c] end.
Proof.
  intros Hc. induction cs as [|x cs IH]; cbn [app dropWhileChunk].
  - rewrite Hc. reflexivity.
  - destruct (f (fst x)); [exact IH|reflexivity].
Qed.

Lemma TrimSpace_cr (s : gostring) : TrimSpace (s ++ [x0d]) = TrimSpace s.
Proof.
  unfold TrimSpace, TrimLeftFunc. rewrite chunks_cr.
  rewrite (dropWhileChunk_snoc IsSpace (0x0D, [x0d])) by reflexivity.
  destruct (dropWhileChunk IsSpace (chunks s)) as [|d ds]; [reflexivity|].
  rewrite bytesOf_snoc. cbn [snd]. apply TrimRight_cr.
Qed.

Lemma TrimSpace_dropCR (l : gostring) : TrimSpace (dropCR l) = TrimSpace l.
Proof.
  destruct (dropCR_cases l) as [->|E]; [reflexivity|].
  rewrite E at 2. symmetry. apply TrimSpace_cr.
Qed.

Lemma TrimRight_dropCR (l : gostring) :
  TrimRightFunc (dropCR l) IsSpace = TrimRightFunc l IsSpace.
Proof.
  destruct (dropCR_cases l) as [->|E]; [reflexivity|].
  rewrite E at 2. symmetry. apply TrimRight_cr.
Qed.

Lemma isFence_dropCR (l : gostring) : isFence (dropCR l) = isFence l.
Proof. unfold isFence. rewrite TrimSpace_dropCR. reflexivity. Qed.

Lemma isBlank_dropCR (l : gostring) : isBlank (dropCR l) = isBlank l.
Proof. unfold isBlank. rewrite TrimSpace_dropCR. reflexivity. Qed.

Lemma quoteLoop_snoc_space (r : Z) (rs : list Z) :
  IsSpace r = true ->
  forall bytes consumed depth len,
    fst (quoteLoop (rs ++ [r]) bytes consumed depth len)
    = fst (quoteLoop rs bytes consumed depth len).
Proof.
  intros Hr. induction rs as [|x rs IH]; intros bytes consumed depth len;
    cbn [app quoteLoop].
  - rewrite Hr. destruct consumed; reflexivity.
  - destruct (IsSpace x); [destruct (negb consumed); apply IH|].
    destruct (x =? 0x3E); [apply IH|reflexivity].
Qed.

Lemma listLoop_snoc_space (r : Z) (all : list Z) (rest : list Z) :
  forall i l,
    typ l = noList ->
    typ (listLoop (all ++ [r]) i (rest ++ [r]) l) = noList ->
    typ (listLoop all i rest l) = noList.
Proof.
  induction rest as [|x rest IH]; intros i l Hl H; cbn [app listLoop] in *.
  - exact Hl.
  - destruct (IsSpace x); [apply IH in H; [exact H|exact Hl]|].
    destruct (IsDigit x).
    + destruct (length all <=? i + 2)%nat eqn:E; [exact Hl|].
      apply Nat.leb_gt in E.
      assert (E' : (length (all ++ [r]) <=? i + 2)%nat = false).
      { apply Nat.leb_gt. rewrite length_app. cbn [length]. lia. }
      rewrite E' in H.
      rewrite !app_nth1 in H by lia. exact H.
    + destruct (x =? 0x2A); [discriminate H|exact Hl].
Qed.

(** Dropping the carriage return keeps a plain line plain. *)
Lemma plainProse_dropCR (l : gostring) : plainProse l -> plainProse (dropCR l).
Proof.
  destruct (dropCR_cases l) as [->|E]; [auto|].
  intros (Hf & Hq & Hl). split; [rewrite isFence_dropCR; exact Hf|].
  rewrite E in Hq, Hl. unfold countQuoteDepth, countListIndent, runes in *.
  rewrite chunks_cr, map_app in Hq, Hl. cbn [map fst] in Hq, Hl.
  split.
  - rewrite quoteLoop_snoc_space in Hq by reflexivity. exact Hq.
  - apply listLoop_snoc_space in Hl; [exact Hl|reflexivity].
Qed.

Lemma scanned_plain (doc : list gostring) :
  Forall plainProse doc -> Forall plainProse (scanned doc).
Proof. apply scanned_Forall. exact plainProse_dropCR. Qed.

Lemma run_eq (width : Z) (lines : list gostring) :
  run width lines
  = (f <- lineLoop (newFmtState width (mkWriter [] None)) (scanned lines) ;;
     Some (emitted (flushPending f))).
Proof.
  unfold run, process, tokens, scanned. cbn [input].
  destruct (lineLoop _ _); reflexivity.
Qed.

(** A word that fits, on a line without prefixes. *)
Lemma plain_word_fit (cpl n : Z) (buf w : gostring) (af : bool) (o : Writer) :
  (n = 0 -> buf = []) -> n + runeCount w <= cpl ->
  processWord (mkFmtState cpl buf n false zeroListState af [] [] o) [] [] w
  = (if endsSentence w
     then mkFmtState cpl [] 0 false zeroListState
            (if n =? 0 then true else af) [] []
            (mkWriter (wlog o ++ [TrimRightFunc (buf ++ w) IsSpace]) (wfail o))
     else mkFmtState cpl ((buf ++ w) ++ str " ") (n + runeCount w + 1) false
            zeroListState (if n =? 0 then true else af) [] [] o,
     []).
Proof.
  intros H0 Hfit. rewrite processWord_eq by exact H0.
  unfold lineBase, lineBaseRunes, logBefore, startsLine, overflows, emitted.
  cbn [newLineRunes newLine charsPerLine out appliedFirstList listPrefixRest
         inCode list_ listPrefixFirst].
  assert (Ho : (n + runeCount w >? cpl) = false) by lia.
  rewrite Ho, andb_false_r, orb_false_r, app_nil_r.
  destruct o as [lg wf]. cbn [wlog wfail].
  destruct (n =? 0) eqn:En.
  - apply Z.eqb_eq in En. rewrite (H0 En), En. cbn [app andb].
    change (runeCount []) with 0.
    destruct af, (endsSentence w); reflexivity.
  - cbn [andb]. destruct (endsSentence w); reflexivity.
Qed.

Ltac eval_runeCounts :=
  repeat match goal with
         | |- context [runeCount (str ?s)] =>
           let v := eval vm_compute in (runeCount (str s)) in
           change (runeCount (str s)) with v
         end.

(** One step of the word loop on a concrete word that fits. *)
Ltac fit_step :=
  match goal with
  | |- context [processWord _ _ _ (str ?w)] =>
    rewrite plain_word_fit
      by (eval_runeCounts;
          first [lia | intros E; first [reflexivity | exfalso; lia]]);
    let e := eval vm_compute in (endsSentence (str w)) in
    change (endsSentence (str w)) with e;
    cbv beta iota zeta
  end.

(** C4: after a word is appended, the buffer is flushed at once when the
    word ends a sentence, and a single space is appended otherwise; so two
    sentences that would fit on one line are still written on two lines. *)
Theorem sentence_boundary :
  (forall (f : fmtState) (qp lp w : gostring),
     wf f ->
     let f' := fst (processWord f qp lp w) in
     (endsSentence w = true ->
      newLine f' = [] /\ newLineRunes f' = 0
      /\ emitted f'
         = logBefore f w ++ [TrimRightFunc (lineBase f qp lp w ++ w) IsSpace])
     /\ (endsSentence w = false ->
         newLine f' = (lineBase f qp lp w ++ w) ++ str " "
         /\ emitted f' = logBefore f w))
  /\ (forall width : Z,
        runeCount (str "This is one. This is two.") <= width ->
        run width [str "This is one. This is two."]
        = Some [str "This is one."; str "This is two."]).
Proof.
  split.
  - intros f qp lp w H f'. unfold f'.
    rewrite (processWord_eq f qp lp w (wf_empty f H)). cbn zeta. cbn [fst].
    split; intros ->; cbn [emitted out wlog newLine newLineRunes]; auto.
  - intros width Hw. change (25 <= width) in Hw. rewrite run_eq.
    change (scanned [str "This is one. This is two."])
      with [str "This is one. This is two."].
    cbn [lineLoop].
    rewrite processLine_plain;
      [|apply wf_new|reflexivity|reflexivity|repeat split; reflexivity].
    change (isBlank (str "This is one. This is two.")) with false.
    change (ScanWords (str "This is one. This is two."))
      with [str "This"; str "is"; str "one."; str "This"; str "is"; str "two."].
    cbv iota. unfold newFmtState. cbn [wordLoop].
    do 6 fit_step. reflexivity.
Qed.

(** ** Quote prefixes *)

(** A check of [prefixedBy] on concrete strings. *)
Ltac prove_prefixed :=
  match goal with
  | |- prefixedBy ?p ?l =>
    let cs := eval vm_compute in (skipn (length (chunks p)) (chunks l)) in
    match cs with
    | ?c :: ?rest => exists c, rest; split; reflexivity
    end
  end.

(** C9 (as amended): the quote scan of the line of two quote markers
    followed by hello world yields depth 2; and when the line is read
    outside code blocks, with no active list and with an empty buffer,
    every output line produced for it begins with exactly the two quote
    markers, each followed by one space. *)
Theorem quoted_line_prefix (f : fmtState) :
  reachable f -> inCode f = false -> typ (list_ f) = noList ->
  newLine f = [] ->
  countQuoteDepth (str "> > hello world") = (2, 4)
  /\ exists f' ls,
       processLine f (str "> > hello world") = Some f'
       /\ emitted f' ++ pendingLine f' = emitted f ++ ls
       /\ ls = (if 15 >? charsPerLine f
                then [str "> > hello"; str "> > world"]
                else [str "> > hello world"])
       /\ Forall (prefixedBy (str "> > ")) ls.
Proof.
  intros Hr Hic Hno Hn. split; [reflexivity|].
  pose proof (reachable_wf f Hr) as H.
  destruct (wf_nolist f H Hno) as (Hz & Hpf & Hpr).
  pose proof (wf_count f H) as Hc. rewrite Hn in Hc.
  change (runeCount []) with 0 in Hc.
  destruct f as [cpl buf n ic l af lpf lpr [lg wfl]].
  cbn [inCode list_ newLine newLineRunes listPrefixFirst listPrefixRest
         charsPerLine] in *.
  subst buf n ic l lpf lpr.
  set (f := mkFmtState cpl [] 0 false zeroListState af [] [] (mkWriter lg wfl)).
  assert (E : processLine f (str "> > hello world")
              = Some (wordLoop f (str "> > ") [] [str "hello"; str "world"])).
  { unfold processLine.
    change (HasPrefix (TrimSpace (str "> > hello world")) (str "```"))
      with false.
    change (length (TrimSpace (str "> > hello world")) =? 0)%nat with false.
    cbv iota. cbn [inCode f]. rewrite reflowLine_eq.
    change (countQuoteDepth (str "> > hello world")) with (2, 4).
    cbn [fst snd].
    change (sliceFrom (str "> > hello world") 4)
      with (Some (str "hello world")).
    cbv iota beta.
    change (countListIndent (str "hello world")) with zeroListState.
    rewrite updateList_keep by reflexivity. reflexivity. }
  rewrite E. cbn [wordLoop].
  rewrite (processWord_eq f (str "> > ") [] (str "hello"))
    by (intros _; reflexivity).
  change (endsSentence (str "hello")) with false.
  unfold lineBase, lineBaseRunes, logBefore, startsLine, overflows, emitted.
  cbn [f newLineRunes newLine charsPerLine out wlog wfail appliedFirstList
         listPrefixRest Z.eqb orb negb andb].
  cbv beta iota zeta.
  change (0 + runeCount (str "> > ") + runeCount [] + runeCount (str "hello") + 1)
    with 10.
  rewrite app_nil_r.
  match goal with
  | |- context [processWord ?g ?qp ?lp ?w] =>
    rewrite (processWord_eq g qp lp w) by (intros E0; discriminate E0)
  end.
  change (endsSentence (str "world")) with false.
  unfold lineBase, lineBaseRunes, logBefore, startsLine, overflows, emitted.
  cbn [newLineRunes newLine charsPerLine out wlog wfail appliedFirstList
         listPrefixRest Z.eqb orb negb andb].
  cbv beta iota zeta.
  change (10 + runeCount (str "world")) with 15.
  eexists.
  exists (if 15 >? cpl
          then [str "> > hello"; str "> > world"] else [str "> > hello world"]).
  split; [reflexivity|].
  unfold pendingLine, emitted.
  cbn [newLineRunes newLine out wlog].
  destruct af, (15 >? cpl); cbn [app orb negb andb];
    rewrite ?app_nil_r, <- ?app_assoc;
    (split; [reflexivity|split; [reflexivity|]]);
    repeat constructor; prove_prefixed.
Qed.

(** ** Stream failures *)

(** The same state, writing to a stream that fails as [k] says. *)
Definition withFail (k : option (nat * ioError)) (f : fmtState) : fmtState :=
  mkFmtState (charsPerLine f) (newLine f) (newLineRunes f) (inCode f)
    (list_ f) (appliedFirstList f) (listPrefixFirst f) (listPrefixRest f)
    (mkWriter (wlog (out f)) k).

Definition mapFail (k : option (nat * ioError)) (r : option fmtState) : option fmtState :=
  match r with Some f => Some (withFail k f) | None => None end.

Lemma processWord_withFail (k : option (nat * ioError)) (f : fmtState)
    (qp lp w : gostring) :
  processWord (withFail k f) qp lp w
  = (withFail k (fst (processWord f qp lp w)), snd (processWord f qp lp w)).
Proof.
  destruct f as [cpl nl nr ic l af lpf lpr [lg wf0]].
  unfold processWord, withFail, flushLine, writeToLine, setAppliedFirstList,
    Fprintln.
  cbn -[runeCount TrimRightFunc str].
  destruct (nr =? 0) eqn:En; cbn -[runeCount TrimRightFunc str].
  - rewrite En. destruct af, (endsSentence w); reflexivity.
  - destruct (nr + runeCount w >? cpl);
      cbn -[runeCount TrimRightFunc str]; rewrite ?En;
      destruct af, (endsSentence w); reflexivity.
Qed.

Lemma wordLoop_withFail (k : option (nat * ioError)) (words : list gostring) :
  forall f qp lp,
    wordLoop (withFail k f) qp lp words = withFail k (wordLoop f qp lp words).
Proof.
  induction words as [|w words IH]; intros f qp lp; cbn [wordLoop].
  - reflexivity.
  - rewrite processWord_withFail.
    destruct (processWord f qp lp w) as [f1 lp1]. cbn [fst snd]. apply IH.
Qed.

Lemma updateList_withFail (k : option (nat * ioError)) (f : fmtState) (nl : listState) :
  updateList (withFail k f) nl = withFail k (updateList f nl).
Proof.
  destruct f as [cpl buf nr ic l af lpf lpr [lg wf0]].
  unfold updateList, withFail, setListState, flushPending, flushLine, Fprintln.
  cbn -[runeCount TrimRightFunc str Repeat].
  destruct (listType_eqb (typ nl) noList); cbn -[TrimRightFunc str Repeat].
  - destruct (negb (listType_eqb (typ l) noList) && _); [|reflexivity].
    destruct (nr =? 0); reflexivity.
  - destruct (nr =? 0); reflexivity.
Qed.

Lemma reflowLine_withFail (k : option (nat * ioError)) (f : fmtState) (line : gostring) :
  reflowLine (withFail k f) line = mapFail k (reflowLine f line).
Proof.
  rewrite !reflowLine_eq.
  destruct (sliceFrom line _) as [rest|]; [|reflexivity].
  cbn zeta. rewrite updateList_withFail.
  set (f1 := updateList f (countListIndent rest)).
  change (list_ (withFail k f1)) with (list_ f1).
  destruct (sliceFrom rest _) as [content|]; [|reflexivity].
  cbn [mapFail]. rewrite <- wordLoop_withFail. reflexivity.
Qed.

Lemma processLine_withFail (k : option (nat * ioError)) (f : fmtState) (line : gostring) :
  processLine (withFail k f) line = mapFail k (processLine f line).
Proof.
  unfold processLine.
  destruct (HasPrefix (TrimSpace line) (str "```")).
  { destruct f as [cpl nl nr ic l af lpf lpr [lg wf0]].
    unfold withFail, setInCode, setListState, flushPending, flushLine,
      writeToLine, Fprintln.
    cbn -[runeCount TrimRightFunc TrimSpace str].
    destruct ic; cbn -[runeCount TrimRightFunc TrimSpace str];
      [reflexivity|].
    destruct (nr =? 0); reflexivity. }
  destruct (length (TrimSpace line) =? 0)%nat.
  { destruct f as [cpl nl nr ic l af lpf lpr [lg wf0]].
    unfold withFail, setInCode, setListState, flushPending, flushLine,
      writeToLine, Fprintln.
    cbn -[runeCount TrimRightFunc TrimSpace str].
    destruct (nr =? 0); reflexivity. }
  change (inCode (withFail k f)) with (inCode f).
  destruct (inCode f); [reflexivity|]. apply reflowLine_withFail.
Qed.

Lemma lineLoop_withFail (k : option (nat * ioError)) (lines : list gostring) : forall f,
  lineLoop (withFail k f) lines = mapFail k (lineLoop f lines).
Proof.
  induction lines as [|line lines IH]; intros f; cbn [lineLoop].
  - reflexivity.
  - rewrite processLine_withFail.
    destruct (processLine f line) as [f1|]; [apply IH|reflexivity].
Qed.

Lemma process_withFail (k : option (nat * ioError)) (f : fmtState) (i stdin : Reader) :
  process (withFail k f) i stdin = mapFail k (process f i stdin).
Proof.
  unfold process. rewrite lineLoop_withFail.
  destruct (lineLoop f (tokens stdin)) as [f1|]; [|reflexivity].
  cbn [mapFail]. f_equal.
  unfold flushPending, withFail, flushLine, Fprintln.
  cbn [newLineRunes newLine out wlog wfail].
  destruct (negb (newLineRunes f1 =? 0)); reflexivity.
Qed.

Lemma stopState_withFail (k : option (nat * ioError)) (lines : list gostring) :
  forall f, stopState (withFail k f) lines = withFail k (stopState f lines).
Proof.
  induction lines as [|line lines IH]; intros f; cbn [stopState].
  - reflexivity.
  - rewrite processLine_withFail.
    destruct (processLine f line) as [f1|]; cbn [mapFail]; [apply IH|].
    destruct (countQuoteDepth line) as [depth len].
    apply updateList_withFail.
Qed.

(** A line panics only at its second slice, and [stopState] is the state in
    which that slice is evaluated. *)
Lemma processLine_panic (f : fmtState) (line : gostring) :
  processLine f line = None ->
  stopState f [line] = updateList f (lineList line)
  /\ sliceFrom (afterQuote line)
       (indentBytes (list_ (updateList f (lineList line)))
        + Z.of_nat
            (length (symbol (typ (list_ (updateList f (lineList line)))))))
     = None.
Proof.
  intros E. split.
  - cbn [stopState]. rewrite E. unfold lineList, afterQuote.
    destruct (countQuoteDepth line). reflexivity.
  - unfold processLine in E.
    destruct (HasPrefix (TrimSpace line) (str "```")); [discriminate E|].
    destruct (length (TrimSpace line) =? 0)%nat; [discriminate E|].
    destruct (inCode f); [discriminate E|].
    rewrite reflowLine_eq, quote_slice in E. cbn zeta in E.
    fold (afterQuote line) in E. fold (lineList line) in E.
    destruct (sliceFrom (afterQuote line) _); [discriminate E|reflexivity].
Qed.

(** The outcome of a run with the failure [k] put on its output stream. *)
Definition withStream (k : option (nat * ioError)) (o : outcome) : outcome :=
  match o with
  | Exit status w => Exit status (mkWriter (wlog w) k)
  | Panic w => Panic (mkWriter (wlog w) k)
  | Sigpipe w => Sigpipe (mkWriter (wlog w) k)
  end.

(** The write calls of a run, in order. *)
Definition writes (o : outcome) : list gostring :=
  match o with
  | Exit _ w => wlog w
  | Panic w => wlog w
  | Sigpipe w => wlog w
  end.

(** The run on a stream that never fails: it shows every write call the
    engine makes until [main] returns or panics. *)
Definition healthyRun (stdin : Reader) : outcome :=
  main stdin (mkWriter [] None).

Lemma healthyRun_eq (stdin : Reader) :
  healthyRun stdin
  = match process (newFmtState 80 (mkWriter [] None)) stdin stdin with
    | Some f => Exit 0 (mkWriter (emitted f) None)
    | None =>
      Panic (mkWriter
               (emitted (stopState (newFmtState 80 (mkWriter [] None))
                           (tokens stdin)))
               None)
    end.
Proof.
  unfold healthyRun, main, emitted. cbn [wlog length].
  set (fs := newFmtState 80 (mkWriter [] None)).
  pose proof (process_withFail None fs stdin stdin) as Hp.
  pose proof (stopState_withFail None (tokens stdin) fs) as Hs.
  change (withFail None fs) with fs in Hp, Hs.
  destruct (process fs stdin stdin) as [f1|]; cbn [mapFail] in Hp.
  - injection Hp as Hp.
    assert (Eo : out f1 = mkWriter (wlog (out f1)) None)
      by (rewrite Hp at 1; reflexivity).
    rewrite Eo. reflexivity.
  - assert (Eo : out (stopState fs (tokens stdin))
                 = mkWriter (wlog (out (stopState fs (tokens stdin)))) None)
      by (rewrite Hs at 1; reflexivity).
    rewrite Eo. reflexivity.
Qed.

Lemma main_withFail (stdin : Reader) (k : option (nat * ioError)) :
  main stdin (mkWriter [] k)
  = match fatalCall 0 (mkWriter (writes (healthyRun stdin)) k) with
    | Some i => Sigpipe (mkWriter (firstn (S i) (writes (healthyRun stdin))) k)
    | None => withStream k (healthyRun stdin)
    end.
Proof.
  rewrite healthyRun_eq. unfold main, emitted. cbn [wlog length].
  set (fs := newFmtState 80 (mkWriter [] None)).
  change (newFmtState 80 (mkWriter [] k)) with (withFail k fs).
  rewrite process_withFail, stopState_withFail.
  destruct (process fs stdin stdin) as [f1|];
    cbn [mapFail writes wlog withStream withFail out wfail];
    match goal with
    | |- context [fatalCall 0 ?w] => destruct (fatalCall 0 w)
    end; reflexivity.
Qed.

Lemma scanned_too_long (lines rest : list gostring) (long : gostring) :
  Forall scannable lines -> ~ scannable long ->
  scanLines (lines ++ long :: rest) = (map dropCR lines, Some ErrTooLong).
Proof.
  intros Hl Hlong. induction Hl as [|l lines H _ IH]; cbn [app scanLines map].
  - unfold scannable in Hlong.
    destruct (MaxScanTokenSize <=? Z.of_nat (length long)) eqn:E;
      [reflexivity|lia].
  - unfold scannable in H.
    destruct (MaxScanTokenSize <=? Z.of_nat (length l)) eqn:E; [lia|].
    rewrite IH. reflexivity.
Qed.

Lemma fatalCall_other (before : nat) (w : Writer) :
  (forall k, wfail w <> Some (k, EPIPE)) -> fatalCall before w = None.
Proof.
  intros H. unfold fatalCall. destruct (wfail w) as [[k e]|]; [|reflexivity].
  destruct e; try reflexivity. exfalso. exact (H k eq_refl).
Qed.

(** C8 (as amended): the program itself neither reports a failure of its
    streams nor acts upon one.  A read failure ends the line loop exactly
    like the end of the input, and so does a line that does not fit the
    scanner's buffer: what was delivered before is processed, the pending
    buffer is flushed and [main] returns.  On a stream that never fails
    [main] returns with status 0, or the run panics.  A write failure other
    than a broken pipe changes nothing: the engine makes every later write
    call and the run ends as on a healthy stream.  A write to a closed pipe
    is fatal, by the run time and not by the program: the process is killed
    in the first call that fails, having made no later call, and otherwise
    the run ends as on a healthy stream.  Whenever [main] returns, its
    status is 0. *)
Theorem stream_errors_ignored :
  (forall (lines : list gostring) (e : option ioError) (stdout : Writer),
     main (mkReader lines e) stdout = main (mkReader lines None) stdout)
  /\ (forall (lines rest : list gostring) (long : gostring)
             (e : option ioError) (stdout : Writer),
        Forall scannable lines -> ~ scannable long ->
        scanErr (mkReader (lines ++ long :: rest) e) = Some ErrTooLong
        /\ main (mkReader (lines ++ long :: rest) e) stdout
           = main (mkReader lines None) stdout)
  /\ (forall stdin : Reader,
        main stdin (mkWriter [] None)
        = Exit 0 (mkWriter (writes (healthyRun stdin)) None)
        \/ main stdin (mkWriter [] None)
           = Panic (mkWriter (writes (healthyRun stdin)) None))
  /\ (forall (stdin : Reader) (k : nat) (e : ioError),
        e <> EPIPE ->
        main stdin (mkWriter [] (Some (k, e)))
        = withStream (Some (k, e)) (healthyRun stdin))
  /\ (forall (stdin : Reader) (k : nat),
        main stdin (mkWriter [] (Some (k, EPIPE)))
        = if (k <? length (writes (healthyRun stdin)))%nat
          then Sigpipe (mkWriter (firstn (S k) (writes (healthyRun stdin)))
                          (Some (k, EPIPE)))
          else withStream (Some (k, EPIPE)) (healthyRun stdin))
  /\ (forall (stdin : Reader) (stdout : Writer) (status : Z) (w : Writer),
        main stdin stdout = Exit status w -> status = 0).
Proof.
  split; [reflexivity|]. split; [|split; [|split; [|split]]].
  - intros lines rest long e stdout Hl Hlong.
    pose proof (scanned_too_long lines rest long Hl Hlong) as E.
    split; [unfold scanErr; cbn [input]; rewrite E; reflexivity|].
    unfold main, process, tokens. cbn [input].
    rewrite E, <- (scanned_map lines Hl). reflexivity.
  - intros stdin. fold (healthyRun stdin). rewrite (healthyRun_eq stdin) at 1 3.
    destruct (process _ stdin stdin) as [f|] eqn:E.
    + left. rewrite healthyRun_eq, E. reflexivity.
    + right. rewrite healthyRun_eq, E. reflexivity.
  - intros stdin k e He. rewrite main_withFail, fatalCall_other; [reflexivity|].
    cbn [wfail]. intros k' E. injection E as _ E. exact (He E).
  - intros stdin k. rewrite main_withFail. unfold fatalCall.
    cbn [wfail wlog]. rewrite Nat.max_0_r.
    destruct (k <? length (writes (healthyRun stdin)))%nat; reflexivity.
  - intros stdin stdout status w. unfold main.
    destruct (fatalCall _ _); [discriminate|].
    destruct (process _ _ _) as [f1|]; [|discriminate].
    intros E. injection E as <- _. reflexivity.
Qed.

(** * Further properties of the engine *)

(** ** The output stream is append-only and free of trailing whitespace *)

(** The last rune of the line, if any, is not whitespace. *)
Definition noTrailingSpace (l : gostring) : Prop :=
  forall cs c, chunks l = cs ++ [c] -> IsSpace (fst c) = false.

Lemma TrimRight_noTrailing (s : gostring) :
  noTrailingSpace (TrimRightFunc s IsSpace).
Proof.
  intros cs c H. rewrite TrimRight_chunks in H.
  destruct (dropWhileChunk_split IsSpace (rev (chunks s))) as (d & _ & _ & Hh).
  assert (E : dropWhileChunk IsSpace (rev (chunks s)) = c :: rev cs).
  { rewrite <- (rev_involutive (dropWhileChunk _ _)), H, rev_app_distr.
    reflexivity. }
  rewrite E in Hh. exact Hh.
Qed.

(** [g] has written what [f] had written, then lines without trailing
    whitespace. *)
Definition extends (f g : fmtState) : Prop :=
  exists more, emitted g = emitted f ++ more /\ Forall noTrailingSpace more.

Lemma extends_refl (f : fmtState) : extends f f.
Proof. exists []. split; [symmetry; apply app_nil_r|constructor]. Qed.

Lemma extends_trans (f g h : fmtState) :
  extends f g -> extends g h -> extends f h.
Proof.
  intros (a & Ea & Ha) (b & Eb & Hb). exists (a ++ b).
  split; [rewrite Eb, Ea, app_assoc; reflexivity|].
  apply Forall_app. split; assumption.
Qed.

Lemma extends_same (f g : fmtState) : emitted g = emitted f -> extends f g.
Proof.
  intros E. exists []. split; [rewrite app_nil_r; exact E|constructor].
Qed.

Lemma extends_flushLine (f : fmtState) : extends f (flushLine f).
Proof.
  exists [TrimRightFunc (newLine f) IsSpace].
  split; [reflexivity|]. repeat constructor. apply TrimRight_noTrailing.
Qed.

Lemma extends_flushPending (f : fmtState) : extends f (flushPending f).
Proof.
  unfold flushPending. destruct (negb _);
    [apply extends_flushLine|apply extends_refl].
Qed.

Lemma extends_processWord (f : fmtState) (qp lp w : gostring) :
  extends f (fst (processWord f qp lp w)).
Proof.
  unfold processWord.
  set (f1 := if negb (newLineRunes f =? 0)
                && (newLineRunes f + runeCount w >? charsPerLine f)
             then flushLine f else f).
  assert (H1 : extends f f1).
  { unfold f1. destruct (_ && _);
      [apply extends_flushLine|apply extends_refl]. }
  apply (extends_trans _ _ _ H1). clearbody f1.
  destruct (newLineRunes f1 =? 0);
    [destruct (negb (appliedFirstList (writeToLine (writeToLine f1 qp) lp)))|];
    cbv beta iota; cbn [fst]; destruct (endsSentence w);
    first [ apply extends_same; reflexivity
          | eexists; split; [reflexivity|];
            repeat constructor; apply TrimRight_noTrailing ].
Qed.

Lemma extends_wordLoop (words : list gostring) : forall f qp lp,
  extends f (wordLoop f qp lp words).
Proof.
  induction words as [|w words IH]; intros f qp lp; cbn [wordLoop].
  - apply extends_refl.
  - pose proof (extends_processWord f qp lp w) as H.
    destruct (processWord f qp lp w) as [f1 lp1]. cbn [fst] in H.
    exact (extends_trans _ _ _ H (IH f1 qp lp1)).
Qed.

Lemma extends_setListState (f g : fmtState) (l : listState) :
  extends f g -> extends f (setListState g l).
Proof.
  intros H. apply (extends_trans _ _ _ H), extends_same.
  unfold setListState. destruct (negb _); reflexivity.
Qed.

Lemma extends_updateList (f : fmtState) (nl : listState) :
  extends f (updateList f nl).
Proof.
  unfold updateList. destruct (negb (listType_eqb (typ nl) noList)).
  - apply extends_setListState, extends_flushPending.
  - destruct (_ && _);
      [apply extends_setListState, extends_flushPending|apply extends_refl].
Qed.

Lemma extends_processLine (f f' : fmtState) (line : gostring) :
  processLine f line = Some f' -> extends f f'.
Proof.
  unfold processLine.
  destruct (HasPrefix (TrimSpace line) (str "```")).
  { intros E. injection E as <-.
    set (f1 := if negb (inCode f)
               then setListState (flushPending f) zeroListState else f).
    assert (H1 : extends f f1).
    { unfold f1. destruct (negb (inCode f));
        [apply extends_setListState, extends_flushPending
        |apply extends_refl]. }
    apply (extends_trans _ _ _ H1).
    eexists. split; [reflexivity|].
    repeat constructor. apply TrimRight_noTrailing. }
  destruct (length (TrimSpace line) =? 0)%nat.
  { intros E. injection E as <-.
    apply (extends_trans _ (setListState (flushPending f) zeroListState));
      [apply extends_setListState, extends_flushPending
      |apply extends_flushLine]. }
  destruct (inCode f).
  { intros E. injection E as <-.
    eexists. split; [reflexivity|].
    repeat constructor. apply TrimRight_noTrailing. }
  rewrite reflowLine_eq.
  destruct (sliceFrom line _) as [rest|]; [|discriminate].
  cbn zeta.
  destruct (sliceFrom rest _) as [content|]; [|discriminate].
  intros E. injection E as <-.
  exact (extends_trans _ _ _ (extends_updateList f _) (extends_wordLoop _ _ _ _)).
Qed.

Lemma extends_lineLoop (lines : list gostring) : forall f f',
  lineLoop f lines = Some f' -> extends f f'.
Proof.
  induction lines as [|line lines IH]; intros f f'; cbn [lineLoop].
  - intros E. injection E as <-. apply extends_refl.
  - destruct (processLine f line) as [f1|] eqn:E1; [|discriminate].
    intros E. exact (extends_trans _ _ _ (extends_processLine _ _ _ E1)
                       (IH _ _ E)).
Qed.

(** Whatever the state, the input and the output stream, a run only appends
    to what the stream has received, and no line it writes ends in
    whitespace. *)
Theorem output_trimmed (f f' : fmtState) (i stdin : Reader) :
  process f i stdin = Some f' ->
  exists more,
    emitted f' = emitted f ++ more /\ Forall noTrailingSpace more.
Proof.
  unfold process.
  destruct (lineLoop f (tokens stdin)) as [f1|] eqn:E1; [|discriminate].
  intros E. injection E as <-.
  exact (extends_trans _ _ _ (extends_lineLoop _ _ _ E1)
           (extends_flushPending f1)).
Qed.

(** ** The list scan, complete *)

(** The leading whitespace of a rune sequence and what follows it. *)
Definition headNonSpace (tail : list Z) : Prop :=
  match tail with
  | [] => True
  | r :: _ => IsSpace r = false
  end.

Lemma span_spaces (rs : list Z) :
  exists ws tail,
    rs = ws ++ tail /\ Forall (fun r => IsSpace r = true) ws
    /\ headNonSpace tail.
Proof.
  induction rs as [|r rs (ws & tail & E & Hws & Ht)].
  - exists [], []. repeat split; constructor.
  - destruct (IsSpace r) eqn:Er.
    + exists (r :: ws), tail. rewrite E. repeat split; auto.
    + exists [], (r :: rs). repeat split; auto.
Qed.

(** What the first rune after the leading whitespace, and at most the two
    runes after it, decide. *)
Definition marker (tail : list Z) : listType :=
  match tail with
  | [] => noList
  | r :: rest =>
    if IsDigit r then (if markerFollows rest then numList else noList)
    else if r =? 0x2A then bulletList
    else noList
  end.

Lemma listTail_marker (tail : list Z) (l : listState) :
  headNonSpace tail -> typ l = noList ->
  listTail tail l = mkListState (marker tail) (indent l) (indentBytes l).
Proof.
  intros Ht Hl. destruct l as [t i b]. cbn [typ indent indentBytes] in *.
  subst t. destruct tail as [|r rest]; [reflexivity|].
  cbn [headNonSpace] in Ht. cbn [listTail marker]. rewrite Ht.
  destruct (IsDigit r).
  - destruct rest as [|r1 [|r2 rest]]; cbn [markerFollows]; try reflexivity.
    destruct ((r1 =? 0x2E) && IsSpace r2); reflexivity.
  - destruct (r =? 0x2A); reflexivity.
Qed.

Lemma countListIndent_marker (line : gostring) (ws tail : list Z) :
  runes line = ws ++ tail ->
  Forall (fun r => IsSpace r = true) ws ->
  headNonSpace tail ->
  countListIndent line
  = mkListState (marker tail) (Z.of_nat (length ws)) (runeBytes ws).
Proof.
  intros E Hws Ht.
  rewrite countListIndent_listTail, E, (listTail_spaces ws tail _ Hws).
  rewrite listTail_marker by (exact Ht || reflexivity).
  reflexivity.
Qed.

(** The list scan in full.  The indent is the number of leading whitespace
    runes and [indentBytes] their encoded length, whatever follows.  The
    line is a bullet item exactly when the first rune after the whitespace
    is an asterisk: nothing is asked of the rune after it.  A line whose
    first rune after the whitespace is neither a digit nor an asterisk, a
    hyphen or a plus sign for instance, and a line of whitespace only, is
    no list item. *)
Theorem countListIndent_spec (line : gostring) (ws tail : list Z) :
  runes line = ws ++ tail ->
  Forall (fun r => IsSpace r = true) ws ->
  headNonSpace tail ->
  indent (countListIndent line) = Z.of_nat (length ws)
  /\ indentBytes (countListIndent line) = runeBytes ws
  /\ typ (countListIndent line) = marker tail
  /\ (typ (countListIndent line) = bulletList <->
      exists rest, tail = 0x2A :: rest)
  /\ (tail = [] -> typ (countListIndent line) = noList)
  /\ (forall r rest, tail = r :: rest -> IsDigit r = false -> r <> 0x2A ->
      typ (countListIndent line) = noList).
Proof.
  intros E Hws Ht. rewrite (countListIndent_marker line ws tail E Hws Ht).
  cbn [typ indent indentBytes].
  split; [reflexivity|]. split; [reflexivity|]. split; [reflexivity|].
  split; [|split].
  - split.
    + destruct tail as [|r rest]; cbn [marker]; [discriminate|].
      destruct (IsDigit r).
      * destruct (markerFollows rest); discriminate.
      * destruct (r =? 0x2A) eqn:Er; [|discriminate].
        intros _. exists rest. apply Z.eqb_eq in Er. rewrite Er. reflexivity.
    + intros (rest & ->). cbn [marker].
      assert (Hd : IsDigit 0x2A = false) by reflexivity.
      rewrite Hd. reflexivity.
  - intros ->. reflexivity.
  - intros r rest -> Hd Hr. cbn [marker]. rewrite Hd.
    destruct (r =? 0x2A) eqn:Er; [|reflexivity].
    apply Z.eqb_eq in Er. contradiction.
Qed.

(** ** The quote scan and the quote prefix *)

Lemma space_RuneLen_pos (r : rune) : IsSpace r = true -> 0 < utf8.RuneLen r.
Proof.
  intros Hs. unfold IsSpace in Hs. unfold utf8.RuneLen.
  destruct (r <=? 0xFF) eqn:E;
    repeat match goal with
           | |- context [if ?c then _ else _] => destruct c eqn:?
           end; lia.
Qed.

(** Two runs of the quote scan over the same runes, from different
    counters: they count the same markers, and either neither sets the
    length or both set it at the same distance from their byte counter. *)
Lemma quoteLoop_relate (rs : list Z) :
  forall (c : bool) (b d l b0 d0 l0 : Z),
  exists D,
    fst (quoteLoop rs b c d l) = d + D
    /\ fst (quoteLoop rs b0 c d0 l0) = d0 + D
    /\ ((snd (quoteLoop rs b c d l) = l
         /\ snd (quoteLoop rs b0 c d0 l0) = l0
         /\ (c = true -> D = 0))
        \/ exists k, 0 < k
                     /\ snd (quoteLoop rs b c d l) = b + k
                     /\ snd (quoteLoop rs b0 c d0 l0) = b0 + k).
Proof.
  induction rs as [|r rs IH]; intros c b d l b0 d0 l0; cbn [quoteLoop].
  - exists 0. cbn [fst snd]. split; [lia|]. split; [lia|]. left. auto.
  - destruct (IsSpace r) eqn:Es.
    + pose proof (space_RuneLen_pos r Es) as Hpos.
      destruct c; cbn [negb].
      * destruct (IH true (b + utf8.RuneLen r) d l (b0 + utf8.RuneLen r) d0 l0)
          as (D & E & E0 & [(S1 & S0 & HD)|(k & Hk & S1 & S0)]).
        -- exists D. split; [exact E|]. split; [exact E0|]. left. auto.
        -- exists D. split; [exact E|]. split; [exact E0|]. right.
           exists (utf8.RuneLen r + k). split; [lia|]. split; lia.
      * destruct (IH true (b + utf8.RuneLen r) d (b + utf8.RuneLen r)
                    (b0 + utf8.RuneLen r) d0 (b0 + utf8.RuneLen r))
          as (D & E & E0 & [(S1 & S0 & HD)|(k & Hk & S1 & S0)]).
        -- exists D. split; [exact E|]. split; [exact E0|]. right.
           exists (utf8.RuneLen r). split; [lia|]. split; lia.
        -- exists D. split; [exact E|]. split; [exact E0|]. right.
           exists (utf8.RuneLen r + k). split; [lia|]. split; lia.
    + destruct (r =? 0x3E).
      * destruct (IH false (b + 1) (d + 1) (b + 1) (b0 + 1) (d0 + 1) (b0 + 1))
          as (D & E & E0 & [(S1 & S0 & HD)|(k & Hk & S1 & S0)]).
        -- exists (D + 1). split; [lia|]. split; [lia|]. right.
           exists 1. split; [lia|]. split; lia.
        -- exists (D + 1). split; [lia|]. split; [lia|]. right.
           exists (1 + k). split; [lia|]. split; lia.
      * exists 0. cbn [fst snd]. split; [lia|]. split; [lia|]. left. auto.
Qed.

(** The scan over the quote prefix the engine writes. *)
Lemma quoteLoop_prefix (k : nat) (rest : gostring) : forall b d,
  quoteLoop (runes (concat (repeat (str "> ") k) ++ rest)) b true d b
  = quoteLoop (runes rest) (b + 2 * Z.of_nat k) true (d + Z.of_nat k)
      (b + 2 * Z.of_nat k).
Proof.
  induction k as [|k IH]; intros b d.
  - cbn [repeat concat app]. rewrite Z.mul_0_r, !Z.add_0_r. reflexivity.
  - cbn [repeat concat]. rewrite <- app_assoc.
    change (str "> ") with [x3e; x20]. cbn [app]. unfold runes.
    rewrite !chunks_ascii by reflexivity. cbn [map fst].
    change (bz x3e) with 0x3E. change (bz x20) with 0x20.
    cbn [quoteLoop].
    change (IsSpace 0x3E) with false. change (IsSpace 0x20) with true.
    change (0x3E =? 0x3E) with true. cbv iota. cbn [negb].
    change (utf8.RuneLen 32) with 1.
    fold (runes (concat (repeat [x3e; x20] k) ++ rest)).
    change [x3e; x20] with (str "> ").
    replace (b + 1 + 1) with (b + 2) by lia. rewrite IH.
    f_equal; lia.
Qed.

(** The quote scan reads back the quote prefix the engine writes: a string
    that begins with the prefix of depth [n] has [n] more markers than what
    follows the prefix, and [2 n] more bytes are consumed.  In particular a
    prefix put before unquoted text is read back as depth [n] and
    length [2 n]. *)
Theorem quote_prefix_compose (n : Z) (rest : gostring) :
  0 <= n ->
  countQuoteDepth (Repeat (str "> ") n ++ rest)
  = (n + fst (countQuoteDepth rest), 2 * n + snd (countQuoteDepth rest))
  /\ (fst (countQuoteDepth rest) = 0 ->
      countQuoteDepth (Repeat (str "> ") n ++ rest) = (n, 2 * n)).
Proof.
  intros Hn.
  assert (E : countQuoteDepth (Repeat (str "> ") n ++ rest)
              = (n + fst (countQuoteDepth rest),
                 2 * n + snd (countQuoteDepth rest))).
  { unfold countQuoteDepth, Repeat.
    rewrite (quoteLoop_prefix (Z.to_nat n) rest 0 0).
    rewrite Z2Nat.id by exact Hn. cbn [Z.add].
    destruct (quoteLoop_relate (runes rest) true (2 * n) n (2 * n) 0 0 0)
      as (D & E1 & E0 & [(S1 & S0 & HD)|(k & Hk & S1 & S0)]);
      destruct (quoteLoop (runes rest) (2 * n) true n (2 * n)) as [d1 l1];
      destruct (quoteLoop (runes rest) 0 true 0 0) as [d0 l0];
      cbn [fst snd] in *; f_equal; lia. }
  split; [exact E|].
  intros H0. rewrite E, H0, (countQuoteDepth_unquoted rest H0).
  f_equal; lia.
Qed.

(** ** When the marker slice panics *)

(** The leading whitespace of the list item on this line, if it is one, is
    made of one-byte runes: its byte length is its rune count. *)
Definition byteIndent (line : gostring) : Prop :=
  typ (lineList line) <> noList ->
  indentBytes (lineList line) = indent (lineList line).

(** The same of the active list. *)
Definition listInBytes (f : fmtState) : Prop :=
  typ (list_ f) <> noList ->
  indentBytes (list_ f) = indent (list_ f) /\ 0 <= indent (list_ f).

Lemma symbol_length (t : listType) : Z.of_nat (length (symbol t)) = lrunes t.
Proof. destruct t; reflexivity. Qed.

Lemma runeBytes_spaces (ws : list Z) :
  Forall (fun r => IsSpace r = true) ws -> Z.of_nat (length ws) <= runeBytes ws.
Proof.
  induction 1 as [|r ws Hr _ IH]; [cbn; lia|].
  cbn [length runeBytes fold_right]. fold (runeBytes ws).
  pose proof (space_RuneLen_pos r Hr). lia.
Qed.

Lemma countListIndent_indent_le (s : gostring) :
  indent (countListIndent s) <= indentBytes (countListIndent s).
Proof.
  destruct (span_spaces (runes s)) as (ws & tail & E & Hws & Ht).
  rewrite (countListIndent_marker s ws tail E Hws Ht).
  cbn [indent indentBytes]. apply runeBytes_spaces, Hws.
Qed.

Lemma list_setListState (f : fmtState) (l : listState) :
  list_ (setListState f l) = l.
Proof. unfold setListState. destruct (negb _); reflexivity. Qed.

Lemma listInBytes_nolist (f : fmtState) :
  typ (list_ f) = noList -> listInBytes f.
Proof. intros E H. contradiction. Qed.

(** One line never panics when the active list and the line are indented
    with one-byte whitespace. *)
Lemma processLine_total (f : fmtState) (line : gostring) :
  wf f -> listInBytes f -> byteIndent line ->
  exists f', processLine f line = Some f' /\ listInBytes f'.
Proof.
  intros H Hf Hline. unfold processLine.
  destruct (HasPrefix (TrimSpace line) (str "```")).
  { eexists. split; [reflexivity|]. apply listInBytes_nolist.
    destruct (inCode f) eqn:Hic; cbn [negb].
    - exact (proj2 (wf_code f H Hic)).
    - unfold flushLine, writeToLine, setInCode, Fprintln.
      cbn [list_ out newLine]. rewrite list_setListState. reflexivity. }
  destruct (length (TrimSpace line) =? 0)%nat.
  { eexists. split; [reflexivity|]. apply listInBytes_nolist.
    unfold flushLine, Fprintln. cbn [list_ out newLine].
    rewrite list_setListState. reflexivity. }
  destruct (inCode f) eqn:Hic.
  { eexists. split; [reflexivity|]. apply listInBytes_nolist.
    exact (proj2 (wf_code f H Hic)). }
  destruct (listStarts (lineList line) || listEnds f (lineList line)) eqn:Hch.
  { destruct (reflow_change f line H Hic Hch) as (f' & more & E & _ & Hl).
    exists f'. split; [exact E|]. intros Ht. rewrite Hl in *.
    destruct (listStarts (lineList line)); [|cbn in Ht; contradiction].
    split; [exact (Hline Ht)|].
    apply (countListIndent_bytes (afterQuote line)). }
  apply orb_false_iff in Hch. destruct Hch as [Hs He].
  rewrite reflowLine_eq, quote_slice.
  fold (afterQuote line). fold (lineList line). cbn zeta.
  rewrite (updateList_keep f (lineList line) Hs He).
  assert (Hslice : 0 <= indentBytes (list_ f)
                        + Z.of_nat (length (symbol (typ (list_ f))))
                   <= Z.of_nat (length (afterQuote line))).
  { destruct (listType_eqb (typ (list_ f)) noList) eqn:Et.
    - apply listType_eqb_eq in Et.
      destruct (wf_nolist f H Et) as (-> & _ & _). cbn. lia.
    - assert (Ht : typ (list_ f) <> noList).
      { intros E. apply listType_eqb_eq in E. congruence. }
      unfold listEnds in He. unfold listStarts in Hs.
      apply negb_false_iff in Hs. rewrite Hs, Et in He.
      cbn [negb andb] in He. apply negb_false_iff, Z.eqb_eq in He.
      pose proof (countListIndent_indent_le (afterQuote line)) as Hle.
      pose proof (countListIndent_bytes (afterQuote line)) as (_ & _ & Hb).
      fold (lineList line) in Hle, Hb.
      destruct (Hf Ht) as [Hbytes Hnn].
      rewrite symbol_length, Hbytes.
      destruct (typ (list_ f)); cbn [lrunes] in *; lia. }
  rewrite (sliceFrom_ok _ _ Hslice).
  eexists. split; [reflexivity|].
  match goal with
  | |- listInBytes (wordLoop f ?qp ?lp ?ws) =>
    destruct (wordLoop_wf f qp lp ws H Hic (isAscii_quotePrefix _)
                (chosenPrefix_ascii _ _ H)) as (_ & _ & Hlist)
  end.
  unfold listInBytes. rewrite Hlist. exact Hf.
Qed.

Lemma lineLoop_total (lines : list gostring) : forall f,
  wf f -> listInBytes f -> Forall byteIndent lines ->
  exists f', lineLoop f lines = Some f'.
Proof.
  induction lines as [|line lines IH]; intros f H Hf Hlines; cbn [lineLoop].
  - exists f. reflexivity.
  - inversion Hlines as [|? ? Hline Hrest]; subst.
    destruct (processLine_total f line H Hf Hline) as (f1 & E & Hf1).
    rewrite E. apply (IH f1); [|exact Hf1|exact Hrest].
    exact (processLine_wf f f1 line H E).
Qed.

Lemma runes_ascii (s : gostring) : isAscii s -> runes s = map bz s.
Proof.
  intros Hs. unfold runes.
  rewrite <- (app_nil_r s) at 1. rewrite (chunks_ascii_app s [] Hs).
  rewrite chunks_nil, app_nil_r, map_map. reflexivity.
Qed.

Lemma runeBytes_ascii (rs : list Z) :
  Forall (fun r => 0 <= r < 0x80) rs -> runeBytes rs = Z.of_nat (length rs).
Proof.
  induction 1 as [|r rs Hr _ IH]; [reflexivity|].
  cbn [length runeBytes fold_right]. fold (runeBytes rs). rewrite IH.
  assert (E : utf8.RuneLen r = 1).
  { unfold utf8.RuneLen.
    destruct (r <? 0) eqn:E0; [lia|]. destruct (r <=? 0x7F) eqn:E1; lia. }
  lia.
Qed.

Lemma isAscii_byteIndent (line : gostring) : isAscii line -> byteIndent line.
Proof.
  intros Hl _. unfold lineList.
  assert (Ha : isAscii (afterQuote line)).
  { unfold afterQuote, isAscii in *.
    rewrite <- (firstn_skipn (Z.to_nat (snd (countQuoteDepth line))) line) in Hl.
    apply Forall_app in Hl. exact (proj2 Hl). }
  destruct (span_spaces (runes (afterQuote line)))
    as (ws & tail & E & Hws & Ht).
  rewrite (countListIndent_marker _ ws tail E Hws Ht). cbn [indent indentBytes].
  apply runeBytes_ascii.
  assert (Hall : Forall (fun r => 0 <= r < 0x80) (runes (afterQuote line))).
  { rewrite (runes_ascii _ Ha). apply Forall_map.
    apply Forall_impl with (2 := Ha). intros b Hb. pose proof (bz_range b). lia. }
  rewrite E in Hall. apply Forall_app in Hall. exact (proj1 Hall).
Qed.

Lemma isAscii_dropCR (l : gostring) : isAscii l -> isAscii (dropCR l).
Proof.
  destruct (dropCR_cases l) as [->|E]; [auto|].
  intros H. rewrite E in H. apply Forall_app in H. exact (proj1 H).
Qed.

(** The engine keeps the stream's failure as it found it. *)
Lemma process_wfail (f f' : fmtState) (i stdin : Reader) :
  process f i stdin = Some f' -> wfail (out f') = wfail (out f).
Proof.
  intros E. pose proof (process_withFail (wfail (out f)) f i stdin) as Hp.
  assert (Ef : withFail (wfail (out f)) f = f)
    by (destruct f as [? ? ? ? ? ? ? ? [? ?]]; reflexivity).
  rewrite Ef, E in Hp. cbn [mapFail] in Hp. injection Hp as Hp.
  rewrite Hp. reflexivity.
Qed.

(** The program never panics on a document whose list items are indented
    with one-byte whitespace, in particular on an ASCII document: [main]
    returns with status 0, unless a write to a closed pipe kills the process
    first.  The condition is needed: after a bullet item indented with two
    ideographic spaces (three bytes each), a continuation line indented with
    four ASCII spaces is sliced at offset 7 of its 5 bytes, and the run
    panics before it has written anything. *)
Theorem reflow_never_panics :
  (forall (stdin : Reader) (stdout : Writer),
     Forall byteIndent (tokens stdin) ->
     (exists w, main stdin stdout = Exit 0 w \/ main stdin stdout = Sigpipe w)
     /\ ((forall k, wfail stdout <> Some (k, EPIPE)) ->
         exists w, main stdin stdout = Exit 0 w))
  /\ (forall stdin : Reader,
        Forall isAscii (input stdin) -> Forall byteIndent (tokens stdin))
  /\ main (mkReader [[xe3; x80; x80; xe3; x80; x80] ++ str "* foo";
                     str "    x"] None)
       (mkWriter [] None)
     = Panic (mkWriter [] None).
Proof.
  split; [|split].
  - intros stdin stdout Hlines. unfold main.
    assert (Hp : exists f', process (newFmtState 80 stdout) stdin stdin
                            = Some f').
    { unfold process.
      destruct (lineLoop_total (tokens stdin) (newFmtState 80 stdout)
                  (wf_new 80 stdout)) as (f' & E).
      - apply listInBytes_nolist. reflexivity.
      - exact Hlines.
      - rewrite E. eexists. reflexivity. }
    destruct Hp as (f' & E). rewrite E. split.
    + destruct (fatalCall _ _); eexists; [right|left]; reflexivity.
    + intros Hk. pose proof (process_wfail _ _ _ _ E) as Hw.
      cbn [newFmtState out] in Hw. unfold fatalCall. rewrite Hw.
      destruct (wfail stdout) as [[k e]|]; [|eexists; reflexivity].
      destruct e; try (eexists; reflexivity).
      exfalso. exact (Hk k eq_refl).
  - intros stdin H. unfold tokens. fold (scanned (input stdin)).
    apply (scanned_Forall isAscii); [|exact H].
    intros l Hl. apply isAscii_byteIndent, isAscii_dropCR, Hl.
  - vm_compute. reflexivity.
Qed.

(** ** The four kinds of line *)

Lemma quoteLoop_spaces (ws tail : list Z) : forall b d l,
  Forall (fun r => IsSpace r = true) ws ->
  quoteLoop (ws ++ tail) b true d l = quoteLoop tail (b + runeBytes ws) true d l.
Proof.
  induction ws as [|w ws IH]; intros b d l Hws.
  - cbn [app runeBytes fold_right]. rewrite Z.add_0_r. reflexivity.
  - inversion Hws as [|? ? Hw Hws']; subst.
    cbn [app quoteLoop]. rewrite Hw. cbn [negb]. rewrite (IH _ _ _ Hws').
    cbn [runeBytes fold_right]. fold (runeBytes ws). f_equal. lia.
Qed.

(** The trimmed line, from the decoding of the line: empty when the line is
    whitespace, and beginning with the first rune that is not whitespace
    otherwise. *)
Lemma TrimSpace_span (line : gostring) :
  exists ws rest,
    chunks line = ws ++ rest
    /\ Forall (fun c => IsSpace (fst c) = true) ws
    /\ match rest with
       | [] => TrimSpace line = []
       | c :: _ => IsSpace (fst c) = false
                   /\ exists t, TrimSpace line = snd c ++ t
       end.
Proof.
  destruct (dropWhileChunk_split IsSpace (chunks line)) as (d & E & Hd & Hh).
  exists d, (dropWhileChunk IsSpace (chunks line)).
  split; [exact E|]. split; [exact Hd|].
  unfold TrimSpace, TrimLeftFunc.
  destruct (dropWhileChunk IsSpace (chunks line)) as [|c rest] eqn:Er.
  - apply TrimRight_nil.
  - split; [exact Hh|].
    pose proof (chunks_suffix d (c :: rest) line E) as Hc.
    destruct (TrimRight_head (bytesOf (c :: rest)) c rest Hc Hh) as (cs' & E').
    exists (bytesOf cs').
    rewrite <- (bytesOf_chunks (TrimRightFunc _ _)), E'. reflexivity.
Qed.

(** A chunk that begins with an ASCII byte is that byte alone. *)
Lemma chunk_ascii_head (line : gostring) (a : list chunk) (c : chunk)
    (b : list chunk) (x : byte) (t : gostring) :
  chunks line = a ++ c :: b -> snd c = x :: t -> bz x < 0x80 ->
  c = (bz x, [x]).
Proof.
  intros E Hc Hx. pose proof (chunks_suffix a (c :: b) line E) as H.
  unfold bytesOf in H. cbn [map concat] in H. rewrite Hc in H.
  cbn [app] in H. rewrite (chunks_ascii x _ Hx) in H.
  injection H as H _. symmetry. exact H.
Qed.

(** A fence line and a blank line carry neither quote markers nor a list
    marker: the tests of the line loop exclude one another. *)
Lemma special_unmarked (line : gostring) :
  isFence line = true \/ isBlank line = true ->
  countQuoteDepth line = (0, 0) /\ typ (lineList line) = noList.
Proof.
  intros Hsp.
  destruct (TrimSpace_span line) as (ws & rest & E & Hws & Hrest).
  assert (Hr : runes line = map fst ws ++ map fst rest).
  { unfold runes. rewrite E. apply map_app. }
  assert (Hws' : Forall (fun r => IsSpace r = true) (map fst ws)).
  { apply Forall_map. exact Hws. }
  assert (Htail : rest = [] \/ exists rest', rest = (0x60, [x60]) :: rest').
  { destruct rest as [|c rest']; [left; reflexivity|right].
    destruct Hrest as (Hc & t & Ht).
    pose proof (chunk_nonempty line c) as Hne.
    rewrite E in Hne. specialize (Hne (in_elt c ws rest')).
    destruct Hsp as [Hf|Hb].
    - unfold isFence in Hf. rewrite Ht in Hf.
      destruct (snd c) as [|x s] eqn:Es; [congruence|].
      unfold HasPrefix in Hf. change (str "```") with [x60; x60; x60] in Hf.
      cbn [length] in Hf. apply andb_true_iff in Hf. destruct Hf as [_ Hf].
      cbn [app firstn bytes_eqb] in Hf.
      apply andb_true_iff in Hf. destruct Hf as [Hx _].
      assert (Ex : x = x60).
      { destruct x; try discriminate Hx. reflexivity. }
      subst x. exists rest'. f_equal.
      exact (chunk_ascii_head line ws c rest' x60 s E Es eq_refl).
    - unfold isBlank in Hb. rewrite Ht in Hb. apply Nat.eqb_eq in Hb.
      rewrite length_app in Hb. destruct (snd c); [congruence|].
      cbn [length] in Hb. lia. }
  assert (Hq : countQuoteDepth line = (0, 0)).
  { unfold countQuoteDepth. rewrite Hr, (quoteLoop_spaces _ _ _ _ _ Hws').
    destruct Htail as [->|(rest' & ->)]; reflexivity. }
  split; [exact Hq|].
  unfold lineList, afterQuote. rewrite Hq. cbn [snd Z.to_nat skipn].
  assert (Hh : headNonSpace (map fst rest)).
  { destruct Htail as [->|(rest' & ->)]; [exact I|reflexivity]. }
  rewrite (countListIndent_marker line _ _ Hr Hws' Hh). cbn [typ].
  destruct Htail as [->|(rest' & ->)]; reflexivity.
Qed.

Lemma marked_prose (line : gostring) :
  typ (lineList line) <> noList \/ fst (countQuoteDepth line) <> 0 ->
  isFence line = false /\ isBlank line = false.
Proof.
  intros Hm.
  assert (Hn : ~ (isFence line = true \/ isBlank line = true)).
  { intros Hsp. destruct (special_unmarked line Hsp) as (Hq & Hl).
    rewrite Hq in Hm. cbn [fst] in Hm. destruct Hm; contradiction. }
  split.
  - destruct (isFence line); [|reflexivity]. exfalso. apply Hn. left.
    reflexivity.
  - destruct (isBlank line); [|reflexivity]. exfalso. apply Hn. right.
    reflexivity.
Qed.

(** ** Blank lines *)

(** A blank line, whitespace included, is written as one empty line after
    the pending buffer, whatever the mode: it ends the paragraph and the
    list, and inside a code block a line of whitespace loses its
    whitespace. *)
Theorem blank_line (f : fmtState) (line : gostring) :
  reachable f -> isBlank line = true ->
  exists f',
    processLine f line = Some f'
    /\ emitted f' = emitted f ++ pendingLine f ++ [[]]
    /\ newLine f' = []
    /\ inCode f' = inCode f
    /\ list_ f' = zeroListState
    /\ listPrefixFirst f' = [] /\ listPrefixRest f' = [].
Proof.
  intros Hr Hb. pose proof (reachable_wf f Hr) as H.
  assert (Hf : isFence line = false).
  { unfold isFence. unfold isBlank in Hb. apply Nat.eqb_eq in Hb.
    destruct (TrimSpace line); [reflexivity|discriminate]. }
  unfold processLine. unfold isFence in Hf. unfold isBlank in Hb.
  rewrite Hf, Hb. eexists. split; [reflexivity|].
  rewrite setListState_zero_eq. unfold flushLine, Fprintln, emitted.
  cbn [out wlog newLine inCode list_ listPrefixFirst listPrefixRest].
  fold (emitted (flushPending f)).
  rewrite flushPending_emitted, (flushPending_empty f H), TrimRight_nil,
    flushPending_inCode, <- app_assoc.
  repeat split; reflexivity.
Qed.

(** ** List items in general *)

(** A line that carries a list marker, at any indent and any quote depth,
    read outside a code block: the pending buffer is flushed, the list
    state becomes the line's, and of the lines then produced the first
    begins with the quote prefix, the indent, the marker and one space, the
    later ones with the quote prefix and as many spaces as the first
    prefix has runes.  The marker written is the list type's symbol: every
    numbered item comes out numbered 1, whatever digit the input had. *)
Theorem list_item_prefixes (f : fmtState) (line : gostring) :
  reachable f -> inCode f = false -> typ (lineList line) <> noList ->
  exists f' ls,
    processLine f line = Some f'
    /\ emitted f' ++ pendingLine f' = emitted f ++ pendingLine f ++ ls
    /\ prefixShape
         (Repeat (str "> ") (fst (countQuoteDepth line))
          ++ Repeat (str " ") (indent (lineList line))
          ++ symbol (typ (lineList line)) ++ str " ")
         (Repeat (str "> ") (fst (countQuoteDepth line))
          ++ Repeat (str " ")
               (indent (lineList line) + lrunes (typ (lineList line)) + 1))
         ls
    /\ list_ f' = lineList line
    /\ runeCount (Repeat (str " ") (indent (lineList line))
                  ++ symbol (typ (lineList line)) ++ str " ")
       = runeCount (Repeat (str " ")
                      (indent (lineList line)
                       + lrunes (typ (lineList line)) + 1)).
Proof.
  intros Hr Hic Hm. pose proof (reachable_wf f Hr) as H.
  destruct (marked_prose line (or_introl Hm)) as (Ef & Eb).
  unfold processLine. unfold isFence in Ef. unfold isBlank in Eb.
  rewrite Ef, Eb, Hic, reflowLine_eq, quote_slice.
  fold (afterQuote line). fold (lineList line).
  set (nl := lineList line) in *.
  set (qp := Repeat (str "> ") (fst (countQuoteDepth line))).
  cbn zeta.
  assert (Hs : listStarts nl = true) by (apply listType_neqb; exact Hm).
  assert (Hsb : listType_eqb (typ nl) noList = false).
  { apply negb_true_iff. exact Hs. }
  rewrite (updateList_start f nl Hs), (setListState_list_eq _ nl Hm).
  set (f1 := mkFmtState _ _ _ _ _ _ _ _ _).
  assert (Hw1 : wf f1).
  { pose proof (wf_setListState_list (flushPending f) nl
                  (wf_flushPending f H)) as Hw.
    rewrite (setListState_list_eq _ nl Hm) in Hw.
    apply Hw; [|exact Hm]. rewrite flushPending_inCode. exact Hic. }
  assert (Hic1 : inCode f1 = false).
  { unfold f1. cbn [inCode]. rewrite flushPending_inCode. exact Hic. }
  pose proof (countListIndent_bytes (afterQuote line)) as (Hb0 & Hi0 & Hb).
  fold (lineList line) in Hb0, Hi0, Hb. fold nl in Hb0, Hi0, Hb.
  assert (Hslice : 0 <= indentBytes (list_ f1)
                        + Z.of_nat (length (symbol (typ (list_ f1))))
                   <= Z.of_nat (length (afterQuote line))).
  { unfold f1. cbn [list_]. lia. }
  rewrite (sliceFrom_ok _ _ Hslice).
  assert (Hlp : chosenPrefix f1 nl
                = Repeat (str " ") (indent nl) ++ symbol (typ nl) ++ str " ").
  { unfold chosenPrefix, f1. cbn [list_ listPrefixFirst]. rewrite Hsb.
    reflexivity. }
  rewrite Hlp.
  set (lp := Repeat (str " ") (indent nl) ++ symbol (typ nl) ++ str " ").
  assert (Hqp : isAscii qp) by apply isAscii_quotePrefix.
  assert (Halp : isAscii lp).
  { unfold lp. apply isAscii_app; [apply isAscii_Repeat, isAscii_space|].
    apply isAscii_app; [apply isAscii_symbol|apply isAscii_space]. }
  match goal with
  | |- context [wordLoop f1 qp lp ?ws] => set (words := ws)
  end.
  destruct (wordLoop_prefixes f1 qp lp Hw1 Hic1) with (words := words)
    as (ls & Hls & Hshape & _).
  - unfold f1. cbn [newLine]. apply (flushPending_empty f H).
  - exact Hqp.
  - exact Halp.
  - apply Forall_forall. intros w. apply ScanWords_isWord.
  - eexists. exists ls. split; [reflexivity|].
    split; [|split; [|split]].
    + rewrite Hls. unfold f1 at 1. unfold emitted at 1. cbn [out].
      fold (emitted (flushPending f)).
      rewrite flushPending_emitted, <- app_assoc. reflexivity.
    + exact Hshape.
    + destruct (wordLoop_wf f1 qp lp words Hw1 Hic1 Hqp Halp) as (_ & _ & Hl).
      rewrite Hl. reflexivity.
    + unfold lp. rewrite !runeCount_app_chunks
        by (apply chunks_app_ascii;
            first [apply isAscii_Repeat, isAscii_space|apply isAscii_symbol]).
      assert (Hrep : forall n, 0 <= n -> runeCount (Repeat (str " ") n) = n).
      { intros n Hn. unfold Repeat. rewrite <- (Z2Nat.id n Hn) at 2.
        induction (Z.to_nat n) as [|k IH]; [reflexivity|].
        cbn [repeat concat].
        rewrite runeCount_app_chunks by (apply chunks_app_ascii, isAscii_space).
        rewrite IH. change (runeCount (str " ")) with 1. lia. }
      rewrite !Hrep by (destruct (typ nl); cbn [lrunes]; lia).
      destruct (typ nl); cbn [symbol lrunes];
        [change (runeCount (str "")) with 0
        |change (runeCount (str "1.")) with 2
        |change (runeCount (str "*")) with 1];
        change (runeCount (str " ")) with 1; lia.
Qed.

(** ** Quoted lines in general *)

Lemma splitWords_some (cs : list chunk) : forall w,
  splitWords cs (Some w) <> [].
Proof.
  induction cs as [|c cs IH]; intros w; cbn [splitWords]; [discriminate|].
  destruct (isSpace (fst c)); [discriminate|apply IH].
Qed.

(** A string without words is whitespace. *)
Lemma ScanWords_nil (s : gostring) :
  ScanWords s = [] -> Forall (fun c => IsSpace (fst c) = true) (chunks s).
Proof.
  unfold ScanWords. induction (chunks s) as [|c cs IH]; [constructor|].
  cbn [splitWords]. rewrite isSpace_IsSpace.
  destruct (IsSpace (fst c)) eqn:Ec.
  - intros H. constructor; [exact Ec|exact (IH H)].
  - intros H. exfalso. exact (splitWords_some cs _ H).
Qed.

Lemma prefixShape_same (p : gostring) (ls : list gostring) :
  prefixShape p p ls -> Forall (prefixedBy p) ls.
Proof.
  destruct ls as [|l ls]; [constructor|]. intros [H1 H2]. constructor; auto.
Qed.

(** The line goes to the word loop as it is, in a state without list. *)
Lemma reflow_unlisted (f : fmtState) (line : gostring) :
  wf f -> inCode f = false -> typ (list_ f) = noList ->
  typ (lineList line) = noList ->
  isFence line = false -> isBlank line = false ->
  processLine f line
  = Some (wordLoop f (Repeat (str "> ") (fst (countQuoteDepth line))) []
            (ScanWords (afterQuote line))).
Proof.
  intros H Hic Hno Hl Ef Eb. unfold processLine.
  unfold isFence in Ef. unfold isBlank in Eb.
  rewrite Ef, Eb, Hic, reflowLine_eq, quote_slice.
  fold (afterQuote line). fold (lineList line). cbn zeta.
  rewrite updateList_keep.
  - destruct (wf_nolist f H Hno) as (Hz & _ & _).
    unfold chosenPrefix. rewrite Hz.
    rewrite sliceFrom_ok by (cbn; lia). reflexivity.
  - unfold listStarts. rewrite Hl. reflexivity.
  - unfold listEnds. rewrite Hno. cbn [listType_eqb negb].
    rewrite andb_false_r. reflexivity.
Qed.

(** A quoted line without list marker, read outside code blocks and lists
    with an empty buffer: every line produced for it begins with the quote
    prefix of the line's depth, one marker and one space per level,
    whatever the spacing of the markers in the input. *)
Theorem quoted_line_prefixes (f : fmtState) (line : gostring) :
  reachable f -> inCode f = false -> newLine f = [] ->
  typ (list_ f) = noList -> typ (lineList line) = noList ->
  fst (countQuoteDepth line) <> 0 ->
  exists f' ls,
    processLine f line = Some f'
    /\ emitted f' ++ pendingLine f' = emitted f ++ ls
    /\ Forall (prefixedBy (Repeat (str "> ") (fst (countQuoteDepth line)))) ls
    /\ (ScanWords (afterQuote line) <> [] -> ls <> []).
Proof.
  intros Hr Hic Hn Hno Hl Hq. pose proof (reachable_wf f Hr) as H.
  destruct (marked_prose line (or_intror Hq)) as (Ef & Eb).
  rewrite (reflow_unlisted f line H Hic Hno Hl Ef Eb).
  set (qp := Repeat (str "> ") (fst (countQuoteDepth line))).
  destruct (wordLoop_prefixes f qp [] H Hic Hn (isAscii_quotePrefix _)
              ltac:(constructor) (ScanWords (afterQuote line)))
    as (ls & Hls & Hshape & Hne).
  - apply Forall_forall. intros w. apply ScanWords_isWord.
  - eexists. exists ls. split; [reflexivity|]. split; [exact Hls|].
    split; [|exact Hne].
    apply prefixShape_same.
    destruct (wf_nolist f H Hno) as (_ & _ & Hrest).
    unfold laterPrefix in Hshape. rewrite Hrest in Hshape.
    destruct (appliedFirstList f); rewrite app_nil_r in Hshape; exact Hshape.
Qed.

(** A line of quote markers and whitespace only, the usual separator
    between two quoted paragraphs, read outside code blocks and lists:
    nothing is written and the state is unchanged, pending buffer
    included.  The words of the next line are appended to the words of the
    line before it. *)
Theorem quote_marker_line_dropped (f : fmtState) (line : gostring) :
  reachable f -> inCode f = false -> typ (list_ f) = noList ->
  fst (countQuoteDepth line) <> 0 ->
  ScanWords (afterQuote line) = [] ->
  processLine f line = Some f.
Proof.
  intros Hr Hic Hno Hq Hw. pose proof (reachable_wf f Hr) as H.
  destruct (marked_prose line (or_intror Hq)) as (Ef & Eb).
  assert (Hl : typ (lineList line) = noList).
  { unfold lineList.
    pose proof (ScanWords_nil _ Hw) as Hsp.
    rewrite (countListIndent_marker (afterQuote line)
               (runes (afterQuote line)) []).
    - reflexivity.
    - symmetry. apply app_nil_r.
    - unfold runes. apply Forall_map. exact Hsp.
    - exact I. }
  rewrite (reflow_unlisted f line H Hic Hno Hl Ef Eb), Hw. reflexivity.
Qed.

(** ** Plain prose: what the output is made of *)

(** *** The word scanner on joined words *)

Lemma splitWords_spaces (sps : list chunk) :
  Forall (fun c => IsSpace (fst c) = true) sps -> splitWords sps None = [].
Proof.
  induction 1 as [|c sps Hc _ IH]; [reflexivity|].
  cbn [splitWords]. rewrite isSpace_IsSpace, Hc. exact IH.
Qed.

Lemma splitWords_spaces_tail (cs sps : list chunk) :
  Forall (fun c => IsSpace (fst c) = true) sps ->
  forall cur, splitWords (cs ++ sps) cur = splitWords cs cur.
Proof.
  intros Hs. induction cs as [|c cs IH]; intros cur.
  - cbn [app]. destruct sps as [|s sps]; [reflexivity|].
    inversion Hs as [|? ? Hc Hs']; subst.
    cbn [splitWords]. rewrite isSpace_IsSpace, Hc.
    rewrite (splitWords_spaces sps Hs'). destruct cur; reflexivity.
  - cbn [app splitWords].
    destruct (isSpace (fst c)); destruct cur; rewrite IH; reflexivity.
Qed.

Lemma splitWords_after_space (cs1 : list chunk) (sp : chunk)
    (cs2 : list chunk) :
  IsSpace (fst sp) = true ->
  forall cur,
    splitWords (cs1 ++ sp :: cs2) cur
    = splitWords (cs1 ++ [sp]) cur ++ splitWords cs2 None.
Proof.
  intros Hs. induction cs1 as [|c cs1 IH]; intros cur.
  - cbn [app splitWords]. rewrite isSpace_IsSpace, Hs.
    destruct cur; reflexivity.
  - cbn [app splitWords].
    destruct (isSpace (fst c)); destruct cur; rewrite IH; reflexivity.
Qed.

Lemma splitWords_word (cs : list chunk) :
  Forall nonSpace cs ->
  forall w, splitWords cs (Some w) = [w ++ bytesOf cs].
Proof.
  induction 1 as [|c cs Hc _ IH]; intros w.
  - cbn. rewrite app_nil_r. reflexivity.
  - cbn [splitWords]. rewrite isSpace_IsSpace, Hc, IH.
    unfold bytesOf. cbn [map concat]. rewrite app_assoc. reflexivity.
Qed.

Lemma ScanWords_word (w : gostring) : isWord w -> ScanWords w = [w].
Proof.
  intros Hw. destruct (isWord_chunks w Hw) as (c & cs & E & Hall).
  unfold ScanWords. rewrite E. inversion Hall as [|? ? Hc Hcs]; subst.
  cbn [splitWords]. rewrite isSpace_IsSpace, Hc, (splitWords_word cs Hcs).
  change (snd c ++ bytesOf cs) with (bytesOf (c :: cs)).
  rewrite <- E, bytesOf_chunks. reflexivity.
Qed.

Lemma ScanWords_TrimRight (s : gostring) :
  ScanWords (TrimRightFunc s IsSpace) = ScanWords s.
Proof.
  unfold ScanWords. rewrite TrimRight_chunks.
  destruct (dropWhileChunk_split IsSpace (rev (chunks s))) as (d & E & Hd & _).
  assert (Es : chunks s = rev (dropWhileChunk IsSpace (rev (chunks s))) ++ rev d).
  { rewrite <- rev_app_distr, <- E, rev_involutive. reflexivity. }
  rewrite Es at 2. symmetry. apply splitWords_spaces_tail.
  apply Forall_rev. exact Hd.
Qed.

Lemma ScanWords_app_space (s : gostring) :
  ScanWords (s ++ str " ") = ScanWords s.
Proof.
  unfold ScanWords. rewrite (chunks_app s (str " ") space_clean), chunks_space.
  apply splitWords_spaces_tail. repeat constructor.
Qed.

(** The string is empty or ends with the separator. *)
Definition endsSpace (b : gostring) : Prop :=
  b = [] \/ exists b', b = b' ++ str " ".

Lemma endsSpace_endsAscii (b : gostring) : endsSpace b -> endsAscii b.
Proof.
  intros [->|(b' & ->)]; [left; reflexivity|].
  right. exists b', x20. split; [reflexivity|]. reflexivity.
Qed.

Lemma ScanWords_after_space (b x : gostring) :
  endsSpace b -> ScanWords (b ++ x) = ScanWords b ++ ScanWords x.
Proof.
  intros Hb. pose proof (endsSpace_endsAscii b Hb) as Ha.
  destruct Hb as [->|(b' & ->)]; [reflexivity|].
  unfold ScanWords. rewrite (chunks_app_endsAscii _ x Ha).
  rewrite (chunks_app b' (str " ") space_clean), chunks_space.
  rewrite <- app_assoc. cbn [app].
  apply splitWords_after_space. reflexivity.
Qed.

(** *** Words joined by single spaces *)

(** Every word followed by the separator, as the word loop builds the
    buffer. *)
Definition spaced (ws : list gostring) : gostring :=
  concat (map (fun w => w ++ str " ") ws).

(** The line [flushLine] writes for such a buffer. *)
Definition joined (ws : list gostring) : gostring :=
  TrimRightFunc (spaced ws) IsSpace.

Definition nonEnding (w : gostring) : Prop := endsSentence w = false.

(** No word but the last ends a sentence. *)
Definition sentOK (ws : list gostring) : Prop :=
  forall init last, ws = init ++ [last] -> Forall nonEnding init.

Lemma spaced_snoc (ws : list gostring) (w : gostring) :
  spaced (ws ++ [w]) = (spaced ws ++ w) ++ str " ".
Proof.
  unfold spaced. rewrite map_app, concat_app. cbn [map concat].
  rewrite app_nil_r, app_assoc. reflexivity.
Qed.

Lemma spaced_endsSpace (ws : list gostring) : endsSpace (spaced ws).
Proof.
  induction ws as [|w ws _] using rev_ind; [left; reflexivity|].
  right. rewrite spaced_snoc. eexists. reflexivity.
Qed.

Lemma spaced_nil (ws : list gostring) : spaced ws = [] -> ws = [].
Proof.
  destruct ws as [|w ws]; [reflexivity|]. unfold spaced. cbn [map concat].
  intros E. apply app_eq_nil in E. destruct E as [E _].
  apply app_eq_nil in E. destruct E as [_ E]. discriminate E.
Qed.

Lemma ScanWords_spaced (ws : list gostring) :
  Forall isWord ws -> ScanWords (spaced ws) = ws.
Proof.
  induction 1 as [|w ws Hw _ IH]; [reflexivity|].
  change (spaced (w :: ws)) with ((w ++ str " ") ++ spaced ws).
  rewrite ScanWords_after_space by (right; eexists; reflexivity).
  rewrite ScanWords_app_space, (ScanWords_word w Hw), IH. reflexivity.
Qed.

Lemma ScanWords_joined (ws : list gostring) :
  Forall isWord ws -> ScanWords (joined ws) = ws.
Proof.
  intros H. unfold joined. rewrite ScanWords_TrimRight.
  exact (ScanWords_spaced ws H).
Qed.

Lemma joined_snoc (ws : list gostring) (w : gostring) :
  TrimRightFunc (spaced ws ++ w) IsSpace = joined (ws ++ [w]).
Proof.
  unfold joined. rewrite spaced_snoc, TrimRight_app_space. reflexivity.
Qed.

Lemma sentOK_nonEnding (ws : list gostring) : Forall nonEnding ws -> sentOK ws.
Proof.
  intros H init last ->. apply Forall_app in H. exact (proj1 H).
Qed.

Lemma sentOK_snoc (ws : list gostring) (w : gostring) :
  Forall nonEnding ws -> sentOK (ws ++ [w]).
Proof.
  intros H init last E. apply app_inj_tail in E. destruct E as [<- _]. exact H.
Qed.

Lemma Forall_single {A : Type} (P : A -> Prop) (x : A) : P x -> Forall P [x].
Proof. intros H. constructor; [exact H|constructor]. Qed.

(** *** The invariant of a plain document *)

(** The output is a sequence of lines of joined words, the buffer holds
    words none of which ends a sentence, and together they are the words
    [W] read so far, in order. *)
Definition plainInv (W : list gostring) (g : fmtState) : Prop :=
  wf g /\ inCode g = false /\ typ (list_ g) = noList
  /\ exists groups bw,
       emitted g = map joined groups
       /\ Forall (Forall isWord) groups /\ Forall sentOK groups
       /\ Forall isWord bw /\ Forall nonEnding bw
       /\ newLine g = spaced bw
       /\ concat groups ++ bw = W.

Lemma plain_flushLine (W : list gostring) (g : fmtState) :
  plainInv W g -> plainInv W (flushLine g) /\ newLine (flushLine g) = [].
Proof.
  intros (Hg & Hic & Hno & groups & bw & Hem & Hgw & Hgs & Hbw & Hbn & Hnl & HW).
  split; [|reflexivity].
  split; [apply wf_flushLine, Hg|]. split; [exact Hic|]. split; [exact Hno|].
  exists (groups ++ [bw]), [].
  split.
  { unfold flushLine, Fprintln, emitted. cbn [out wlog].
    fold (emitted g). rewrite Hem, Hnl, map_app. reflexivity. }
  split; [apply Forall_app; split; [exact Hgw|apply Forall_single, Hbw]|].
  split; [apply Forall_app; split;
          [exact Hgs|apply Forall_single, sentOK_nonEnding, Hbn]|].
  split; [constructor|]. split; [constructor|]. split; [reflexivity|].
  rewrite concat_app. cbn [concat]. rewrite !app_nil_r. exact HW.
Qed.

Lemma plain_flushPending (W : list gostring) (g : fmtState) :
  plainInv W g -> plainInv W (flushPending g) /\ newLine (flushPending g) = [].
Proof.
  intros H. unfold flushPending.
  destruct (newLineRunes g =? 0) eqn:E; cbn [negb].
  - split; [exact H|]. destruct H as (Hg & _).
    apply (wf_empty g Hg), Z.eqb_eq, E.
  - apply plain_flushLine, H.
Qed.

Lemma plain_step (W : list gostring) (g : fmtState) (w : gostring) :
  isWord w -> plainInv W g ->
  plainInv (W ++ [w]) (fst (processWord g [] [] w))
  /\ snd (processWord g [] [] w) = [].
Proof.
  intros Hw (Hg & Hic & Hno & groups & bw & Hem & Hgw & Hgs & Hbw & Hbn & Hnl & HW).
  assert (Hnil : isAscii []) by constructor.
  destruct (processWord_wf g [] [] w Hg Hic Hnil Hnil)
    as (Hg' & Hic' & _ & Hl' & _).
  destruct (wf_nolist g Hg Hno) as (_ & _ & Hrest).
  assert (Hshape :
            exists groups0 bw0,
              logBefore g w = map joined groups0
              /\ lineBase g [] [] w = spaced bw0
              /\ Forall (Forall isWord) groups0 /\ Forall sentOK groups0
              /\ Forall isWord bw0 /\ Forall nonEnding bw0
              /\ concat groups0 ++ bw0 = W).
  { unfold logBefore, lineBase, startsLine.
    destruct (overflows g w) eqn:Eo.
    - exists (groups ++ [bw]), []. rewrite orb_true_r.
      split; [rewrite Hem, Hnl, map_app; reflexivity|].
      split; [reflexivity|].
      split; [apply Forall_app; split;
              [exact Hgw|apply Forall_single, Hbw]|].
      split; [apply Forall_app; split;
              [exact Hgs|apply Forall_single, sentOK_nonEnding, Hbn]|].
      split; [constructor|]. split; [constructor|].
      rewrite concat_app. cbn [concat]. rewrite !app_nil_r. exact HW.
    - exists groups, bw. rewrite orb_false_r, app_nil_r.
      split; [exact Hem|]. split; [|auto 7].
      destruct (newLineRunes g =? 0) eqn:E0; [|exact Hnl].
      apply Z.eqb_eq in E0. rewrite <- Hnl.
      symmetry. exact (wf_empty g Hg E0). }
  destruct Hshape as (groups0 & bw0 & Hlog & Hbase & Hgw0 & Hgs0 & Hbw0
                      & Hbn0 & HW0).
  rewrite (processWord_eq g [] [] w (wf_empty g Hg)) in *.
  cbn zeta in *. cbn [fst snd] in *.
  split; [|rewrite Hrest; destruct (_ && _); reflexivity].
  split; [exact Hg'|]. split; [exact Hic'|]. split; [congruence|].
  rewrite Hlog, Hbase. clear Hg' Hic' Hl'.
  destruct (endsSentence w) eqn:Ee; cbn [emitted out wlog newLine].
  - exists (groups0 ++ [bw0 ++ [w]]), [].
    split; [rewrite map_app, joined_snoc; reflexivity|].
    split; [apply Forall_app; split; [exact Hgw0|];
            apply Forall_single, Forall_app; split;
            [exact Hbw0|apply Forall_single, Hw]|].
    split; [apply Forall_app; split; [exact Hgs0|];
            apply Forall_single, sentOK_snoc, Hbn0|].
    split; [constructor|]. split; [constructor|]. split; [reflexivity|].
    rewrite concat_app. cbn [concat]. rewrite !app_nil_r, app_assoc, HW0.
    reflexivity.
  - exists groups0, (bw0 ++ [w]).
    split; [reflexivity|]. split; [exact Hgw0|]. split; [exact Hgs0|].
    split; [apply Forall_app; split; [exact Hbw0|apply Forall_single, Hw]|].
    split; [apply Forall_app; split; [exact Hbn0|apply Forall_single, Ee]|].
    split; [symmetry; apply spaced_snoc|].
    rewrite app_assoc, HW0. reflexivity.
Qed.

Lemma plain_wordLoop (words : list gostring) : forall W g,
  Forall isWord words -> plainInv W g ->
  plainInv (W ++ words) (wordLoop g [] [] words).
Proof.
  induction words as [|w words IH]; intros W g Hws Hg; cbn [wordLoop].
  - rewrite app_nil_r. exact Hg.
  - inversion Hws as [|? ? Hw Hws']; subst.
    destruct (plain_step W g w Hw Hg) as (H1 & H2).
    destruct (processWord g [] [] w) as [g1 lp1]. cbn [fst snd] in *.
    subst lp1. replace (W ++ w :: words) with ((W ++ [w]) ++ words)
      by (rewrite <- app_assoc; reflexivity).
    apply IH; assumption.
Qed.

Lemma blank_no_words (line : gostring) :
  isBlank line = true -> ScanWords line = [].
Proof.
  intros Hb. destruct (TrimSpace_span line) as (ws & rest & E & Hws & Hrest).
  destruct rest as [|c rest].
  - unfold ScanWords. rewrite E, app_nil_r. apply splitWords_spaces, Hws.
  - destruct Hrest as (_ & t & Ht). unfold isBlank in Hb.
    rewrite Ht in Hb. apply Nat.eqb_eq in Hb.
    pose proof (chunk_nonempty line c) as Hne.
    rewrite E in Hne. specialize (Hne (in_elt c ws rest)).
    rewrite length_app in Hb. destruct (snd c); [congruence|].
    cbn [length] in Hb. lia.
Qed.

Lemma plain_line (W : list gostring) (g : fmtState) (line : gostring) :
  plainProse line -> plainInv W g ->
  exists g', processLine g line = Some g'
             /\ plainInv (W ++ ScanWords line) g'.
Proof.
  intros Hp Hinv. pose proof Hinv as (Hg & Hic & Hno & _).
  rewrite (processLine_plain g line Hg Hic Hno Hp).
  eexists. split; [reflexivity|].
  destruct (isBlank line) eqn:Eb.
  - rewrite (blank_no_words line Eb), app_nil_r.
    destruct (plain_flushPending W g Hinv) as (H1 & Hn1).
    assert (H2 : plainInv W (setListState (flushPending g) zeroListState)).
    { destruct H1 as (Hg1 & Hic1 & Hno1 & Hrest1).
      split; [apply wf_setListState_zero, Hg1|].
      rewrite setListState_zero_eq. split; [exact Hic1|].
      split; [reflexivity|]. exact Hrest1. }
    apply plain_flushLine, H2.
  - apply plain_wordLoop; [|exact Hinv].
    apply Forall_forall. intros w. apply ScanWords_isWord.
Qed.

Lemma plain_lineLoop (lines : list gostring) : forall W g,
  Forall plainProse lines -> plainInv W g ->
  exists g', lineLoop g lines = Some g'
             /\ plainInv (W ++ concat (map ScanWords lines)) g'.
Proof.
  induction lines as [|line lines IH]; intros W g Hl Hg; cbn [lineLoop].
  - exists g. rewrite app_nil_r. auto.
  - inversion Hl as [|? ? Hp Hl']; subst.
    destruct (plain_line W g line Hp Hg) as (g1 & E & H1). rewrite E.
    destruct (IH _ g1 Hl' H1) as (g' & E' & H').
    exists g'. split; [exact E'|].
    cbn [map concat]. rewrite app_assoc. exact H'.
Qed.

(** The output of a plain document: lines of joined words. *)
Lemma plain_run (width : Z) (doc : list gostring) :
  Forall plainProse doc ->
  exists groups,
    run width doc = Some (map joined groups)
    /\ Forall (Forall isWord) groups /\ Forall sentOK groups
    /\ concat groups = concat (map ScanWords (scanned doc)).
Proof.
  intros Hdoc. apply scanned_plain in Hdoc. rewrite run_eq.
  assert (H0 : plainInv [] (newFmtState width (mkWriter [] None))).
  { split; [apply wf_new|]. split; [reflexivity|]. split; [reflexivity|].
    exists [], []. repeat split; constructor. }
  destruct (plain_lineLoop (scanned doc) [] _ Hdoc H0) as (g & E & Hg).
  rewrite E.
  destruct (plain_flushPending _ g Hg)
    as ((_ & _ & _ & groups & bw & Hem & Hgw & Hgs & _ & _ & Hnl & HW) & Hn).
  exists groups. split; [rewrite <- Hem; reflexivity|].
  split; [exact Hgw|]. split; [exact Hgs|].
  rewrite Hn in Hnl. symmetry in Hnl. apply spaced_nil in Hnl. subst bw.
  rewrite app_nil_r in HW. exact HW.
Qed.

Lemma ScanWords_dropCR (l : gostring) : ScanWords (dropCR l) = ScanWords l.
Proof.
  rewrite <- (ScanWords_TrimRight (dropCR l)), <- (ScanWords_TrimRight l).
  rewrite TrimRight_dropCR. reflexivity.
Qed.

Lemma ScanWords_joined_all (groups : list (list gostring)) :
  Forall (Forall isWord) groups ->
  concat (map ScanWords (map joined groups)) = concat groups.
Proof.
  induction 1 as [|ws groups Hws _ IH]; [reflexivity|].
  cbn [map concat]. rewrite (ScanWords_joined ws Hws), IH. reflexivity.
Qed.

(** On a document without code fences, quote markers and list markers, at
    any width: the run ends, and the words of the output, line after line,
    are the words of the lines the scanner delivers, line after line.  When
    every line of the input is shorter than the scanner's limit, these are
    the words of the input: no word is lost, added, split, joined to
    another or moved. *)
Theorem words_preserved (width : Z) (doc : list gostring) :
  Forall plainProse doc ->
  exists out,
    run width doc = Some out
    /\ concat (map ScanWords out)
       = concat (map ScanWords (tokens (mkReader doc None)))
    /\ (Forall scannable doc ->
        concat (map ScanWords out) = concat (map ScanWords doc)).
Proof.
  intros Hdoc.
  destruct (plain_run width doc Hdoc) as (groups & E & Hgw & _ & HW).
  exists (map joined groups). split; [exact E|].
  rewrite (ScanWords_joined_all groups Hgw), HW.
  split; [reflexivity|].
  intros Hs. rewrite (scanned_map doc Hs), map_map. f_equal.
  apply map_ext. exact ScanWords_dropCR.
Qed.

(** On such a document every output line is its words joined by single
    spaces: no leading whitespace, and every run of whitespace of the
    input, tabs included, has become one space or a line break. *)
Theorem single_spaced (width : Z) (doc out : list gostring) :
  Forall plainProse doc -> run width doc = Some out ->
  Forall (fun l =>
            l = TrimRightFunc
                  (concat (map (fun w => w ++ str " ") (ScanWords l)))
                  IsSpace)
    out.
Proof.
  intros Hdoc E.
  destruct (plain_run width doc Hdoc) as (groups & E' & Hgw & _ & _).
  rewrite E in E'. injection E' as ->. clear E.
  induction Hgw as [|ws groups Hws _ IH]; [constructor|].
  cbn [map]. constructor; [|exact IH].
  rewrite (ScanWords_joined ws Hws). reflexivity.
Qed.

(** On such a document a word that ends a sentence is the last word of its
    output line. *)
Theorem sentence_ends_line (width : Z) (doc out : list gostring) :
  Forall plainProse doc -> run width doc = Some out ->
  Forall (fun l =>
            forall init last,
              ScanWords l = init ++ [last] ->
              Forall (fun w => endsSentence w = false) init)
    out.
Proof.
  intros Hdoc E.
  destruct (plain_run width doc Hdoc) as (groups & E' & Hgw & Hgs & _).
  rewrite E in E'. injection E' as ->. clear E.
  induction Hgw as [|ws groups Hws _ IH]; [constructor|].
  inversion Hgs as [|? ? Hs Hgs']; subst.
  cbn [map]. constructor; [|exact (IH Hgs')].
  rewrite (ScanWords_joined ws Hws). exact Hs.
Qed.

(** ** Code blocks as a whole *)

Lemma blank_spaces (line : gostring) :
  isBlank line = true -> Forall (fun c => IsSpace (fst c) = true) (chunks line).
Proof.
  intros Hb. destruct (TrimSpace_span line) as (ws & rest & E & Hws & Hrest).
  destruct rest as [|c rest].
  - rewrite E, app_nil_r. exact Hws.
  - destruct Hrest as (_ & t & Ht). unfold isBlank in Hb.
    rewrite Ht in Hb. apply Nat.eqb_eq in Hb.
    pose proof (chunk_nonempty line c) as Hne.
    rewrite E in Hne. specialize (Hne (in_elt c ws rest)).
    rewrite length_app in Hb. destruct (snd c); [congruence|].
    cbn [length] in Hb. lia.
Qed.

Lemma blank_TrimRight (line : gostring) :
  isBlank line = true -> TrimRightFunc line IsSpace = [].
Proof.
  intros Hb.
  exact (eq_trans (TrimRight_app_spaces [] line eq_refl (blank_spaces line Hb))
           TrimRight_nil).
Qed.

(** One line inside a code block, blank or not. *)
Lemma code_step (f : fmtState) (line : gostring) :
  wf f -> inCode f = true -> isFence line = false ->
  exists f',
    processLine f line = Some f'
    /\ emitted f' = emitted f ++ [TrimRightFunc line IsSpace]
    /\ inCode f' = true.
Proof.
  intros H Hic Ef. destruct (wf_code f H Hic) as (Hn & _).
  assert (H0 : newLineRunes f = 0).
  { rewrite (wf_count f H), Hn. reflexivity. }
  unfold processLine. unfold isFence in Ef. rewrite Ef.
  destruct (length (TrimSpace line) =? 0)%nat eqn:Eb.
  - eexists. split; [reflexivity|].
    unfold flushPending. rewrite H0. cbn [Z.eqb negb].
    rewrite setListState_zero_eq. unfold flushLine, Fprintln, emitted.
    cbn [out wlog newLine inCode]. rewrite Hn, TrimRight_nil.
    rewrite (blank_TrimRight line Eb). auto.
  - rewrite Hic. eexists. split; [reflexivity|].
    rewrite flushLine_writeToLine. unfold emitted.
    cbn [out wlog inCode]. rewrite Hn. auto.
Qed.

Lemma code_lines (lines : list gostring) : forall f,
  wf f -> inCode f = true ->
  Forall (fun l => isFence l = false) lines ->
  exists f',
    lineLoop f lines = Some f'
    /\ emitted f'
       = emitted f ++ map (fun l => TrimRightFunc l IsSpace) lines
    /\ inCode f' = true /\ wf f'.
Proof.
  induction lines as [|line lines IH]; intros f H Hic Hl; cbn [lineLoop].
  - exists f. rewrite app_nil_r. auto.
  - inversion Hl as [|? ? Ef Hl']; subst.
    destruct (code_step f line H Hic Ef) as (f1 & E & Hem & Hic1).
    rewrite E. pose proof (processLine_wf f f1 line H E) as H1.
    destruct (IH f1 H1 Hic1 Hl') as (f' & E' & Hem' & Hic' & H').
    exists f'. split; [exact E'|]. split; [|auto].
    rewrite Hem', Hem, <- app_assoc. reflexivity.
Qed.

(** A code block passes through as a whole.  Inside a code block, lines
    that are not fences, blank lines included, are written one for one,
    each without its trailing whitespace and otherwise byte for byte,
    whatever the width; and a document that is one code block, an opening
    fence, such lines and a closing fence, each line shorter than the
    scanner's limit, comes out as the trimmed fences around those lines. *)
Theorem code_block_passthrough :
  (forall (f : fmtState) (lines : list gostring),
     reachable f -> inCode f = true ->
     Forall (fun l => isFence l = false) lines ->
     exists f',
       lineLoop f lines = Some f'
       /\ emitted f'
          = emitted f ++ map (fun l => TrimRightFunc l IsSpace) lines
       /\ inCode f' = true)
  /\ (forall (width : Z) (opening closing : gostring) (lines : list gostring),
        isFence opening = true -> isFence closing = true ->
        Forall (fun l => isFence l = false) lines ->
        Forall scannable (opening :: lines ++ [closing]) ->
        run width (opening :: lines ++ [closing])
        = Some (TrimSpace opening
                  :: map (fun l => TrimRightFunc l IsSpace) lines
                  ++ [TrimSpace closing])).
Proof.
  split.
  - intros f lines Hr Hic Hl.
    destruct (code_lines lines f (reachable_wf f Hr) Hic Hl)
      as (f' & E & Hem & Hic' & _).
    exists f'. auto.
  - intros width opening closing lines Ho Hc Hl Hs.
    rewrite run_eq, (scanned_map _ Hs). cbn [map]. rewrite map_app. cbn [map].
    rewrite <- (isFence_dropCR opening) in Ho.
    rewrite <- (isFence_dropCR closing) in Hc.
    assert (Hl' : Forall (fun l => isFence l = false) (map dropCR lines)).
    { apply Forall_map. apply Forall_impl with (2 := Hl).
      intros l El. rewrite isFence_dropCR. exact El. }
    rewrite <- (TrimSpace_dropCR opening), <- (TrimSpace_dropCR closing).
    replace (map (fun l => TrimRightFunc l IsSpace) lines)
      with (map (fun l => TrimRightFunc l IsSpace) (map dropCR lines))
      by (rewrite map_map; apply map_ext; exact TrimRight_dropCR).
    generalize dependent (map dropCR lines).
    generalize dependent (dropCR closing).
    generalize dependent (dropCR opening).
    clear opening closing lines Hl Hs.
    intros opening Ho closing Hc lines Hl.
    set (f0 := newFmtState width (mkWriter [] None)).
    destruct (fence_step f0 opening (wf_new _ _) Ho)
      as (f1 & E1 & Hic1 & _ & Hem1 & _).
    pose proof (processLine_wf f0 f1 opening (wf_new _ _) E1) as H1.
    cbn [lineLoop]. rewrite E1.
    change (inCode f0) with false in Hic1, Hem1. cbn [negb] in Hic1.
    change (pendingLine f0) with (@nil gostring) in Hem1.
    change (emitted f0) with (@nil gostring) in Hem1. cbn [app] in Hem1.
    destruct (code_lines lines f1 H1 Hic1 Hl) as (f2 & E2 & Hem2 & Hic2 & H2).
    rewrite lineLoop_app, E2. cbn [lineLoop].
    destruct (fence_step f2 closing H2 Hc) as (f3 & E3 & _ & Hn3 & Hem3 & _).
    rewrite E3. rewrite Hic2 in Hem3. cbn [app] in Hem3.
    pose proof (processLine_wf f2 f3 closing H2 E3) as H3.
    f_equal. rewrite flushPending_emitted, (pendingLine_empty f3 H3 Hn3).
    rewrite app_nil_r, Hem3, Hem2, Hem1. cbn [app]. reflexivity.
Qed.

(** ** The quote scan, complete *)

(** A rune the quote scan passes over: whitespace or a quote marker. *)
Definition quoteRune (c : chunk) : Prop :=
  IsSpace (fst c) = true \/ fst c = 0x3E.

(** The number of quote markers among the runes. *)
Definition markers (cs : list chunk) : Z :=
  Z.of_nat (length (filter (fun c => fst c =? 0x3E) cs)).

(** The encoded length of the runes. *)
Definition blen (cs : list chunk) : Z := Z.of_nat (length (bytesOf cs)).

(** The runes end with a quote marker. *)
Definition endsMarker (pre : list chunk) : Prop :=
  exists a g, pre = a ++ [g] /\ fst g = 0x3E.

(** The runes end with a quote marker and one whitespace rune. *)
Definition endsMarkerSpace (pre : list chunk) : Prop :=
  exists a g s, pre = a ++ [g; s] /\ fst g = 0x3E /\ IsSpace (fst s) = true.

(** What is left of the line when the scan stops: whitespace, none of it
    when the consumed prefix ends with a marker, and then the end of the
    line or a rune that is neither whitespace nor a marker. *)
Definition contentStart (onMarker : Prop) (post : list chunk) : Prop :=
  exists ws tail,
    post = ws ++ tail
    /\ Forall (fun c => IsSpace (fst c) = true) ws
    /\ match tail with
       | [] => True
       | c :: _ => IsSpace (fst c) = false /\ fst c <> 0x3E
       end
    /\ (onMarker -> ws = []).

Lemma blen_app (a b : list chunk) : blen (a ++ b) = blen a + blen b.
Proof. unfold blen. rewrite bytesOf_app, length_app. lia. Qed.

Lemma blen_single (c : chunk) : blen [c] = Z.of_nat (length (snd c)).
Proof. unfold blen, bytesOf. cbn [map concat]. rewrite app_nil_r. reflexivity. Qed.

Lemma markers_app (a b : list chunk) : markers (a ++ b) = markers a + markers b.
Proof. unfold markers. rewrite filter_app, length_app. apply Nat2Z.inj_add. Qed.

Lemma markers_spaces (sp : list chunk) :
  Forall (fun c => IsSpace (fst c) = true) sp -> markers sp = 0.
Proof.
  induction 1 as [|c sp Hc _ IH]; [reflexivity|].
  unfold markers in *. cbn [filter].
  destruct (fst c =? 0x3E) eqn:E; [|exact IH].
  apply Z.eqb_eq in E. rewrite E in Hc. discriminate Hc.
Qed.

Lemma markers_marker (c : chunk) : fst c = 0x3E -> markers [c] = 1.
Proof. intros E. unfold markers. cbn [filter]. rewrite E. reflexivity. Qed.

Lemma marker_width (c : chunk) :
  goodChunk c -> fst c = 0x3E -> length (snd c) = 1%nat.
Proof.
  intros Hc E. pose proof (good_range c Hc) as Hr. rewrite E in Hr.
  destruct Hr as [[_ Hk]|[[Hk _]|[[_ Hr]|[[_ Hr]|[_ Hr]]]]];
    first [exact Hk | lia].
Qed.

Lemma endsMarker_exclusive (pre : list chunk) :
  endsMarker pre -> pre = [] \/ endsMarkerSpace pre -> False.
Proof.
  intros (a & g & E & Hg) [->|(a' & g' & s' & E' & _ & Hs')].
  - exact (app_cons_not_nil _ _ _ E).
  - rewrite E in E'. change [g'; s'] with ([g'] ++ [s']) in E'.
    rewrite app_assoc in E'. apply app_inj_tail in E'. destruct E' as [_ ->].
    rewrite Hg in Hs'. discriminate Hs'.
Qed.

(** The scan from any point: [pre] is the consumed prefix so far, [sp] the
    whitespace read after it. *)
Lemma quoteLoop_shape (rest : list chunk) :
  Forall goodChunk rest ->
  forall (pre sp : list chunk) (consumed : bool) (bytes depth len : Z),
    Forall quoteRune pre ->
    Forall (fun c => IsSpace (fst c) = true) sp ->
    bytes = blen (pre ++ sp) -> depth = markers pre -> len = blen pre ->
    (consumed = false -> sp = [] /\ endsMarker pre) ->
    (consumed = true -> pre = [] \/ endsMarkerSpace pre) ->
    exists pre' post,
      pre ++ sp ++ rest = pre' ++ post
      /\ Forall quoteRune pre'
      /\ quoteLoop (map fst rest) bytes consumed depth len
         = (markers pre', blen pre')
      /\ (pre' = [] \/ endsMarker pre' \/ endsMarkerSpace pre')
      /\ contentStart (endsMarker pre') post.
Proof.
  induction 1 as [|c rest Hc _ IH];
    intros pre sp consumed bytes depth len Hpre Hsp Hb Hd Hl Hfalse Htrue.
  - exists pre, sp. rewrite app_nil_r. split; [reflexivity|].
    split; [exact Hpre|]. split; [cbn; subst; reflexivity|].
    split.
    + destruct consumed.
      * destruct (Htrue eq_refl); auto.
      * destruct (Hfalse eq_refl); auto.
    + exists sp, []. rewrite app_nil_r. split; [reflexivity|].
      split; [exact Hsp|]. split; [exact I|].
      intros Hm. destruct consumed.
      * exfalso. exact (endsMarker_exclusive pre Hm (Htrue eq_refl)).
      * exact (proj1 (Hfalse eq_refl)).
  - cbn [map quoteLoop]. destruct (IsSpace (fst c)) eqn:Es.
    + rewrite (space_RuneLen _ _ (good_range c Hc) Es).
      destruct consumed; cbn [negb].
      * destruct (IH pre (sp ++ [c]) true
                    (bytes + Z.of_nat (length (snd c))) depth len)
          as (pre' & post & E & H1 & H2 & H3 & H4); auto.
        -- apply Forall_app. split; [exact Hsp|]. apply Forall_single, Es.
        -- rewrite app_assoc, blen_app, blen_single, Hb. reflexivity.
        -- discriminate.
        -- exists pre', post. split; [|auto].
           rewrite <- E, <- app_assoc. reflexivity.
      * destruct (Hfalse eq_refl) as (-> & Hm).
        rewrite app_nil_r in Hb.
        destruct (IH (pre ++ [c]) [] true
                    (bytes + Z.of_nat (length (snd c))) depth
                    (bytes + Z.of_nat (length (snd c))))
          as (pre' & post & E & H1 & H2 & H3 & H4); auto.
        -- apply Forall_app. split; [exact Hpre|].
           apply Forall_single. left. exact Es.
        -- rewrite app_nil_r, blen_app, blen_single, Hb. reflexivity.
        -- rewrite markers_app, (markers_spaces [c]), Z.add_0_r;
             [exact Hd|apply Forall_single, Es].
        -- rewrite blen_app, blen_single, Hb. reflexivity.
        -- discriminate.
        -- intros _. right. destruct Hm as (a & g & -> & Hg).
           exists a, g, c. rewrite <- app_assoc. auto.
        -- exists pre', post. split; [|auto].
           rewrite <- E, <- app_assoc. reflexivity.
    + destruct (fst c =? 0x3E) eqn:Em.
      * apply Z.eqb_eq in Em.
        destruct (IH ((pre ++ sp) ++ [c]) [] false (bytes + 1) (depth + 1)
                    (bytes + 1))
          as (pre' & post & E & H1 & H2 & H3 & H4); auto.
        -- apply Forall_app. split; [apply Forall_app; split|].
           ++ exact Hpre.
           ++ apply Forall_impl with (2 := Hsp). intros x Hx. left. exact Hx.
           ++ apply Forall_single. right. exact Em.
        -- rewrite app_nil_r, blen_app, blen_single,
             (marker_width c Hc Em), Hb. reflexivity.
        -- rewrite !markers_app, (markers_spaces sp Hsp), (markers_marker c Em),
             Hd. lia.
        -- rewrite blen_app, blen_single, (marker_width c Hc Em), Hb.
           reflexivity.
        -- intros _. split; [reflexivity|]. exists (pre ++ sp), c. auto.
        -- discriminate.
        -- exists pre', post. split; [|auto].
           rewrite <- E, <- !app_assoc. reflexivity.
      * exists pre, (sp ++ c :: rest). split; [reflexivity|].
        split; [exact Hpre|]. split; [subst; reflexivity|].
        split.
        -- destruct consumed.
           ++ destruct (Htrue eq_refl); auto.
           ++ destruct (Hfalse eq_refl); auto.
        -- exists sp, (c :: rest). split; [reflexivity|].
           split; [exact Hsp|]. split.
           ++ split; [exact Es|]. apply Z.eqb_neq. exact Em.
           ++ intros Hm. destruct consumed.
              ** exfalso. exact (endsMarker_exclusive pre Hm (Htrue eq_refl)).
              ** exact (proj1 (Hfalse eq_refl)).
Qed.

(** The quote scan in full.  The line splits, on a rune boundary, into a
    consumed prefix and the rest.  The prefix is made of quote markers and
    whitespace only; the depth is the number of its markers and the length
    its number of bytes.  It is empty when the line has no marker before
    its first other rune; otherwise it ends with the last marker of the
    run or with the one whitespace rune that follows that marker: further
    whitespace is left to the rest, where it counts as list indentation.
    The rest, after its whitespace, does not begin with a marker; and it is
    the string the line is sliced to. *)
Theorem countQuoteDepth_spec (line : gostring) :
  exists pre post,
    chunks line = pre ++ post
    /\ Forall quoteRune pre
    /\ countQuoteDepth line = (markers pre, blen pre)
    /\ (pre = [] \/ endsMarker pre \/ endsMarkerSpace pre)
    /\ contentStart (endsMarker pre) post
    /\ afterQuote line = bytesOf post.
Proof.
  destruct (quoteLoop_shape (chunks line) (chunks_good line) [] [] true 0 0 0)
    as (pre & post & E & H1 & H2 & H3 & H4); auto; try discriminate.
  cbn [app] in E. exists pre, post.
  assert (Hq : countQuoteDepth line = (markers pre, blen pre)) by exact H2.
  split; [exact E|]. split; [exact H1|]. split; [exact Hq|].
  split; [exact H3|]. split; [exact H4|].
  unfold afterQuote. rewrite Hq. cbn [snd]. unfold blen. rewrite Nat2Z.id.
  rewrite <- (bytesOf_chunks line) at 1. rewrite E, bytesOf_app.
  rewrite skipn_app, skipn_all, Nat.sub_diag. reflexivity.
Qed.

(** ** Plain prose: wrapping twice *)

(** *** Where the lines of a wrapped document break *)

(** The word [w] does not fit after the words [a]: the test of the word
    loop on the buffer [spaced a]. *)
Definition over (width : Z) (a : list gostring) (w : gostring) : Prop :=
  runeCount (spaced a) + runeCount w > width.

(** Every word of the line but the first fitted when it was appended. *)
Definition fitsIn (width : Z) (ws : list gostring) : Prop :=
  forall a w b, ws = a ++ w :: b -> a <> [] ->
                runeCount (spaced a) + runeCount w <= width.

(** The last word of the line ends a sentence. *)
Definition lastEnds (g : list gostring) : bool := endsSentence (last g []).

(** After this line the buffer is empty whatever comes next. *)
Definition closedEnd (g : list gostring) : Prop := g = [] \/ lastEnds g = true.

(** The line [g2] may come after the line [g1]: a blank line always may;
    words may after a blank line, after a sentence end, or when the first
    of them did not fit. *)
Definition canFollow (width : Z) (g1 g2 : list gostring) : Prop :=
  match g2 with
  | [] => True
  | w :: _ => closedEnd g1 \/ over width g1 w
  end.

Fixpoint chain (width : Z) (gs : list (list gostring)) : Prop :=
  match gs with
  | g1 :: (g2 :: _) as rest => canFollow width g1 g2 /\ chain width rest
  | _ => True
  end.

(** The lines of a wrapped document, as lists of words. *)
Definition wrapped (width : Z) (groups : list (list gostring)) : Prop :=
  Forall (Forall isWord) groups /\ Forall sentOK groups
  /\ Forall (fitsIn width) groups /\ chain width groups.

(** What the pending buffer may hold after the lines [groups]. *)
Definition nextOK (width : Z) (groups : list (list gostring))
    (bw : list gostring) : Prop :=
  match bw with
  | [] => closedEnd (last groups [])
  | _ :: _ => canFollow width (last groups []) bw
  end.

Lemma chain_snoc (width : Z) (gs : list (list gostring)) (g : list gostring) :
  chain width gs -> canFollow width (last gs []) g -> chain width (gs ++ [g]).
Proof.
  induction gs as [|g1 gs IH]; [intros; exact I|].
  destruct gs as [|g2 gs].
  - intros _ H. cbn [app chain last] in *. auto.
  - intros [H1 H2] H. cbn [app chain]. split; [exact H1|].
    apply IH; [exact H2|exact H].
Qed.

Lemma canFollow_snoc (width : Z) (groups : list (list gostring))
    (bw : list gostring) (w : gostring) :
  nextOK width groups bw -> canFollow width (last groups []) (bw ++ [w]).
Proof.
  destruct bw as [|x bw]; cbn [nextOK app canFollow]; auto.
Qed.

Lemma nextOK_snoc (width : Z) (groups : list (list gostring))
    (bw : list gostring) (w : gostring) :
  nextOK width groups bw -> nextOK width groups (bw ++ [w]).
Proof.
  intros H. pose proof (canFollow_snoc width groups bw w H) as H'.
  destruct bw; exact H'.
Qed.

Lemma fitsIn_single (width : Z) (w : gostring) : fitsIn width [w].
Proof.
  intros a x b E Ha. destruct a as [|y a]; [congruence|].
  destruct a; discriminate E.
Qed.

Lemma fitsIn_nil (width : Z) : fitsIn width [].
Proof. intros a x b E. destruct a; discriminate E. Qed.

Lemma snoc_split {A : Type} (bw a b : list A) (w x : A) :
  bw ++ [w] = a ++ x :: b ->
  (exists b', b = b' ++ [w] /\ bw = a ++ x :: b')
  \/ (a = bw /\ x = w /\ b = []).
Proof.
  revert bw. induction a as [|y a IH]; intros bw E.
  - destruct bw as [|z bw]; cbn [app] in E.
    + injection E as -> <-. right. auto.
    + injection E as -> E. left. exists bw. auto.
  - destruct bw as [|z bw]; cbn [app] in E.
    + injection E as _ E. destruct a; discriminate E.
    + injection E as -> E. destruct (IH bw E) as [(b' & -> & ->)|(-> & -> & ->)].
      * left. exists b'. auto.
      * right. auto.
Qed.

Lemma fitsIn_snoc (width : Z) (bw : list gostring) (w : gostring) :
  fitsIn width bw ->
  (bw <> [] -> runeCount (spaced bw) + runeCount w <= width) ->
  fitsIn width (bw ++ [w]).
Proof.
  intros Hf Hw a x b E Ha.
  destruct (snoc_split bw a b w x E) as [(b' & -> & E')|(-> & -> & ->)].
  - exact (Hf a x b' E' Ha).
  - exact (Hw Ha).
Qed.

Lemma lastEnds_snoc (bw : list gostring) (w : gostring) :
  lastEnds (bw ++ [w]) = endsSentence w.
Proof. unfold lastEnds. rewrite last_last. reflexivity. Qed.

(** *** The first run *)

(** The state of the engine on a plain document, with the lines written
    and the words pending made explicit. *)
Definition plainAt (g : fmtState) (groups : list (list gostring))
    (bw : list gostring) : Prop :=
  wf g /\ inCode g = false /\ typ (list_ g) = noList
  /\ emitted g = map joined groups
  /\ Forall (Forall isWord) groups /\ Forall sentOK groups
  /\ Forall isWord bw /\ Forall nonEnding bw
  /\ newLine g = spaced bw.

Lemma plainAt_count (g : fmtState) (groups : list (list gostring))
    (bw : list gostring) :
  plainAt g groups bw ->
  newLineRunes g = runeCount (spaced bw)
  /\ (bw = [] <-> newLineRunes g = 0).
Proof.
  intros (Hg & _ & _ & _ & _ & _ & _ & _ & Hnl).
  split; [rewrite (wf_count g Hg), Hnl; reflexivity|].
  split.
  - intros ->. rewrite (wf_count g Hg), Hnl. reflexivity.
  - intros E. apply spaced_nil. rewrite <- Hnl. exact (wf_empty g Hg E).
Qed.

Lemma plainAt_step (g : fmtState) (groups : list (list gostring))
    (bw : list gostring) (w : gostring) :
  isWord w -> plainAt g groups bw ->
  snd (processWord g [] [] w) = []
  /\ charsPerLine (fst (processWord g [] [] w)) = charsPerLine g
  /\ exists groups0 bw0,
       ((overflows g w = true /\ groups0 = groups ++ [bw] /\ bw0 = [])
        \/ (overflows g w = false /\ groups0 = groups /\ bw0 = bw))
       /\ (if endsSentence w
           then plainAt (fst (processWord g [] [] w))
                  (groups0 ++ [bw0 ++ [w]]) []
           else plainAt (fst (processWord g [] [] w)) groups0 (bw0 ++ [w])).
Proof.
  intros Hw Hat.
  pose proof Hat as (Hg & Hic & Hno & Hem & Hgw & Hgs & Hbw & Hbn & Hnl).
  assert (Hnil : isAscii []) by constructor.
  destruct (processWord_wf g [] [] w Hg Hic Hnil Hnil)
    as (Hg' & Hic' & _ & Hl' & _).
  destruct (wf_nolist g Hg Hno) as (_ & _ & Hrest).
  assert (Hshape :
            exists groups0 bw0,
              ((overflows g w = true /\ groups0 = groups ++ [bw] /\ bw0 = [])
               \/ (overflows g w = false /\ groups0 = groups /\ bw0 = bw))
              /\ logBefore g w = map joined groups0
              /\ lineBase g [] [] w = spaced bw0
              /\ Forall (Forall isWord) groups0 /\ Forall sentOK groups0
              /\ Forall isWord bw0 /\ Forall nonEnding bw0).
  { unfold logBefore, lineBase, startsLine.
    destruct (overflows g w) eqn:Eo.
    - exists (groups ++ [bw]), []. rewrite orb_true_r.
      split; [left; auto|].
      split; [rewrite Hem, Hnl, map_app; reflexivity|].
      split; [reflexivity|].
      split; [apply Forall_app; split; [exact Hgw|apply Forall_single, Hbw]|].
      split; [apply Forall_app; split;
              [exact Hgs|apply Forall_single, sentOK_nonEnding, Hbn]|].
      split; constructor.
    - exists groups, bw. rewrite orb_false_r, app_nil_r.
      split; [right; auto|].
      split; [exact Hem|]. split; [|auto].
      destruct (newLineRunes g =? 0) eqn:E0; [|exact Hnl].
      apply Z.eqb_eq in E0. rewrite <- Hnl.
      symmetry. exact (wf_empty g Hg E0). }
  destruct Hshape as (groups0 & bw0 & Hcase & Hlog & Hbase & Hgw0 & Hgs0
                      & Hbw0 & Hbn0).
  rewrite (processWord_eq g [] [] w (wf_empty g Hg)) in *.
  cbn zeta in *. cbn [fst snd] in *.
  split; [rewrite Hrest; destruct (_ && _); reflexivity|].
  split; [destruct (endsSentence w); reflexivity|].
  exists groups0, bw0. split; [exact Hcase|].
  rewrite Hlog, Hbase in *. clear Hcase.
  destruct (endsSentence w) eqn:Ee.
  - split; [exact Hg'|]. split; [exact Hic'|]. split; [congruence|].
    cbn [emitted out wlog newLine].
    split; [rewrite map_app, joined_snoc; reflexivity|].
    split; [apply Forall_app; split; [exact Hgw0|];
            apply Forall_single, Forall_app; split;
            [exact Hbw0|apply Forall_single, Hw]|].
    split; [apply Forall_app; split; [exact Hgs0|];
            apply Forall_single, sentOK_snoc, Hbn0|].
    split; [constructor|]. split; [constructor|]. reflexivity.
  - split; [exact Hg'|]. split; [exact Hic'|]. split; [congruence|].
    cbn [emitted out wlog newLine].
    split; [reflexivity|]. split; [exact Hgw0|]. split; [exact Hgs0|].
    split; [apply Forall_app; split; [exact Hbw0|apply Forall_single, Hw]|].
    split; [apply Forall_app; split; [exact Hbn0|apply Forall_single, Ee]|].
    symmetry. apply spaced_snoc.
Qed.

(** The invariant of the first run: the lines written are wrapped lines,
    and the buffer continues them. *)
Definition wrapInv (width : Z) (g : fmtState) (groups : list (list gostring))
    (bw : list gostring) : Prop :=
  plainAt g groups bw /\ charsPerLine g = width
  /\ Forall (fitsIn width) groups /\ fitsIn width bw
  /\ chain width groups /\ nextOK width groups bw.

Lemma wrap_step (width : Z) (g : fmtState) (groups : list (list gostring))
    (bw : list gostring) (w : gostring) :
  isWord w -> wrapInv width g groups bw ->
  snd (processWord g [] [] w) = []
  /\ exists groups' bw',
       wrapInv width (fst (processWord g [] [] w)) groups' bw'.
Proof.
  intros Hw (Hat & Hcpl & Hfg & Hfb & Hch & Hnext).
  destruct (plainAt_count g groups bw Hat) as (Hcount & Hzero).
  destruct (plainAt_step g groups bw w Hw Hat)
    as (Hsnd & Hcpl' & groups0 & bw0 & Hcase & Hres).
  split; [exact Hsnd|]. rewrite Hcpl in Hcpl'.
  assert (H0 : Forall (fitsIn width) groups0 /\ chain width groups0
               /\ fitsIn width (bw0 ++ [w])
               /\ canFollow width (last groups0 []) (bw0 ++ [w])).
  { destruct Hcase as [(Eo & -> & ->)|(Eo & -> & ->)].
    - unfold overflows in Eo. apply andb_true_iff in Eo.
      destruct Eo as [Enz Egt]. apply negb_true_iff, Z.eqb_neq in Enz.
      assert (Hbne : bw <> []) by (intros E; apply Enz, Hzero, E).
      assert (Hover : over width bw w).
      { unfold over. rewrite <- Hcount, <- Hcpl. lia. }
      split; [apply Forall_app; split; [exact Hfg|apply Forall_single, Hfb]|].
      split.
      { apply chain_snoc; [exact Hch|].
        destruct bw; [congruence|exact Hnext]. }
      split; [apply fitsIn_single|].
      rewrite last_last. cbn [app canFollow]. right. exact Hover.
    - split; [exact Hfg|]. split; [exact Hch|].
      split; [|apply canFollow_snoc, Hnext].
      apply fitsIn_snoc; [exact Hfb|]. intros Hbne.
      assert (Enz : (newLineRunes g =? 0) = false).
      { apply Z.eqb_neq. intros E. apply Hbne, Hzero, E. }
      unfold overflows in Eo. rewrite Enz in Eo. cbn [negb andb] in Eo.
      rewrite <- Hcount, <- Hcpl. lia. }
  destruct H0 as (Hfg0 & Hch0 & Hfw & Hcf).
  destruct (endsSentence w) eqn:Ee.
  - exists (groups0 ++ [bw0 ++ [w]]), [].
    split; [exact Hres|]. split; [exact Hcpl'|].
    split; [apply Forall_app; split; [exact Hfg0|apply Forall_single, Hfw]|].
    split; [apply fitsIn_nil|].
    split; [apply chain_snoc; assumption|].
    cbn [nextOK]. rewrite last_last. right. rewrite lastEnds_snoc. exact Ee.
  - exists groups0, (bw0 ++ [w]).
    split; [exact Hres|]. split; [exact Hcpl'|].
    split; [exact Hfg0|]. split; [exact Hfw|]. split; [exact Hch0|].
    destruct bw0; exact Hcf.
Qed.

Lemma wrap_wordLoop (width : Z) (words : list gostring) :
  forall g groups bw,
    Forall isWord words -> wrapInv width g groups bw ->
    exists groups' bw', wrapInv width (wordLoop g [] [] words) groups' bw'.
Proof.
  induction words as [|w words IH]; intros g groups bw Hws Hg; cbn [wordLoop].
  - exists groups, bw. exact Hg.
  - inversion Hws as [|? ? Hw Hws']; subst.
    destruct (wrap_step width g groups bw w Hw Hg) as (Hs & groups1 & bw1 & H1).
    destruct (processWord g [] [] w) as [g1 lp1]. cbn [fst snd] in *.
    subst lp1. exact (IH g1 groups1 bw1 Hws' H1).
Qed.

(** The pending words, as the line they are flushed to, if any. *)
Definition pendingGroup (bw : list gostring) : list (list gostring) :=
  match bw with [] => [] | _ :: _ => [bw] end.

Lemma wrap_flushPending (width : Z) (g : fmtState)
    (groups : list (list gostring)) (bw : list gostring) :
  wrapInv width g groups bw ->
  plainAt (flushPending g) (groups ++ pendingGroup bw) []
  /\ charsPerLine (flushPending g) = width
  /\ Forall (fitsIn width) (groups ++ pendingGroup bw)
  /\ chain width (groups ++ pendingGroup bw).
Proof.
  intros (Hat & Hcpl & Hfg & Hfb & Hch & Hnext).
  destruct (plainAt_count g groups bw Hat) as (_ & Hzero).
  pose proof Hat as (Hg & Hic & Hno & Hem & Hgw & Hgs & Hbw & Hbn & Hnl).
  unfold flushPending. destruct (newLineRunes g =? 0) eqn:E; cbn [negb].
  - apply Z.eqb_eq in E. apply Hzero in E. subst bw.
    cbn [pendingGroup]. rewrite app_nil_r. auto.
  - assert (Hbne : bw <> []).
    { intros Eb. apply Hzero in Eb. rewrite Eb in E. discriminate E. }
    assert (Ep : pendingGroup bw = [bw]) by (destruct bw; [congruence|reflexivity]).
    rewrite Ep.
    split; [|split; [exact Hcpl|split]].
    + split; [apply wf_flushLine, Hg|]. split; [exact Hic|].
      split; [exact Hno|].
      split.
      { unfold flushLine, Fprintln, emitted. cbn [out wlog].
        fold (emitted g). rewrite Hem, Hnl, map_app. reflexivity. }
      split; [apply Forall_app; split; [exact Hgw|apply Forall_single, Hbw]|].
      split; [apply Forall_app; split;
              [exact Hgs|apply Forall_single, sentOK_nonEnding, Hbn]|].
      split; [constructor|]. split; [constructor|]. reflexivity.
    + apply Forall_app. split; [exact Hfg|apply Forall_single, Hfb].
    + apply chain_snoc; [exact Hch|]. destruct bw; [congruence|exact Hnext].
Qed.

Lemma wrap_line (width : Z) (g : fmtState) (groups : list (list gostring))
    (bw : list gostring) (line : gostring) :
  plainProse line -> wrapInv width g groups bw ->
  exists g' groups' bw',
    processLine g line = Some g' /\ wrapInv width g' groups' bw'.
Proof.
  intros Hp Hinv.
  pose proof Hinv as ((Hg & Hic & Hno & _) & _).
  rewrite (processLine_plain g line Hg Hic Hno Hp).
  destruct (isBlank line) eqn:Eb.
  - destruct (wrap_flushPending width g groups bw Hinv)
      as (Hat & Hcpl & Hfg & Hch).
    pose proof Hat as (Hg1 & Hic1 & Hno1 & Hem1 & Hgw1 & Hgs1 & _ & _ & Hnl1).
    eexists. exists ((groups ++ pendingGroup bw) ++ [[]]), [].
    split; [reflexivity|].
    rewrite setListState_zero_eq.
    split; [|split; [exact Hcpl|split; [|split; [apply fitsIn_nil|split]]]].
    + split.
      { apply wf_flushLine. rewrite <- setListState_zero_eq.
        apply wf_setListState_zero, Hg1. }
      split; [exact Hic1|]. split; [reflexivity|].
      split.
      { unfold flushLine, Fprintln, emitted. cbn [out wlog newLine].
        fold (emitted (flushPending g)).
        rewrite (map_app joined (groups ++ pendingGroup bw) [[]]), Hem1, Hnl1.
        reflexivity. }
      split; [apply Forall_app; split; [exact Hgw1|apply Forall_single];
              constructor|].
      split; [apply Forall_app; split; [exact Hgs1|apply Forall_single];
              apply sentOK_nonEnding; constructor|].
      split; [constructor|]. split; [constructor|]. reflexivity.
    + apply Forall_app. split; [exact Hfg|apply Forall_single, fitsIn_nil].
    + apply chain_snoc; [exact Hch|exact I].
    + cbn [nextOK]. rewrite last_last. left. reflexivity.
  - destruct (wrap_wordLoop width (ScanWords line) g groups bw)
      as (groups' & bw' & H'); [|exact Hinv|].
    + apply Forall_forall. intros w. apply ScanWords_isWord.
    + eexists. exists groups', bw'. split; [reflexivity|exact H'].
Qed.

Lemma wrap_lineLoop (width : Z) (lines : list gostring) :
  forall g groups bw,
    Forall plainProse lines -> wrapInv width g groups bw ->
    exists g' groups' bw',
      lineLoop g lines = Some g' /\ wrapInv width g' groups' bw'.
Proof.
  induction lines as [|line lines IH]; intros g groups bw Hl Hg;
    cbn [lineLoop].
  - exists g, groups, bw. auto.
  - inversion Hl as [|? ? Hp Hl']; subst.
    destruct (wrap_line width g groups bw line Hp Hg)
      as (g1 & groups1 & bw1 & E & H1).
    rewrite E. exact (IH g1 groups1 bw1 Hl' H1).
Qed.

(** The output of a plain document is a wrapped document. *)
Lemma wrap_run (width : Z) (doc : list gostring) :
  Forall plainProse doc ->
  exists groups,
    run width doc = Some (map joined groups) /\ wrapped width groups.
Proof.
  intros Hdoc. apply scanned_plain in Hdoc. rewrite run_eq.
  assert (H0 : wrapInv width (newFmtState width (mkWriter [] None)) [] []).
  { split.
    - split; [apply wf_new|]. repeat split; constructor.
    - split; [reflexivity|]. split; [constructor|].
      split; [apply fitsIn_nil|]. split; [exact I|]. left. reflexivity. }
  destruct (wrap_lineLoop width (scanned doc) _ [] [] Hdoc H0)
    as (g & groups & bw & E & Hg).
  rewrite E.
  destruct (wrap_flushPending width g groups bw Hg)
    as ((_ & _ & _ & Hem & Hgw & Hgs & _) & _ & Hfg & Hch).
  exists (groups ++ pendingGroup bw).
  split; [rewrite <- Hem; reflexivity|]. repeat split; assumption.
Qed.

(** *** The second run *)

(** The words left in the buffer after the line [g] has been read from an
    empty buffer. *)
Definition pend (g : list gostring) : list gostring :=
  if lastEnds g then [] else g.

(** The line written at once when [g] has been read. *)
Definition doneGroup (g : list gostring) : list (list gostring) :=
  if lastEnds g then [g] else [].

Lemma lastEnds_nonEnding (a : list gostring) :
  Forall nonEnding a -> lastEnds a = false.
Proof.
  intros H. destruct a as [|x a] using rev_ind; [reflexivity|].
  rewrite lastEnds_snoc. apply Forall_app in H. destruct H as [_ H].
  inversion H; assumption.
Qed.

Lemma sentOK_open (g : list gostring) :
  sentOK g -> lastEnds g = false -> Forall nonEnding g.
Proof.
  intros Hs He. destruct g as [|x g _] using rev_ind; [constructor|].
  rewrite lastEnds_snoc in He. apply Forall_app.
  split; [exact (Hs g x eq_refl)|apply Forall_single, He].
Qed.

Lemma pend_nonEnding (g : list gostring) : sentOK g -> Forall nonEnding (pend g).
Proof.
  intros Hs. unfold pend. destruct (lastEnds g) eqn:E; [constructor|].
  exact (sentOK_open g Hs E).
Qed.

Lemma pend_done (g : list gostring) : doneGroup g ++ pendingGroup (pend g) = [g]
                                      \/ g = [].
Proof.
  unfold doneGroup, pend. destruct (lastEnds g); [left; reflexivity|].
  destruct g; [right; reflexivity|left; reflexivity].
Qed.

Lemma plainAt_flushPending (g : fmtState) (groups : list (list gostring))
    (bw : list gostring) :
  plainAt g groups bw ->
  plainAt (flushPending g) (groups ++ pendingGroup bw) []
  /\ charsPerLine (flushPending g) = charsPerLine g.
Proof.
  intros Hat. destruct (plainAt_count g groups bw Hat) as (_ & Hzero).
  pose proof Hat as (Hg & Hic & Hno & Hem & Hgw & Hgs & Hbw & Hbn & Hnl).
  unfold flushPending. destruct (newLineRunes g =? 0) eqn:E; cbn [negb].
  - apply Z.eqb_eq in E. apply Hzero in E. subst bw.
    cbn [pendingGroup]. rewrite app_nil_r. auto.
  - assert (Hbne : bw <> []).
    { intros Eb. apply Hzero in Eb. rewrite Eb in E. discriminate E. }
    assert (Ep : pendingGroup bw = [bw])
      by (destruct bw; [congruence|reflexivity]).
    rewrite Ep. split; [|reflexivity].
    split; [apply wf_flushLine, Hg|]. split; [exact Hic|].
    split; [exact Hno|].
    split.
    { unfold flushLine, Fprintln, emitted. cbn [out wlog].
      fold (emitted g). rewrite Hem, Hnl, map_app. reflexivity. }
    split; [apply Forall_app; split; [exact Hgw|apply Forall_single, Hbw]|].
    split; [apply Forall_app; split;
            [exact Hgs|apply Forall_single, sentOK_nonEnding, Hbn]|].
    split; [constructor|]. split; [constructor|]. reflexivity.
Qed.

Lemma plainAt_blank (g : fmtState) (groups : list (list gostring))
    (bw : list gostring) :
  plainAt g groups bw ->
  plainAt (flushLine (setListState (flushPending g) zeroListState))
    ((groups ++ pendingGroup bw) ++ [[]]) []
  /\ charsPerLine (flushLine (setListState (flushPending g) zeroListState))
     = charsPerLine g.
Proof.
  intros Hat. destruct (plainAt_flushPending g groups bw Hat) as (H1 & Hcpl).
  pose proof H1 as (Hg1 & Hic1 & Hno1 & Hem1 & Hgw1 & Hgs1 & _ & _ & Hnl1).
  rewrite setListState_zero_eq. split; [|exact Hcpl].
  split.
  { apply wf_flushLine. rewrite <- setListState_zero_eq.
    apply wf_setListState_zero, Hg1. }
  split; [exact Hic1|]. split; [reflexivity|].
  split.
  { unfold flushLine, Fprintln, emitted. cbn [out wlog newLine].
    fold (emitted (flushPending g)).
    rewrite (map_app joined (groups ++ pendingGroup bw) [[]]), Hem1, Hnl1.
    reflexivity. }
  split; [apply Forall_app; split; [exact Hgw1|apply Forall_single];
          constructor|].
  split; [apply Forall_app; split; [exact Hgs1|apply Forall_single];
          apply sentOK_nonEnding; constructor|].
  split; [constructor|]. split; [constructor|]. reflexivity.
Qed.

(** The words of a wrapped line after its first, read into the buffer that
    holds the words [a] before them: none overflows, and only the last can
    end a sentence. *)
Lemma replay_tail (width : Z) (b : list gostring) :
  forall (a : list gostring) (h : fmtState) (E : list (list gostring)),
    plainAt h E a -> charsPerLine h = width -> a <> [] ->
    fitsIn width (a ++ b) -> sentOK (a ++ b) -> Forall isWord b ->
    plainAt (wordLoop h [] [] b) (E ++ doneGroup (a ++ b)) (pend (a ++ b))
    /\ charsPerLine (wordLoop h [] [] b) = width.
Proof.
  induction b as [|x b IH]; intros a h E Hat Hcpl Ha Hfit Hs Hb;
    cbn [wordLoop].
  - rewrite app_nil_r. split; [|exact Hcpl].
    pose proof Hat as (_ & _ & _ & _ & _ & _ & _ & Hbn & _).
    unfold doneGroup, pend. rewrite (lastEnds_nonEnding a Hbn), app_nil_r.
    exact Hat.
  - pose proof (Forall_inv Hb) as Hx. pose proof (Forall_inv_tail Hb) as Hb'.
    destruct (plainAt_count h E a Hat) as (Hcount & Hzero).
    assert (Eo : overflows h x = false).
    { unfold overflows. pose proof (Hfit a x b eq_refl Ha) as Hle.
      rewrite <- Hcount in Hle.
      destruct (newLineRunes h + runeCount x >? charsPerLine h) eqn:Egt;
        [lia|apply andb_false_r]. }
    destruct (plainAt_step h E a x Hx Hat)
      as (Hsnd & Hcpl' & groups0 & bw0 & Hcase & Hres).
    destruct Hcase as [(Eo' & _)|(_ & -> & ->)]; [congruence|].
    destruct (processWord h [] [] x) as [h1 lp1]. cbn [fst snd] in *.
    subst lp1. rewrite Hcpl in Hcpl'.
    destruct (endsSentence x) eqn:Ee.
    + assert (Eb : b = []).
      { destruct b as [|y b _] using rev_ind; [reflexivity|]. exfalso.
        pose proof (Hs (a ++ x :: b) y) as Hinit.
        rewrite <- app_assoc in Hinit. specialize (Hinit eq_refl).
        apply Forall_app in Hinit. destruct Hinit as [_ Hinit].
        pose proof (Forall_inv Hinit) as Hne. unfold nonEnding in Hne.
        congruence. }
      subst b. cbn [wordLoop]. split; [|exact Hcpl'].
      unfold doneGroup, pend. rewrite lastEnds_snoc, Ee. exact Hres.
    + replace (a ++ x :: b) with ((a ++ [x]) ++ b) in *
        by (rewrite <- app_assoc; reflexivity).
      apply IH; auto. destruct a; discriminate.
Qed.

(** The state of the second run after the lines [P]. *)
Definition replayInv (width : Z) (h : fmtState) (P : list (list gostring))
    : Prop :=
  exists E,
    plainAt h E (pend (last P [])) /\ charsPerLine h = width
    /\ E ++ pendingGroup (pend (last P [])) = P.

Lemma joined_blank (g : list gostring) :
  Forall isWord g -> isBlank (joined g) = true -> g = [].
Proof.
  intros Hg Hb. rewrite <- (ScanWords_joined g Hg).
  exact (blank_no_words _ Hb).
Qed.

Lemma replay_line (width : Z) (h : fmtState) (P : list (list gostring))
    (g : list gostring) :
  replayInv width h P ->
  Forall isWord g -> sentOK g -> fitsIn width g ->
  canFollow width (last P []) g -> plainProse (joined g) ->
  exists h', processLine h (joined g) = Some h'
             /\ replayInv width h' (P ++ [g]).
Proof.
  intros (E & Hat & Hcpl & HP) Hgw Hgs Hgf Hcf Hp.
  pose proof Hat as (Hh & Hic & Hno & _).
  rewrite (processLine_plain h (joined g) Hh Hic Hno Hp).
  eexists. split; [reflexivity|]. unfold replayInv. rewrite last_last.
  destruct (isBlank (joined g)) eqn:Eb.
  - rewrite (joined_blank g Hgw Eb).
    destruct (plainAt_blank h E _ Hat) as (H1 & Hcpl1).
    rewrite HP in H1. exists (P ++ [[]]).
    split; [exact H1|]. split; [congruence|]. apply app_nil_r.
  - rewrite (ScanWords_joined g Hgw).
    destruct g as [|w ws]; [discriminate Eb|].
    pose proof (Forall_inv Hgw) as Hw. pose proof (Forall_inv_tail Hgw) as Hws.
    cbn [wordLoop].
    destruct (plainAt_count h E _ Hat) as (Hcount & Hzero).
    destruct (plainAt_step h E _ w Hw Hat)
      as (Hsnd & Hcpl' & groups0 & bw0 & Hcase & Hres).
    assert (H0 : groups0 = P /\ bw0 = []).
    { destruct Hcase as [(Eo & -> & ->)|(Eo & -> & ->)].
      - split; [|reflexivity].
        transitivity (E ++ pendingGroup (pend (last P []))); [|exact HP].
        f_equal. destruct (pend (last P [])); [exfalso|reflexivity].
        unfold overflows in Eo. rewrite (proj1 Hzero eq_refl) in Eo.
        discriminate Eo.
      - assert (Hpe : pend (last P []) = []).
        { destruct (pend (last P [])) as [|y p] eqn:Epend; [reflexivity|].
          exfalso. cbn [canFollow] in Hcf.
          unfold pend in Epend.
          destruct (lastEnds (last P [])) eqn:El; [discriminate Epend|].
          destruct Hcf as [[Hc|Hc]|Hc]; [congruence|congruence|].
          unfold over in Hc. rewrite Epend, <- Hcount in Hc.
          assert (Enz : (newLineRunes h =? 0) = false).
          { apply Z.eqb_neq. intros E0. apply Hzero in E0. discriminate E0. }
          unfold overflows in Eo. rewrite Enz in Eo. cbn [negb andb] in Eo.
          lia. }
        rewrite Hpe in *. cbn [pendingGroup] in HP. rewrite app_nil_r in HP.
        auto. }
    destruct H0 as (-> & ->). cbn [app] in Hres.
    destruct (processWord h [] [] w) as [h1 lp1]. cbn [fst snd] in *.
    subst lp1. rewrite Hcpl in Hcpl'.
    destruct (endsSentence w) eqn:Ee.
    + assert (Ews : ws = []).
      { destruct ws as [|y ws _] using rev_ind; [reflexivity|]. exfalso.
        pose proof (Hgs (w :: ws) y eq_refl) as Hinit.
        pose proof (Forall_inv Hinit) as Hne. unfold nonEnding in Hne.
        congruence. }
      subst ws. cbn [wordLoop].
      assert (El : lastEnds [w] = true) by exact Ee.
      exists (P ++ [[w]]). unfold pend. rewrite El.
      split; [exact Hres|]. split; [exact Hcpl'|]. apply app_nil_r.
    + destruct (replay_tail width ws [w] h1 P Hres Hcpl')
        as (H2 & Hcpl2); auto; [discriminate|].
      cbn [app] in H2. exists (P ++ doneGroup (w :: ws)).
      split; [exact H2|]. split; [exact Hcpl2|].
      rewrite <- app_assoc. f_equal.
      destruct (pend_done (w :: ws)) as [Hd|Hd]; [exact Hd|discriminate Hd].
Qed.

Lemma replay_lines (width : Z) (R : list (list gostring)) :
  forall (P : list (list gostring)) (h : fmtState),
    replayInv width h P ->
    Forall (Forall isWord) R -> Forall sentOK R -> Forall (fitsIn width) R ->
    chain width (last P [] :: R) ->
    Forall plainProse (map joined R) ->
    exists h', lineLoop h (map joined R) = Some h'
               /\ replayInv width h' (P ++ R).
Proof.
  induction R as [|g R IH]; intros P h Hinv Hw Hs Hf Hch Hp;
    cbn [map lineLoop].
  - exists h. rewrite app_nil_r. auto.
  - pose proof (Forall_inv Hw) as Hw1. pose proof (Forall_inv_tail Hw) as Hw'.
    pose proof (Forall_inv Hs) as Hs1. pose proof (Forall_inv_tail Hs) as Hs'.
    pose proof (Forall_inv Hf) as Hf1. pose proof (Forall_inv_tail Hf) as Hf'.
    pose proof (Forall_inv Hp) as Hp1. pose proof (Forall_inv_tail Hp) as Hp'.
    destruct Hch as [Hc1 Hch'].
    destruct (replay_line width h P g Hinv Hw1 Hs1 Hf1 Hc1 Hp1)
      as (h1 & E1 & H1).
    rewrite E1.
    destruct (IH (P ++ [g]) h1 H1 Hw' Hs' Hf') as (h' & E' & H').
    + rewrite last_last. exact Hch'.
    + exact Hp'.
    + exists h'. split; [exact E'|]. rewrite <- app_assoc in H'. exact H'.
Qed.

(** A wrapped document read again, when the scanner delivers all of it. *)
Lemma replay_run (width : Z) (groups : list (list gostring)) :
  wrapped width groups -> Forall plainProse (map joined groups) ->
  exists h,
    lineLoop (newFmtState width (mkWriter [] None)) (map joined groups)
    = Some h
    /\ emitted (flushPending h) = map joined groups.
Proof.
  intros (Hgw & Hgs & Hgf & Hch) Hout.
  set (h0 := newFmtState width (mkWriter [] None)).
  assert (H0 : replayInv width h0 []).
  { exists []. split; [|auto]. split; [apply wf_new|].
    repeat split; constructor. }
  destruct (replay_lines width groups [] h0 H0 Hgw Hgs Hgf) as (h & Eh & Hh).
  - destruct groups as [|g groups]; [exact I|]. split; [|exact Hch].
    destruct g; [exact I|]. left. left. reflexivity.
  - exact Hout.
  - exists h. split; [exact Eh|].
    cbn [app] in Hh. destruct Hh as (E & Hat & _ & HP).
    destruct (plainAt_flushPending h E _ Hat)
      as ((_ & _ & _ & Hem & _) & _).
    rewrite HP in Hem. exact Hem.
Qed.

(** *** The shape of a wrapped document *)

Lemma joined_last_word (a : list gostring) (w : gostring) :
  isWord w -> joined (a ++ [w]) = spaced a ++ w.
Proof.
  intros Hw. rewrite <- joined_snoc. apply TrimRight_word; [|exact Hw].
  apply chunks_app_endsAscii, endsSpace_endsAscii, spaced_endsSpace.
Qed.

Lemma runeCount_joined (a : list gostring) (w : gostring) :
  isWord w ->
  runeCount (joined (a ++ [w])) = runeCount (spaced a) + runeCount w.
Proof.
  intros Hw. rewrite (joined_last_word a w Hw).
  apply runeCount_app_chunks, chunks_app_endsAscii, endsSpace_endsAscii,
    spaced_endsSpace.
Qed.

Lemma runeCount_spaced (g : list gostring) :
  g <> [] -> Forall isWord g -> runeCount (spaced g) = runeCount (joined g) + 1.
Proof.
  intros Hne Hg. destruct g as [|w a _] using rev_ind; [congruence|].
  apply Forall_app in Hg. destruct Hg as [_ Hw].
  rewrite (runeCount_joined a w (Forall_inv Hw)), spaced_snoc.
  apply runeCount_word_space, endsSpace_endsAscii, spaced_endsSpace.
Qed.

Lemma chain_mid (width : Z) (gp : list (list gostring)) :
  forall (g1 g2 : list gostring) (gq : list (list gostring)),
    chain width (gp ++ g1 :: g2 :: gq) -> canFollow width g1 g2.
Proof.
  induction gp as [|g gp IH]; intros g1 g2 gq H.
  - exact (proj1 H).
  - apply (IH g1 g2 gq). destruct gp; exact (proj2 H).
Qed.

(** *** What the scanner delivers of a wrapped document *)

Lemma chunk_bytes_le (cs : list chunk) :
  Forall goodChunk cs ->
  Z.of_nat (length (bytesOf cs)) <= 4 * Z.of_nat (length cs).
Proof.
  induction 1 as [|c cs Hc _ IH]; [cbn; lia|].
  rewrite bytesOf_cons_length. cbn [length].
  pose proof (good_range c Hc) as Hr.
  assert (Hk : (length (snd c) <= 4)%nat).
  { destruct Hr as [[_ Hk]|[[Hk _]|[[Hk _]|[[Hk _]|[Hk _]]]]];
      rewrite Hk; repeat constructor. }
  rewrite Nat2Z.inj_add, !Nat2Z.inj_succ. apply Nat2Z.inj_le in Hk.
  change (Z.of_nat 4) with 4 in Hk. lia.
Qed.

(** A string has at most four bytes a rune. *)
Lemma length_le_runes (s : gostring) : Z.of_nat (length s) <= 4 * runeCount s.
Proof.
  unfold runeCount, runes. rewrite length_map.
  rewrite <- (bytesOf_chunks s) at 1. apply chunk_bytes_le, chunks_good.
Qed.

Lemma ScanWords_length (s w : gostring) :
  In w (ScanWords s) -> (length w <= length s)%nat.
Proof.
  intros Hw.
  destruct (splitWords_segments (chunks s) [] [] None
              (or_introl (conj eq_refl eq_refl)) w Hw)
    as (A & M & B & E & -> & _).
  cbn [app] in E. rewrite <- (bytesOf_chunks s).
  rewrite E, !bytesOf_app, !length_app. lia.
Qed.

Lemma dropCR_length (l : gostring) : (length (dropCR l) <= length l)%nat.
Proof.
  destruct (dropCR_cases l) as [->|E]; [lia|].
  rewrite E at 2. rewrite length_app. lia.
Qed.

Lemma scanned_are_scannable (lines : list gostring) :
  Forall scannable (scanned lines).
Proof.
  destruct (scanned_prefix lines) as (k & -> & Hk).
  apply Forall_map. apply Forall_impl with (2 := Hk).
  intros l Hl. unfold scannable in *. pose proof (dropCR_length l). lia.
Qed.

Lemma dropCR_noTrailing (l : gostring) : noTrailingSpace l -> dropCR l = l.
Proof.
  intros H. destruct (dropCR_cases l) as [E|E]; [exact E|]. exfalso.
  pose proof (chunks_cr (dropCR l)) as Hc. rewrite <- E in Hc.
  specialize (H _ _ Hc). discriminate H.
Qed.

(** The scanner delivers such lines as they are. *)
Lemma scanned_fixed (lines : list gostring) :
  Forall scannable lines -> Forall noTrailingSpace lines ->
  scanned lines = lines.
Proof.
  intros Hs Hn. rewrite (scanned_map lines Hs).
  induction Hn as [|l lines Hl _ IH]; [reflexivity|].
  cbn [map]. rewrite (dropCR_noTrailing l Hl), IH; [reflexivity|].
  exact (Forall_inv_tail Hs).
Qed.

(** The lines of a wrapped document are short: a line of several words is
    within the width, and a line of one word is a word of a line that the
    scanner delivered. *)
Lemma wrapped_scannable (width : Z) (groups : list (list gostring)) :
  4 * width < MaxScanTokenSize ->
  Forall (Forall isWord) groups -> Forall (fitsIn width) groups ->
  (forall w, In w (concat groups) -> scannable w) ->
  Forall scannable (map joined groups).
Proof.
  intros Hwidth Hgw Hgf Hwords. apply Forall_map, Forall_forall.
  intros g Hin.
  pose proof (proj1 (Forall_forall _ _) Hgw g Hin) as Hw.
  pose proof (proj1 (Forall_forall _ _) Hgf g Hin) as Hf.
  destruct g as [|w a _] using rev_ind; [unfold scannable; cbn; lia|].
  apply Forall_app in Hw. destruct Hw as [_ Hw].
  pose proof (Forall_inv Hw) as Hword.
  destruct a as [|x a].
  - rewrite (joined_last_word [] w Hword).
    change (spaced [] ++ w) with w.
    apply Hwords. apply in_concat. exists [w]. split; [exact Hin|].
    left. reflexivity.
  - unfold scannable.
    pose proof (length_le_runes (joined ((x :: a) ++ [w]))) as Hl.
    rewrite (runeCount_joined (x :: a) w Hword) in Hl.
    pose proof (Hf (x :: a) w [] eq_refl) as Hfit.
    assert (Hne : x :: a <> []) by discriminate.
    specialize (Hfit Hne). lia.
Qed.

(** Wrapping is idempotent on plain prose.  When a document without code
    fences, quote markers and list markers is wrapped at a width below a
    quarter of the scanner's limit (the program's width is 80), and no line
    of the output begins with what the line classifier reads as a fence, a
    quote marker or a list marker, then wrapping the output at the same
    width gives the output again. *)
Theorem wrap_idempotent (width : Z) (doc out : list gostring) :
  Forall plainProse doc -> run width doc = Some out ->
  Forall plainProse out ->
  4 * width < MaxScanTokenSize ->
  run width out = Some out.
Proof.
  intros Hdoc E Hout Hwidth.
  destruct (wrap_run width doc Hdoc) as (groups & E' & Hw).
  destruct (plain_run width doc Hdoc) as (groups' & E'' & Hgw' & _ & HW).
  rewrite E in E', E''. injection E' as ->. injection E'' as E''.
  pose proof Hw as (Hgw & _ & Hgf & _).
  assert (Hs : Forall scannable (map joined groups)).
  { apply (wrapped_scannable width); auto.
    intros w Hin.
    rewrite <- (ScanWords_joined_all groups Hgw), E'',
      (ScanWords_joined_all groups' Hgw'), HW in Hin.
    apply in_concat in Hin. destruct Hin as (ws & Hws & Hin).
    apply in_map_iff in Hws. destruct Hws as (line & <- & Hline).
    pose proof (proj1 (Forall_forall _ _) (scanned_are_scannable doc)
                  line Hline) as Hl.
    pose proof (ScanWords_length line w Hin). unfold scannable in *. lia. }
  assert (Hn : Forall noTrailingSpace (map joined groups)).
  { apply Forall_map, Forall_forall. intros g _. apply TrimRight_noTrailing. }
  rewrite run_eq, (scanned_fixed _ Hs Hn).
  destruct (replay_run width groups Hw Hout) as (h & Eh & Hem).
  rewrite Eh, Hem. reflexivity.
Qed.

(** The width is kept.  On a document without code fences, quote markers
    and list markers, an output line that holds two or more words is at
    most [width] runes long. *)
Theorem lines_within_width (width : Z) (doc out : list gostring) :
  Forall plainProse doc -> run width doc = Some out ->
  Forall (fun l => (length (ScanWords l) <= 1)%nat \/ runeCount l <= width)
    out.
Proof.
  intros Hdoc E.
  destruct (wrap_run width doc Hdoc) as (groups & E' & Hgw & _ & Hgf & _).
  rewrite E in E'. injection E' as ->. apply Forall_forall. intros l Hin.
  apply in_map_iff in Hin. destruct Hin as (g & <- & Hin).
  pose proof (proj1 (Forall_forall _ _) Hgw g Hin) as Hw.
  pose proof (proj1 (Forall_forall _ _) Hgf g Hin) as Hf.
  rewrite (ScanWords_joined g Hw).
  destruct g as [|w a _] using rev_ind; [left; cbn [length]; lia|].
  destruct a as [|x a].
  - left. cbn [app length]. lia.
  - right. apply Forall_app in Hw. destruct Hw as [_ Hw].
    rewrite (runeCount_joined (x :: a) w (Forall_inv Hw)).
    apply (Hf (x :: a) w [] eq_refl). discriminate.
Qed.

(** Lines are filled greedily.  On a document without code fences, quote
    markers and list markers, when an output line with words is followed by
    another output line with words, the first ends with a word that ends a
    sentence, or the first word of the second did not fit: the first line,
    one space and that word are more than [width] runes. *)
Theorem greedy_breaks (width : Z) (doc out pre post : list gostring)
    (l1 l2 : gostring) :
  Forall plainProse doc -> run width doc = Some out ->
  out = pre ++ l1 :: l2 :: post -> l1 <> [] -> l2 <> [] ->
  endsSentence (last (ScanWords l1) []) = true
  \/ runeCount l1 + 1 + runeCount (hd [] (ScanWords l2)) > width.
Proof.
  intros Hdoc E Hout H1 H2.
  destruct (wrap_run width doc Hdoc) as (groups & E' & Hgw & _ & _ & Hch).
  rewrite E in E'. injection E' as E'. rewrite Hout in E'. symmetry in E'.
  apply map_eq_app in E'. destruct E' as (gp & gr & -> & _ & E').
  apply map_eq_cons in E'. destruct E' as (g1 & gr1 & -> & <- & E').
  apply map_eq_cons in E'. destruct E' as (g2 & gq & -> & <- & _).
  pose proof (chain_mid width gp g1 g2 gq Hch) as Hc.
  apply Forall_app in Hgw. destruct Hgw as [_ Hgw].
  pose proof (Forall_inv Hgw) as Hw1.
  pose proof (Forall_inv (Forall_inv_tail Hgw)) as Hw2.
  rewrite (ScanWords_joined g1 Hw1), (ScanWords_joined g2 Hw2).
  destruct g2 as [|w g2]; [exfalso; apply H2; reflexivity|].
  destruct g1 as [|x g1]; [exfalso; apply H1; reflexivity|].
  cbn [canFollow hd] in *.
  destruct Hc as [[Hc|Hc]|Hc]; [discriminate Hc|left; exact Hc|right].
  unfold over in Hc. rewrite runeCount_spaced in Hc by (auto; discriminate).
  lia.
Qed.

(** ** The lines of a list item *)





Section ItemLines.

Variables (f0 : fmtState) (qp lp0 : gostring).
Hypothesis wf0 : wf f0.
Hypothesis prose0 : inCode f0 = false.
Hypothesis empty0 : newLine f0 = [].
Hypothesis ascii_qp : isAscii qp.
Hypothesis ascii_lp0 : isAscii lp0.












End ItemLines.

(** ** A numbered item *)


(** ** Width *)

Lemma runeCount_single_spaced (w : gostring) :
  runeCount (spaced [w]) = runeCount w + 1.
Proof.
  unfold spaced. cbn [map concat]. rewrite app_nil_r.
  apply runeCount_app_chunks, chunks_app, space_clean.
Qed.

(** In a line of several words every word is within the width. *)
Lemma fitsIn_words (width : Z) (g : list gostring) (w : gostring) :
  fitsIn width g -> (2 <= length g)%nat -> In w g -> runeCount w <= width.
Proof.
  intros Hf Hlen Hin. apply in_split in Hin. destruct Hin as (a & b & ->).
  destruct a as [|x a].
  - destruct b as [|y b]; [cbn in Hlen; lia|].
    pose proof (Hf [w] y b eq_refl) as H.
    rewrite runeCount_single_spaced in H.
    pose proof (runeCount_nonneg y).
    assert (Hne : [w] <> []) by discriminate. specialize (H Hne). lia.
  - pose proof (Hf (x :: a) w b eq_refl) as H.
    pose proof (runeCount_nonneg (spaced (x :: a))).
    assert (Hne : x :: a <> []) by discriminate. specialize (H Hne). lia.
Qed.

(** C2 (as amended): before a word is appended, a buffer with content is
    flushed when its rune count plus the rune count of the word exceeds the
    width, and the word then starts a new line; otherwise the word is
    appended to the buffer, and to the prefixes when the buffer is empty.  A
    word that alone exceeds the width starts a line, whatever the buffer
    held, and the word after it is never put on that line: it is not split
    and stands alone.  On a document without code fences, quote markers and
    list markers the program writes the words it is given, every output
    line is within the width or is one word, and a word longer than the
    width is a line of its own. *)
Theorem width_overflow :
  (forall (f : fmtState) (qp lp w : gostring),
     wf f ->
     let f' := fst (processWord f qp lp w) in
     (newLine f <> [] ->
      newLineRunes f + runeCount w > charsPerLine f ->
      emitted f'
      = emitted f ++ [TrimRightFunc (newLine f) IsSpace]
          ++ (if endsSentence w
              then [TrimRightFunc ((qp ++ lp) ++ w) IsSpace] else [])
      /\ newLine f'
         = (if endsSentence w then [] else ((qp ++ lp) ++ w) ++ str " "))
     /\ (newLine f <> [] ->
         newLineRunes f + runeCount w <= charsPerLine f ->
         emitted f'
         = emitted f
             ++ (if endsSentence w
                 then [TrimRightFunc (newLine f ++ w) IsSpace] else [])
         /\ newLine f'
            = (if endsSentence w then [] else (newLine f ++ w) ++ str " "))
     /\ (newLine f = [] ->
         emitted f'
         = emitted f
             ++ (if endsSentence w
                 then [TrimRightFunc ((qp ++ lp) ++ w) IsSpace] else [])
         /\ newLine f'
            = (if endsSentence w then [] else ((qp ++ lp) ++ w) ++ str " ")))
  /\ (forall (f : fmtState) (qp lp w : gostring),
        wf f ->
        charsPerLine f < runeCount w ->
        let f' := fst (processWord f qp lp w) in
        emitted f'
        = emitted f ++ pendingLine f
            ++ (if endsSentence w
                then [TrimRightFunc ((qp ++ lp) ++ w) IsSpace] else [])
        /\ newLine f'
           = (if endsSentence w then [] else ((qp ++ lp) ++ w) ++ str " ")
        /\ (endsSentence w = false ->
            forall qp' lp' next : gostring,
              exists more,
                emitted (fst (processWord f' qp' lp' next))
                = emitted f'
                    ++ TrimRightFunc ((qp ++ lp) ++ w) IsSpace :: more))
  /\ (forall (width : Z) (doc : list gostring),
        0 <= width ->
        Forall plainProse doc ->
        exists out,
          run width doc = Some out
          /\ concat (map ScanWords out)
             = concat (map ScanWords (tokens (mkReader doc None)))
          /\ Forall (fun l => runeCount l <= width \/ ScanWords l = [l]) out
          /\ (forall l w : gostring,
                In l out -> In w (ScanWords l) -> width < runeCount w ->
                l = w)).
Proof.
  split; [|split].
  - intros f qp lp w H f'. unfold f'.
    rewrite (processWord_eq f qp lp w (wf_empty f H)). cbn zeta. cbn [fst].
    split; [|split]; intros Hn.
    + intros Hcmp.
      assert (Ho : overflows f w = true) by (apply overflows_iff; auto).
      unfold logBefore, lineBase, startsLine. rewrite Ho, orb_true_r.
      destruct (endsSentence w); cbn [emitted out wlog newLine];
        rewrite <- ?app_assoc, ?app_nil_r; auto.
    + intros Hcmp.
      assert (Ho : overflows f w = false).
      { destruct (overflows f w) eqn:Ho; [|reflexivity].
        apply overflows_iff in Ho; [|exact H]. lia. }
      assert (Hnz : (newLineRunes f =? 0) = false).
      { apply Z.eqb_neq, (wf_pending f H Hn). }
      unfold logBefore, lineBase, startsLine. rewrite Ho, Hnz.
      cbn [orb]. rewrite app_nil_r.
      destruct (endsSentence w); cbn [emitted out wlog newLine];
        rewrite ?app_nil_r; auto.
    + assert (Hz : newLineRunes f = 0)
        by (rewrite (wf_count f H), Hn; reflexivity).
      unfold logBefore, lineBase, startsLine, overflows. rewrite Hz.
      cbn [Z.eqb negb andb orb]. rewrite app_nil_r.
      destruct (endsSentence w); cbn [emitted out wlog newLine];
        rewrite ?app_nil_r; auto.
  - intros f qp lp w H Hlong f'. unfold f'.
    pose proof (runeCount_nonneg (newLine f)) as Hnn.
    rewrite <- (wf_count f H) in Hnn.
    assert (Hs : startsLine f w = true).
    { unfold startsLine, overflows.
      destruct (newLineRunes f =? 0) eqn:E; [reflexivity|].
      cbn [orb negb andb]. lia. }
    assert (Hlog : logBefore f w = emitted f ++ pendingLine f).
    { unfold logBefore, pendingLine, overflows.
      destruct (newLineRunes f =? 0) eqn:E; cbn [negb andb]; [reflexivity|].
      assert (Hgt : (newLineRunes f + runeCount w >? charsPerLine f) = true)
        by lia.
      rewrite Hgt. reflexivity. }
    rewrite (processWord_eq f qp lp w (wf_empty f H)). cbn zeta. cbn [fst].
    unfold lineBase, lineBaseRunes. rewrite Hs, Hlog.
    destruct (endsSentence w) eqn:Ee; cbn [emitted out wlog newLine].
    + rewrite <- app_assoc. split; [reflexivity|]. split; [reflexivity|].
      discriminate.
    + rewrite app_nil_r. split; [reflexivity|]. split; [reflexivity|].
      intros _ qp' lp' next.
      pose proof (runeCount_nonneg qp). pose proof (runeCount_nonneg lp).
      pose proof (runeCount_nonneg next). pose proof (runeCount_nonneg w).
      match goal with
      | |- context [processWord ?g qp' lp' next] =>
        rewrite (processWord_eq g qp' lp' next)
          by (cbn [newLineRunes]; intros E0; exfalso; lia);
        assert (Ho : overflows g next = true)
          by (unfold overflows; cbn [newLineRunes charsPerLine];
              apply andb_true_iff;
              split; [apply negb_true_iff, Z.eqb_neq|]; lia)
      end.
      cbn zeta. cbn [fst]. unfold logBefore. rewrite Ho.
      cbn [emitted out wlog newLine]. rewrite TrimRight_app_space.
      destruct (endsSentence next); cbn [out wlog]; eexists;
        [symmetry; exact (app_assoc _ [_] _)|reflexivity].
  - intros width doc Hwidth Hdoc.
    destruct (wrap_run width doc Hdoc) as (groups & E & Hgw & _ & Hgf & _).
    destruct (plain_run width doc Hdoc) as (groups' & E' & Hgw' & _ & HW).
    exists (map joined groups). split; [exact E|].
    rewrite E in E'. injection E' as E'.
    split; [|split].
    + rewrite E', (ScanWords_joined_all groups' Hgw'). exact HW.
    + apply Forall_map, Forall_forall. intros g Hin.
      pose proof (proj1 (Forall_forall _ _) Hgw g Hin) as Hw.
      pose proof (proj1 (Forall_forall _ _) Hgf g Hin) as Hf.
      destruct g as [|w a _] using rev_ind;
        [left; change (joined []) with (@nil byte); exact Hwidth|].
      pose proof (Forall_inv (proj2 (proj1 (Forall_app _ _ _) Hw))) as Hword.
      destruct a as [|x a].
      * right. rewrite (ScanWords_joined _ Hw).
        rewrite (joined_last_word [] w Hword). reflexivity.
      * left. rewrite (runeCount_joined (x :: a) w Hword).
        apply (Hf (x :: a) w [] eq_refl). discriminate.
    + intros l w Hl Hin Hlong.
      apply in_map_iff in Hl. destruct Hl as (g & <- & Hg).
      pose proof (proj1 (Forall_forall _ _) Hgw g Hg) as Hw.
      pose proof (proj1 (Forall_forall _ _) Hgf g Hg) as Hf.
      rewrite (ScanWords_joined g Hw) in Hin.
      destruct g as [|x [|y g]]; [destruct Hin| |].
      * destruct Hin as [<-|[]].
        exact (joined_last_word [] x (Forall_inv Hw)).
      * exfalso.
        assert (Hlen : (2 <= length (x :: y :: g))%nat) by (cbn; lia).
        pose proof (fitsIn_words width _ w Hf Hlen Hin). lia.
Qed.
End MdWrap.

(** * Closed instances

    The statements below are closed: they fix the digit table.  Their
    inputs are ASCII except where said, and on ASCII [IsDigit] decides
    within Latin-1 without consulting the table. *)

Definition noDigitsAboveLatin1 : Z -> bool := fun _ => false.

Definition healthy : Writer := mkWriter [] None.

(** The state after the line hello: a pending buffer, no list. *)
Definition afterHello : fmtState :=
  mkFmtState 80 (str "hello ") 6 false zeroListState true [] [] healthy.

(** The state after an opening fence. *)
Definition inFence : fmtState :=
  mkFmtState 80 [] 0 true zeroListState false [] []
    (mkWriter [str "```"] None).

(** The state after a bullet item. *)
Definition afterBullet : fmtState :=
  mkFmtState 80 (str "* item ") 7 false (mkListState bulletList 0 0) true
    (str "* ") (str "  ") healthy.

(** The state after a quoted line. *)
Definition afterQuoted : fmtState :=
  mkFmtState 80 (str "> hello ") 8 false zeroListState true [] [] healthy.

(** The state after the line hello at width 10. *)
Definition narrowHello : fmtState :=
  mkFmtState 10 (str "hello ") 6 false zeroListState true [] [] healthy.

Lemma reachable_initial (width : Z) (o : Writer) :
  reachable noDigitsAboveLatin1 (newFmtState width o).
Proof. exists width, o, []. reflexivity. Qed.

Lemma reachable_afterHello : reachable noDigitsAboveLatin1 afterHello.
Proof. exists 80, healthy, [str "hello"]. vm_compute. reflexivity. Qed.

Lemma reachable_inFence : reachable noDigitsAboveLatin1 inFence.
Proof. exists 80, healthy, [str "```"]. vm_compute. reflexivity. Qed.

Lemma reachable_afterBullet : reachable noDigitsAboveLatin1 afterBullet.
Proof. exists 80, healthy, [str "* item"]. vm_compute. reflexivity. Qed.

Lemma reachable_afterQuoted : reachable noDigitsAboveLatin1 afterQuoted.
Proof. exists 80, healthy, [str "> hello"]. vm_compute. reflexivity. Qed.

Lemma wf_afterHello : wf afterHello.
Proof. exact (reachable_wf _ _ reachable_afterHello). Qed.

Lemma wf_narrowHello : wf narrowHello.
Proof.
  apply (reachable_wf noDigitsAboveLatin1).
  exists 10, healthy, [str "hello"]. vm_compute. reflexivity.
Qed.

(** ** C1 *)

Lemma flush_before_boundary_witness :
  (reachable noDigitsAboveLatin1 afterHello
   /\ newLine afterHello <> []
   /\ boundary noDigitsAboveLatin1 afterHello (str "* item") = true)
  /\ exists f' more,
       processLine noDigitsAboveLatin1 afterHello (str "* item") = Some f'
       /\ emitted f'
          = emitted afterHello
              ++ TrimRightFunc (newLine afterHello) IsSpace :: more.
Proof.
  assert (H1 : reachable noDigitsAboveLatin1 afterHello)
    by exact reachable_afterHello.
  assert (H2 : newLine afterHello <> []) by discriminate.
  assert (H3 : boundary noDigitsAboveLatin1 afterHello (str "* item") = true)
    by (vm_compute; reflexivity).
  split; [auto|].
  exact (flush_before_boundary noDigitsAboveLatin1 afterHello (str "* item")
           H1 H2 H3).
Defined.

(** C1 as stated fails at a change of quote depth: after a line of depth 1
    the buffer holds its content; the next line has depth 0, nothing is
    flushed, and one output line holds the content of both. *)
Lemma quote_change_not_flushed :
  reachable noDigitsAboveLatin1 afterQuoted
  /\ newLine afterQuoted <> []
  /\ fst (countQuoteDepth (str "> hello")) = 1
  /\ fst (countQuoteDepth (str "world")) = 0
  /\ (exists f',
        processLine noDigitsAboveLatin1 afterQuoted (str "world") = Some f'
        /\ emitted f' = emitted afterQuoted
        /\ newLine f' = str "> hello world ")
  /\ run noDigitsAboveLatin1 80 [str "> hello"; str "world"]
     = Some [str "> hello world"].
Proof.
  split; [exact reachable_afterQuoted|]. split; [discriminate|].
  split; [reflexivity|]. split; [reflexivity|]. split.
  - eexists. split; [vm_compute; reflexivity|]. split; reflexivity.
  - vm_compute. reflexivity.
Qed.

(** ** C2 *)

Definition narrowDoc2 : list gostring :=
  [str "one two three four"; str "incomprehensibilities x"].

Lemma width_overflow_witness :
  ((wf narrowHello /\ newLine narrowHello <> []
    /\ newLineRunes narrowHello + runeCount (str "world")
       > charsPerLine narrowHello)
   /\ emitted (fst (processWord narrowHello [] [] (str "world")))
      = emitted narrowHello ++ [TrimRightFunc (newLine narrowHello) IsSpace]
          ++ (if endsSentence (str "world")
              then [TrimRightFunc (([] ++ []) ++ str "world") IsSpace]
              else [])
   /\ newLine (fst (processWord narrowHello [] [] (str "world")))
      = (if endsSentence (str "world") then []
         else (([] ++ []) ++ str "world") ++ str " "))
  /\ ((wf narrowHello /\ newLine narrowHello <> []
       /\ newLineRunes narrowHello + runeCount (str "you")
          <= charsPerLine narrowHello)
      /\ emitted (fst (processWord narrowHello [] [] (str "you")))
         = emitted narrowHello
             ++ (if endsSentence (str "you")
                 then [TrimRightFunc (newLine narrowHello ++ str "you") IsSpace]
                 else [])
      /\ newLine (fst (processWord narrowHello [] [] (str "you")))
         = (if endsSentence (str "you") then []
            else (newLine narrowHello ++ str "you") ++ str " "))
  /\ ((wf (newFmtState 10 healthy) /\ newLine (newFmtState 10 healthy) = [])
      /\ emitted (fst (processWord (newFmtState 10 healthy) [] [] (str "you")))
         = emitted (newFmtState 10 healthy)
             ++ (if endsSentence (str "you")
                 then [TrimRightFunc (([] ++ []) ++ str "you") IsSpace]
                 else [])
      /\ newLine (fst (processWord (newFmtState 10 healthy) [] [] (str "you")))
         = (if endsSentence (str "you") then []
            else (([] ++ []) ++ str "you") ++ str " "))
  /\ ((wf narrowHello
       /\ charsPerLine narrowHello < runeCount (str "incomprehensibilities"))
      /\ emitted (fst (processWord narrowHello [] []
                         (str "incomprehensibilities")))
         = emitted narrowHello ++ pendingLine narrowHello
             ++ (if endsSentence (str "incomprehensibilities")
                 then [TrimRightFunc
                         (([] ++ []) ++ str "incomprehensibilities") IsSpace]
                 else [])
      /\ newLine (fst (processWord narrowHello [] []
                         (str "incomprehensibilities")))
         = (if endsSentence (str "incomprehensibilities") then []
            else (([] ++ []) ++ str "incomprehensibilities") ++ str " ")
      /\ (endsSentence (str "incomprehensibilities") = false ->
          forall qp' lp' next : gostring,
            exists more,
              emitted (fst (processWord
                              (fst (processWord narrowHello [] []
                                      (str "incomprehensibilities")))
                              qp' lp' next))
              = emitted (fst (processWord narrowHello [] []
                                (str "incomprehensibilities")))
                  ++ TrimRightFunc
                       (([] ++ []) ++ str "incomprehensibilities") IsSpace
                     :: more))
  /\ ((0 <= 10 /\ Forall (plainProse noDigitsAboveLatin1) narrowDoc2)
      /\ exists out,
           run noDigitsAboveLatin1 10 narrowDoc2 = Some out
           /\ concat (map ScanWords out)
              = concat (map ScanWords (tokens (mkReader narrowDoc2 None)))
           /\ Forall (fun l => runeCount l <= 10 \/ ScanWords l = [l]) out
           /\ (forall l w : gostring,
                 In l out -> In w (ScanWords l) -> 10 < runeCount w ->
                 l = w))
  /\ run noDigitsAboveLatin1 10 narrowDoc2
     = Some [str "one two"; str "three four"; str "incomprehensibilities";
             str "x"].
Proof.
  assert (Hwf : wf narrowHello) by exact wf_narrowHello.
  assert (Hwf0 : wf (newFmtState 10 healthy)) by exact (wf_new 10 healthy).
  assert (Hn : newLine narrowHello <> []) by discriminate.
  assert (Hn0 : newLine (newFmtState 10 healthy) = []) by reflexivity.
  assert (Hgt : newLineRunes narrowHello + runeCount (str "world")
                > charsPerLine narrowHello) by reflexivity.
  assert (Hle : newLineRunes narrowHello + runeCount (str "you")
                <= charsPerLine narrowHello) by discriminate.
  assert (Hlong : charsPerLine narrowHello
                  < runeCount (str "incomprehensibilities")) by reflexivity.
  assert (H1 : 0 <= 10) by discriminate.
  assert (H2 : Forall (plainProse noDigitsAboveLatin1) narrowDoc2)
    by (repeat constructor).
  split; [|split; [|split; [|split; [|split]]]];
    [split; [auto|]|split; [auto|]|split; [auto|]|split; [auto|]
    |split; [auto|]|vm_compute; reflexivity].
  - exact (proj1 (proj1 (width_overflow noDigitsAboveLatin1)
                    narrowHello [] [] (str "world") Hwf) Hn Hgt).
  - exact (proj1 (proj2 (proj1 (width_overflow noDigitsAboveLatin1)
                           narrowHello [] [] (str "you") Hwf)) Hn Hle).
  - exact (proj2 (proj2 (proj1 (width_overflow noDigitsAboveLatin1)
                           (newFmtState 10 healthy) [] [] (str "you") Hwf0))
             Hn0).
  - exact (proj1 (proj2 (width_overflow noDigitsAboveLatin1))
             narrowHello [] [] (str "incomprehensibilities") Hwf Hlong).
  - exact (proj2 (proj2 (width_overflow noDigitsAboveLatin1)) 10 _ H1 H2).
Defined.

(** A fence line with an info string of many words. *)
Definition longFence : gostring :=
  str "``` alpha beta gamma delta epsilon zeta eta theta iota kappa lambda mu nu xi omicron pi rho".

(** C2 as stated fails on a fence line: the line has neither quote marker
    nor list marker and is read outside a code block, yet it is written
    whole, as one output line of 91 runes and 18 words at width 80. *)
Lemma long_fence_over_width :
  fst (countQuoteDepth longFence) = 0
  /\ typ (countListIndent noDigitsAboveLatin1 longFence) = noList
  /\ run noDigitsAboveLatin1 80 [longFence] = Some [longFence]
  /\ runeCount longFence = 91
  /\ length (ScanWords longFence) = 18%nat.
Proof. repeat split; vm_compute; reflexivity. Qed.

(** ** C4 *)

Lemma sentence_boundary_witness :
  ((wf afterHello /\ endsSentence (str "world.") = true)
   /\ newLine (fst (processWord afterHello [] [] (str "world."))) = []
   /\ newLineRunes (fst (processWord afterHello [] [] (str "world."))) = 0
   /\ emitted (fst (processWord afterHello [] [] (str "world.")))
      = logBefore afterHello (str "world.")
          ++ [TrimRightFunc
                (lineBase afterHello [] [] (str "world.") ++ str "world.")
                IsSpace])
  /\ ((wf afterHello /\ endsSentence (str "world") = false)
      /\ newLine (fst (processWord afterHello [] [] (str "world")))
         = (lineBase afterHello [] [] (str "world") ++ str "world") ++ str " "
      /\ emitted (fst (processWord afterHello [] [] (str "world")))
         = logBefore afterHello (str "world"))
  /\ (runeCount (str "This is one. This is two.") <= 80
      /\ run noDigitsAboveLatin1 80 [str "This is one. This is two."]
         = Some [str "This is one."; str "This is two."]).
Proof.
  assert (Hwf : wf afterHello) by exact wf_afterHello.
  assert (Hs : endsSentence (str "world.") = true) by reflexivity.
  assert (Hc : endsSentence (str "world") = false) by reflexivity.
  assert (H1 : runeCount (str "This is one. This is two.") <= 80)
    by discriminate.
  split; [|split]; (split; [auto|]).
  - exact (proj1 (proj1 (sentence_boundary noDigitsAboveLatin1)
                    afterHello [] [] (str "world.") Hwf) Hs).
  - exact (proj2 (proj1 (sentence_boundary noDigitsAboveLatin1)
                    afterHello [] [] (str "world") Hwf) Hc).
  - exact (proj2 (sentence_boundary noDigitsAboveLatin1) 80 H1).
Defined.

(** ** C5 *)

Lemma fence_toggles_witness :
  (reachable noDigitsAboveLatin1 afterHello /\ isFence (str " ```go") = true)
  /\ exists f',
       processLine noDigitsAboveLatin1 afterHello (str " ```go") = Some f'
       /\ inCode f' = negb (inCode afterHello)
       /\ newLine f' = []
       /\ (inCode afterHello = false ->
           emitted f'
           = emitted afterHello ++ pendingLine afterHello
               ++ [TrimSpace (str " ```go")]
           /\ (newLine afterHello <> [] ->
               pendingLine afterHello
               = [TrimRightFunc (newLine afterHello) IsSpace])
           /\ list_ f' = zeroListState
           /\ listPrefixFirst f' = [] /\ listPrefixRest f' = [])
       /\ (inCode afterHello = true ->
           emitted f' = emitted afterHello ++ [TrimSpace (str " ```go")]).
Proof.
  assert (H1 : reachable noDigitsAboveLatin1 afterHello)
    by exact reachable_afterHello.
  assert (H2 : isFence (str " ```go") = true) by (vm_compute; reflexivity).
  split; [auto|].
  exact (fence_toggles noDigitsAboveLatin1 afterHello (str " ```go") H1 H2).
Defined.

(** C5 as stated fails on an indented fence: what is written is the
    trimmed line, not the line. *)
Lemma fence_not_verbatim :
  isFence (str "  ```go  ") = true
  /\ run noDigitsAboveLatin1 80 [str "  ```go  "] = Some [str "```go"]
  /\ [str "```go"] <> [str "  ```go  "].
Proof.
  split; [vm_compute; reflexivity|]. split; [vm_compute; reflexivity|].
  discriminate.
Qed.

(** ** C6 *)

(** C6: a code line with trailing whitespace is not emitted unmodified.
    Between two fence lines, the line made of x := 1 and two spaces is
    written without the two spaces: [flushLine] trims what the code branch
    hands it untrimmed. *)
Lemma code_line_trimmed :
  run noDigitsAboveLatin1 80 [str "```"; str "x := 1  "; str "```"]
  = Some [str "```"; str "x := 1"; str "```"]
  /\ str "x := 1" <> str "x := 1  ".
Proof. split; [vm_compute; reflexivity|discriminate]. Qed.

(** ** C7 *)



(** ** C8 *)

(** A line of [MaxScanTokenSize] bytes. *)
Definition tooLong : gostring := repeat x61 (Z.to_nat MaxScanTokenSize).

Lemma tooLong_unscannable : ~ scannable tooLong.
Proof.
  unfold scannable, tooLong. rewrite repeat_length, Z2Nat.id by discriminate.
  apply Z.lt_irrefl.
Qed.

Lemma stream_errors_ignored_witness :
  ((Forall scannable [str "a."] /\ ~ scannable tooLong)
   /\ scanErr (mkReader ([str "a."] ++ tooLong :: [str "b."]) None)
      = Some ErrTooLong
   /\ main noDigitsAboveLatin1
        (mkReader ([str "a."] ++ tooLong :: [str "b."]) None) healthy
      = main noDigitsAboveLatin1 (mkReader [str "a."] None) healthy)
  /\ (ErrWrite <> EPIPE
      /\ main noDigitsAboveLatin1 (mkReader [str "a."; str "b."] None)
           (mkWriter [] (Some (1%nat, ErrWrite)))
         = withStream (Some (1%nat, ErrWrite))
             (healthyRun noDigitsAboveLatin1
                (mkReader [str "a."; str "b."] None)))
  /\ (main noDigitsAboveLatin1 (mkReader [str "a."] None) healthy
      = Exit 0 (mkWriter [str "a."] None)
      /\ 0 = 0)
  /\ (main noDigitsAboveLatin1 (mkReader [str "a."; str "b."; str "c."] None)
        (mkWriter [] (Some (1%nat, EPIPE)))
      = Sigpipe (mkWriter [str "a."; str "b."] (Some (1%nat, EPIPE)))
      /\ delivered (mkWriter [str "a."; str "b."] (Some (1%nat, EPIPE)))
         = [str "a."]).
Proof.
  assert (H1 : Forall scannable [str "a."])
    by (repeat constructor).
  assert (H2 : ~ scannable tooLong) by exact tooLong_unscannable.
  assert (H3 : ErrWrite <> EPIPE) by discriminate.
  assert (H4 : main noDigitsAboveLatin1 (mkReader [str "a."] None) healthy
               = Exit 0 (mkWriter [str "a."] None))
    by (vm_compute; reflexivity).
  split; [split; [split; [exact H1|exact H2]|]
         |split; [split; [exact H3|]
                 |split; [split; [exact H4|]|split]]].
  - exact (proj1 (proj2 (stream_errors_ignored noDigitsAboveLatin1))
             [str "a."] [str "b."] tooLong None healthy H1 H2).
  - exact (proj1 (proj2 (proj2 (proj2
                    (stream_errors_ignored noDigitsAboveLatin1))))
             (mkReader [str "a."; str "b."] None) 1%nat ErrWrite H3).
  - exact (proj2 (proj2 (proj2 (proj2 (proj2
                    (stream_errors_ignored noDigitsAboveLatin1)))))
             _ _ _ _ H4).
  - rewrite (proj1 (proj2 (proj2 (proj2 (proj2
                      (stream_errors_ignored noDigitsAboveLatin1)))))
               (mkReader [str "a."; str "b."; str "c."] None) 1%nat).
    vm_compute. reflexivity.
  - vm_compute. reflexivity.
Defined.

(** C8 as stated fails: with a read failure after two lines and an output
    stream on which every write fails, with an error other than a broken
    pipe, [main] still returns status 0, and the second write is attempted
    after the first has failed; nothing reaches the stream. *)
Lemma failures_not_fatal :
  snd (Fprintln (mkWriter [] (Some (0%nat, ErrWrite))) (str "a."))
  = Some ErrWrite
  /\ main noDigitsAboveLatin1 (mkReader [str "a."; str "b."] (Some ErrRead))
       (mkWriter [] (Some (0%nat, ErrWrite)))
     = Exit 0 (mkWriter [str "a."; str "b."] (Some (0%nat, ErrWrite)))
  /\ delivered (mkWriter [str "a."; str "b."] (Some (0%nat, ErrWrite))) = [].
Proof. repeat split; vm_compute; reflexivity. Qed.

(** ** C9 *)

Lemma quoted_line_prefix_witness :
  (reachable noDigitsAboveLatin1 (newFmtState 80 healthy)
   /\ inCode (newFmtState 80 healthy) = false
   /\ typ (list_ (newFmtState 80 healthy)) = noList
   /\ newLine (newFmtState 80 healthy) = [])
  /\ countQuoteDepth (str "> > hello world") = (2, 4)
  /\ exists f' ls,
       processLine noDigitsAboveLatin1 (newFmtState 80 healthy)
         (str "> > hello world") = Some f'
       /\ emitted f' ++ pendingLine f'
          = emitted (newFmtState 80 healthy) ++ ls
       /\ ls = (if 15 >? charsPerLine (newFmtState 80 healthy)
                then [str "> > hello"; str "> > world"]
                else [str "> > hello world"])
       /\ Forall (prefixedBy (str "> > ")) ls.
Proof.
  assert (H1 : reachable noDigitsAboveLatin1 (newFmtState 80 healthy))
    by apply reachable_initial.
  assert (H2 : inCode (newFmtState 80 healthy) = false) by reflexivity.
  assert (H3 : typ (list_ (newFmtState 80 healthy)) = noList) by reflexivity.
  assert (H4 : newLine (newFmtState 80 healthy) = []) by reflexivity.
  split; [auto|].
  exact (quoted_line_prefix noDigitsAboveLatin1 (newFmtState 80 healthy)
           H1 H2 H3 H4).
Defined.

(** C9 as stated fails when the buffer holds content: outside code blocks
    and with no active list, the words of the quoted line are appended to
    the pending line, which does not begin with the quote markers. *)
Lemma quoted_line_joins_pending :
  reachable noDigitsAboveLatin1 afterHello
  /\ inCode afterHello = false
  /\ typ (list_ afterHello) = noList
  /\ (exists f',
        processLine noDigitsAboveLatin1 afterHello (str "> > hello world")
        = Some f'
        /\ emitted f' ++ pendingLine f'
           = emitted afterHello ++ [str "hello hello world"])
  /\ ~ prefixedBy (str "> > ") (str "hello hello world")
  /\ run noDigitsAboveLatin1 80 [str "hello"; str "> > hello world"]
     = Some [str "hello hello world"].
Proof.
  split; [exact reachable_afterHello|]. split; [reflexivity|].
  split; [reflexivity|]. split; [|split].
  - eexists. split; vm_compute; reflexivity.
  - intros (c & rest & H & _). vm_compute in H. discriminate H.
  - vm_compute. reflexivity.
Qed.

(** ** C10 *)

Lemma countListIndent_digit_witness :
  (runes (str " 1. x") = [0x20] ++ 0x31 :: [0x2E; 0x20; 0x78]
   /\ Forall (fun r => IsSpace r = true) [0x20]
   /\ IsSpace 0x31 = false
   /\ IsDigit noDigitsAboveLatin1 0x31 = true)
  /\ countListIndent noDigitsAboveLatin1 (str " 1. x")
     = mkListState
         (if markerFollows [0x2E; 0x20; 0x78] then numList else noList)
         (Z.of_nat (length [0x20])) (runeBytes [0x20])
  /\ (typ (countListIndent noDigitsAboveLatin1 (str " 1. x")) = numList <->
      exists s tail, [0x2E; 0x20; 0x78] = 0x2E :: s :: tail
                     /\ IsSpace s = true).
Proof.
  assert (H1 : runes (str " 1. x") = [0x20] ++ 0x31 :: [0x2E; 0x20; 0x78])
    by reflexivity.
  assert (H2 : Forall (fun r => IsSpace r = true) [0x20])
    by (repeat constructor).
  assert (H3 : IsSpace 0x31 = false) by reflexivity.
  assert (H4 : IsDigit noDigitsAboveLatin1 0x31 = true) by reflexivity.
  split; [auto|].
  exact (proj1 (countListIndent_digit noDigitsAboveLatin1) (str " 1. x")
           [0x20] 0x31 [0x2E; 0x20; 0x78] H1 H2 H3 H4).
Defined.

(** ** The buffer's rune counter *)

(** In every state the engine reaches, [newLineRunes] is the rune count of
    the buffer, and the buffer is empty inside a code block. *)
Theorem newLineRunes_counts (digitTable : Z -> bool) (f : fmtState) :
  reachable digitTable f ->
  newLineRunes f = runeCount (newLine f)
  /\ (inCode f = true -> newLine f = []).
Proof.
  intros Hr. pose proof (reachable_wf digitTable f Hr) as H.
  split; [exact (wf_count f H)|].
  intros E. destruct (wf_code f H E) as [E' _]. exact E'.
Qed.

Lemma newLineRunes_counts_witness :
  reachable noDigitsAboveLatin1 afterBullet
  /\ newLineRunes afterBullet = runeCount (newLine afterBullet)
  /\ (inCode afterBullet = true -> newLine afterBullet = []).
Proof.
  assert (H1 : reachable noDigitsAboveLatin1 afterBullet)
    by exact reachable_afterBullet.
  split; [exact H1|].
  exact (newLineRunes_counts noDigitsAboveLatin1 afterBullet H1).
Defined.

(** ** Instances of the further properties *)

Definition twoLines : Reader :=
  mkReader [str "hello  "; str "world. "] None.

Definition afterTwoLines : fmtState :=
  mkFmtState 80 [] 0 false zeroListState true [] []
    (mkWriter [str "hello world."] None).

Lemma output_trimmed_witness :
  process noDigitsAboveLatin1 (newFmtState 80 healthy) twoLines twoLines
  = Some afterTwoLines
  /\ exists more,
       emitted afterTwoLines = emitted (newFmtState 80 healthy) ++ more
       /\ Forall noTrailingSpace more.
Proof.
  assert (H1 : process noDigitsAboveLatin1 (newFmtState 80 healthy)
                 twoLines twoLines = Some afterTwoLines)
    by (vm_compute; reflexivity).
  split; [exact H1|].
  exact (output_trimmed noDigitsAboveLatin1 _ _ _ _ H1).
Defined.

Lemma countListIndent_spec_witness :
  (runes (str "  *bold*") = [0x20; 0x20] ++ [0x2A; 0x62; 0x6F; 0x6C; 0x64; 0x2A]
   /\ Forall (fun r => IsSpace r = true) [0x20; 0x20]
   /\ headNonSpace [0x2A; 0x62; 0x6F; 0x6C; 0x64; 0x2A])
  /\ indent (countListIndent noDigitsAboveLatin1 (str "  *bold*"))
     = Z.of_nat (length [0x20; 0x20])
  /\ indentBytes (countListIndent noDigitsAboveLatin1 (str "  *bold*"))
     = runeBytes [0x20; 0x20]
  /\ typ (countListIndent noDigitsAboveLatin1 (str "  *bold*"))
     = marker noDigitsAboveLatin1 [0x2A; 0x62; 0x6F; 0x6C; 0x64; 0x2A]
  /\ (typ (countListIndent noDigitsAboveLatin1 (str "  *bold*")) = bulletList
      <-> exists rest, [0x2A; 0x62; 0x6F; 0x6C; 0x64; 0x2A] = 0x2A :: rest)
  /\ ([0x2A; 0x62; 0x6F; 0x6C; 0x64; 0x2A] = [] ->
      typ (countListIndent noDigitsAboveLatin1 (str "  *bold*")) = noList)
  /\ (forall r rest,
        [0x2A; 0x62; 0x6F; 0x6C; 0x64; 0x2A] = r :: rest ->
        IsDigit noDigitsAboveLatin1 r = false -> r <> 0x2A ->
        typ (countListIndent noDigitsAboveLatin1 (str "  *bold*")) = noList).
Proof.
  assert (H1 : runes (str "  *bold*")
               = [0x20; 0x20] ++ [0x2A; 0x62; 0x6F; 0x6C; 0x64; 0x2A])
    by reflexivity.
  assert (H2 : Forall (fun r => IsSpace r = true) [0x20; 0x20])
    by (repeat constructor).
  assert (H3 : headNonSpace [0x2A; 0x62; 0x6F; 0x6C; 0x64; 0x2A])
    by reflexivity.
  split; [auto|].
  exact (countListIndent_spec noDigitsAboveLatin1 (str "  *bold*") _ _
           H1 H2 H3).
Defined.

Lemma quote_prefix_compose_witness :
  0 <= 2
  /\ (countQuoteDepth (Repeat (str "> ") 2 ++ str ">text")
      = (2 + fst (countQuoteDepth (str ">text")),
         2 * 2 + snd (countQuoteDepth (str ">text")))
      /\ (fst (countQuoteDepth (str ">text")) = 0 ->
          countQuoteDepth (Repeat (str "> ") 2 ++ str ">text") = (2, 2 * 2)))
  /\ fst (countQuoteDepth (str "text")) = 0
  /\ countQuoteDepth (Repeat (str "> ") 2 ++ str "text") = (2, 2 * 2).
Proof.
  assert (H1 : 0 <= 2) by discriminate.
  assert (H2 : fst (countQuoteDepth (str "text")) = 0) by reflexivity.
  split; [exact H1|]. split; [|split; [exact H2|]].
  - exact (quote_prefix_compose 2 (str ">text") H1).
  - exact (proj2 (quote_prefix_compose 2 (str "text") H1) H2).
Defined.

Definition itemAndMore : Reader :=
  mkReader [str "  * item"; str "    more"; str "> 2. two"] None.

Lemma reflow_never_panics_witness :
  (Forall isAscii (input itemAndMore)
   /\ Forall (byteIndent noDigitsAboveLatin1) (tokens itemAndMore)
   /\ (forall k, wfail healthy <> Some (k, EPIPE)))
  /\ (exists w,
        main noDigitsAboveLatin1 itemAndMore healthy = Exit 0 w
        \/ main noDigitsAboveLatin1 itemAndMore healthy = Sigpipe w)
  /\ exists w, main noDigitsAboveLatin1 itemAndMore healthy = Exit 0 w.
Proof.
  assert (H1 : Forall isAscii (input itemAndMore))
    by (repeat constructor).
  assert (H2 : Forall (byteIndent noDigitsAboveLatin1) (tokens itemAndMore))
    by exact (proj1 (proj2 (reflow_never_panics noDigitsAboveLatin1))
                itemAndMore H1).
  assert (H3 : forall k, wfail healthy <> Some (k, EPIPE))
    by (intros k; discriminate).
  split; [auto|]. split.
  - exact (proj1 (proj1 (reflow_never_panics noDigitsAboveLatin1)
                    itemAndMore healthy H2)).
  - exact (proj2 (proj1 (reflow_never_panics noDigitsAboveLatin1)
                    itemAndMore healthy H2) H3).
Defined.

Lemma blank_line_witness :
  (reachable noDigitsAboveLatin1 afterBullet /\ isBlank (str "   ") = true)
  /\ exists f',
       processLine noDigitsAboveLatin1 afterBullet (str "   ") = Some f'
       /\ emitted f' = emitted afterBullet ++ pendingLine afterBullet ++ [[]]
       /\ newLine f' = []
       /\ inCode f' = inCode afterBullet
       /\ list_ f' = zeroListState
       /\ listPrefixFirst f' = [] /\ listPrefixRest f' = [].
Proof.
  assert (H1 : reachable noDigitsAboveLatin1 afterBullet)
    by exact reachable_afterBullet.
  assert (H2 : isBlank (str "   ") = true) by reflexivity.
  split; [auto|].
  exact (blank_line noDigitsAboveLatin1 afterBullet (str "   ") H1 H2).
Defined.

Lemma list_item_prefixes_witness :
  (reachable noDigitsAboveLatin1 afterHello /\ inCode afterHello = false
   /\ typ (lineList noDigitsAboveLatin1 (str ">  7. seven")) <> noList)
  /\ exists f' ls,
       processLine noDigitsAboveLatin1 afterHello (str ">  7. seven") = Some f'
       /\ emitted f' ++ pendingLine f'
          = emitted afterHello ++ pendingLine afterHello ++ ls
       /\ prefixShape
            (Repeat (str "> ") (fst (countQuoteDepth (str ">  7. seven")))
             ++ Repeat (str " ")
                  (indent (lineList noDigitsAboveLatin1 (str ">  7. seven")))
             ++ symbol (typ (lineList noDigitsAboveLatin1 (str ">  7. seven")))
             ++ str " ")
            (Repeat (str "> ") (fst (countQuoteDepth (str ">  7. seven")))
             ++ Repeat (str " ")
                  (indent (lineList noDigitsAboveLatin1 (str ">  7. seven"))
                   + lrunes
                       (typ (lineList noDigitsAboveLatin1 (str ">  7. seven")))
                   + 1))
            ls
       /\ list_ f' = lineList noDigitsAboveLatin1 (str ">  7. seven")
       /\ runeCount
            (Repeat (str " ")
               (indent (lineList noDigitsAboveLatin1 (str ">  7. seven")))
             ++ symbol (typ (lineList noDigitsAboveLatin1 (str ">  7. seven")))
             ++ str " ")
          = runeCount
              (Repeat (str " ")
                 (indent (lineList noDigitsAboveLatin1 (str ">  7. seven"))
                  + lrunes
                      (typ (lineList noDigitsAboveLatin1 (str ">  7. seven")))
                  + 1)).
Proof.
  assert (H1 : reachable noDigitsAboveLatin1 afterHello)
    by exact reachable_afterHello.
  assert (H2 : inCode afterHello = false) by reflexivity.
  assert (H3 : typ (lineList noDigitsAboveLatin1 (str ">  7. seven")) <> noList)
    by discriminate.
  split; [auto|].
  exact (list_item_prefixes noDigitsAboveLatin1 afterHello (str ">  7. seven")
           H1 H2 H3).
Defined.

Lemma quoted_line_prefixes_witness :
  (reachable noDigitsAboveLatin1 (newFmtState 80 healthy)
   /\ inCode (newFmtState 80 healthy) = false
   /\ newLine (newFmtState 80 healthy) = []
   /\ typ (list_ (newFmtState 80 healthy)) = noList
   /\ typ (lineList noDigitsAboveLatin1 (str ">>  hello world")) = noList
   /\ fst (countQuoteDepth (str ">>  hello world")) <> 0)
  /\ exists f' ls,
       processLine noDigitsAboveLatin1 (newFmtState 80 healthy)
         (str ">>  hello world") = Some f'
       /\ emitted f' ++ pendingLine f'
          = emitted (newFmtState 80 healthy) ++ ls
       /\ Forall
            (prefixedBy
               (Repeat (str "> ") (fst (countQuoteDepth (str ">>  hello world")))))
            ls
       /\ (ScanWords (afterQuote (str ">>  hello world")) <> [] -> ls <> []).
Proof.
  assert (H1 : reachable noDigitsAboveLatin1 (newFmtState 80 healthy))
    by apply reachable_initial.
  assert (H2 : inCode (newFmtState 80 healthy) = false) by reflexivity.
  assert (H3 : newLine (newFmtState 80 healthy) = []) by reflexivity.
  assert (H4 : typ (list_ (newFmtState 80 healthy)) = noList) by reflexivity.
  assert (H5 : typ (lineList noDigitsAboveLatin1 (str ">>  hello world"))
               = noList) by reflexivity.
  assert (H6 : fst (countQuoteDepth (str ">>  hello world")) <> 0)
    by discriminate.
  split; [auto 7|].
  exact (quoted_line_prefixes noDigitsAboveLatin1 _ _ H1 H2 H3 H4 H5 H6).
Defined.

Lemma quote_marker_line_dropped_witness :
  (reachable noDigitsAboveLatin1 afterQuoted /\ inCode afterQuoted = false
   /\ typ (list_ afterQuoted) = noList
   /\ fst (countQuoteDepth (str "> ")) <> 0
   /\ ScanWords (afterQuote (str "> ")) = [])
  /\ processLine noDigitsAboveLatin1 afterQuoted (str "> ") = Some afterQuoted.
Proof.
  assert (H1 : reachable noDigitsAboveLatin1 afterQuoted)
    by exact reachable_afterQuoted.
  assert (H2 : inCode afterQuoted = false) by reflexivity.
  assert (H3 : typ (list_ afterQuoted) = noList) by reflexivity.
  assert (H4 : fst (countQuoteDepth (str "> ")) <> 0) by discriminate.
  assert (H5 : ScanWords (afterQuote (str "> ")) = []) by reflexivity.
  split; [auto 6|].
  exact (quote_marker_line_dropped noDigitsAboveLatin1 afterQuoted (str "> ")
           H1 H2 H3 H4 H5).
Defined.

(** A plain document with a tab, a run of spaces and a blank line, and its
    output. *)
Definition plainDoc : list gostring :=
  [str "one" ++ [x09] ++ str "  two"; str ""; str "  three. four"].

Definition plainOut : list gostring :=
  [str "one two"; str ""; str "three."; str "four"].

Lemma plainDoc_plain : Forall (plainProse noDigitsAboveLatin1) plainDoc.
Proof. repeat constructor. Qed.

Lemma plainDoc_run : run noDigitsAboveLatin1 80 plainDoc = Some plainOut.
Proof. vm_compute. reflexivity. Qed.

Lemma plainDoc_scannable : Forall scannable plainDoc.
Proof. repeat constructor. Qed.

Lemma words_preserved_witness :
  (Forall (plainProse noDigitsAboveLatin1) plainDoc
   /\ Forall scannable plainDoc)
  /\ exists out,
       run noDigitsAboveLatin1 80 plainDoc = Some out
       /\ concat (map ScanWords out)
          = concat (map ScanWords (tokens (mkReader plainDoc None)))
       /\ concat (map ScanWords out) = concat (map ScanWords plainDoc).
Proof.
  assert (H1 : Forall (plainProse noDigitsAboveLatin1) plainDoc)
    by exact plainDoc_plain.
  assert (H2 : Forall scannable plainDoc) by exact plainDoc_scannable.
  split; [auto|].
  destruct (words_preserved noDigitsAboveLatin1 80 plainDoc H1)
    as (out & E & Hw & Hall).
  exists out. split; [exact E|]. split; [exact Hw|exact (Hall H2)].
Defined.

Lemma single_spaced_witness :
  (Forall (plainProse noDigitsAboveLatin1) plainDoc
   /\ run noDigitsAboveLatin1 80 plainDoc = Some plainOut)
  /\ Forall (fun l =>
               l = TrimRightFunc
                     (concat (map (fun w => w ++ str " ") (ScanWords l)))
                     IsSpace)
       plainOut.
Proof.
  assert (H1 : Forall (plainProse noDigitsAboveLatin1) plainDoc)
    by exact plainDoc_plain.
  assert (H2 : run noDigitsAboveLatin1 80 plainDoc = Some plainOut)
    by exact plainDoc_run.
  split; [auto|].
  exact (single_spaced noDigitsAboveLatin1 80 plainDoc plainOut H1 H2).
Defined.

Lemma sentence_ends_line_witness :
  (Forall (plainProse noDigitsAboveLatin1) plainDoc
   /\ run noDigitsAboveLatin1 80 plainDoc = Some plainOut)
  /\ Forall (fun l =>
               forall init last,
                 ScanWords l = init ++ [last] ->
                 Forall (fun w => endsSentence w = false) init)
       plainOut.
Proof.
  assert (H1 : Forall (plainProse noDigitsAboveLatin1) plainDoc)
    by exact plainDoc_plain.
  assert (H2 : run noDigitsAboveLatin1 80 plainDoc = Some plainOut)
    by exact plainDoc_run.
  split; [auto|].
  exact (sentence_ends_line noDigitsAboveLatin1 80 plainDoc plainOut H1 H2).
Defined.

Definition codeLines : list gostring :=
  [str "x := 1  "; str "   "; str "  > y"].

Lemma code_block_passthrough_witness :
  ((reachable noDigitsAboveLatin1 inFence /\ inCode inFence = true
    /\ Forall (fun l => isFence l = false) codeLines)
   /\ exists f',
        lineLoop noDigitsAboveLatin1 inFence codeLines = Some f'
        /\ emitted f'
           = emitted inFence
               ++ map (fun l => TrimRightFunc l IsSpace) codeLines
        /\ inCode f' = true)
  /\ ((isFence (str " ```go") = true /\ isFence (str "```") = true
       /\ Forall (fun l => isFence l = false) codeLines
       /\ Forall scannable (str " ```go" :: codeLines ++ [str "```"]))
      /\ run noDigitsAboveLatin1 80 (str " ```go" :: codeLines ++ [str "```"])
         = Some (TrimSpace (str " ```go")
                   :: map (fun l => TrimRightFunc l IsSpace) codeLines
                   ++ [TrimSpace (str "```")])).
Proof.
  assert (H1 : reachable noDigitsAboveLatin1 inFence)
    by exact reachable_inFence.
  assert (H2 : inCode inFence = true) by reflexivity.
  assert (H3 : Forall (fun l => isFence l = false) codeLines)
    by (repeat constructor).
  assert (H4 : isFence (str " ```go") = true) by reflexivity.
  assert (H5 : isFence (str "```") = true) by reflexivity.
  assert (H6 : Forall scannable (str " ```go" :: codeLines ++ [str "```"]))
    by (repeat constructor).
  split; (split; [auto|]).
  - exact (proj1 (code_block_passthrough noDigitsAboveLatin1) inFence codeLines
             H1 H2 H3).
  - exact (proj2 (code_block_passthrough noDigitsAboveLatin1) 80 _ _ codeLines
             H4 H5 H3 H6).
Defined.

(** A paragraph wrapped at a narrow width, and its output. *)
Definition narrowDoc : list gostring := [str "aa bb cc dd. ee"].

Definition narrowOut : list gostring := [str "aa bb"; str "cc dd."; str "ee"].

Lemma narrowDoc_plain : Forall (plainProse noDigitsAboveLatin1) narrowDoc.
Proof. repeat constructor. Qed.

Lemma narrowOut_plain : Forall (plainProse noDigitsAboveLatin1) narrowOut.
Proof. repeat constructor. Qed.

Lemma narrowDoc_run : run noDigitsAboveLatin1 6 narrowDoc = Some narrowOut.
Proof. vm_compute. reflexivity. Qed.

Lemma wrap_idempotent_witness :
  (Forall (plainProse noDigitsAboveLatin1) narrowDoc
   /\ run noDigitsAboveLatin1 6 narrowDoc = Some narrowOut
   /\ Forall (plainProse noDigitsAboveLatin1) narrowOut
   /\ 4 * 6 < MaxScanTokenSize)
  /\ run noDigitsAboveLatin1 6 narrowOut = Some narrowOut.
Proof.
  assert (H1 : Forall (plainProse noDigitsAboveLatin1) narrowDoc)
    by exact narrowDoc_plain.
  assert (H2 : run noDigitsAboveLatin1 6 narrowDoc = Some narrowOut)
    by exact narrowDoc_run.
  assert (H3 : Forall (plainProse noDigitsAboveLatin1) narrowOut)
    by exact narrowOut_plain.
  assert (H4 : 4 * 6 < MaxScanTokenSize) by reflexivity.
  split; [auto|].
  exact (wrap_idempotent noDigitsAboveLatin1 6 narrowDoc narrowOut H1 H2 H3
           H4).
Defined.

Lemma lines_within_width_witness :
  (Forall (plainProse noDigitsAboveLatin1) narrowDoc
   /\ run noDigitsAboveLatin1 6 narrowDoc = Some narrowOut)
  /\ Forall (fun l => (length (ScanWords l) <= 1)%nat \/ runeCount l <= 6)
       narrowOut.
Proof.
  assert (H1 : Forall (plainProse noDigitsAboveLatin1) narrowDoc)
    by exact narrowDoc_plain.
  assert (H2 : run noDigitsAboveLatin1 6 narrowDoc = Some narrowOut)
    by exact narrowDoc_run.
  split; [auto|].
  exact (lines_within_width noDigitsAboveLatin1 6 narrowDoc narrowOut H1 H2).
Defined.

Lemma greedy_breaks_witness :
  (Forall (plainProse noDigitsAboveLatin1) narrowDoc
   /\ run noDigitsAboveLatin1 6 narrowDoc = Some narrowOut
   /\ narrowOut = [] ++ str "aa bb" :: str "cc dd." :: [str "ee"]
   /\ str "aa bb" <> [] /\ str "cc dd." <> [])
  /\ (endsSentence (last (ScanWords (str "aa bb")) []) = true
      \/ runeCount (str "aa bb") + 1
         + runeCount (hd [] (ScanWords (str "cc dd."))) > 6).
Proof.
  assert (H1 : Forall (plainProse noDigitsAboveLatin1) narrowDoc)
    by exact narrowDoc_plain.
  assert (H2 : run noDigitsAboveLatin1 6 narrowDoc = Some narrowOut)
    by exact narrowDoc_run.
  assert (H3 : narrowOut = [] ++ str "aa bb" :: str "cc dd." :: [str "ee"])
    by reflexivity.
  assert (H4 : str "aa bb" <> []) by discriminate.
  assert (H5 : str "cc dd." <> []) by discriminate.
  split; [auto 6|].
  exact (greedy_breaks noDigitsAboveLatin1 6 narrowDoc narrowOut []
           [str "ee"] (str "aa bb") (str "cc dd.") H1 H2 H3 H4 H5).
Defined.
